(** * The face-blur tool of remoun-site: region interaction, clustering, blur

    A shallow embedding of the client-side face-blur tool
    (face-blur.jsx, hooks/use-face-detection.js, utils/blur-utils.js,
    utils/image-utils.js) and the properties its specification states,
    followed by further properties of the same code: the quick
    selections and the person list, whole drag sessions, removal,
    processing and download names, the structure of the clustering, the
    image utilities, and the projection of the retirement calculator
    that shares the source file of the tool.

    Conventions of the embedding.
    - A JavaScript number that holds a coordinate is a rational [Q]:
      [Math.max], [Math.min], [Math.abs] are [Qmax], [Qmin], [Qabs] and
      [Math.round x] is [Qfloor (x + 1/2)].  In the handlers that draw a
      new region, where a rectangle is kept or dropped on a strict
      comparison of a computed size, every arithmetic operation ends in
      a rounding ([JS.Rounding]; [JS.binary64] is the rounding of
      doubles).  Elsewhere the arithmetic is exact, and what is proved
      of it are bounds and equations of coordinates, which doubles meet
      up to their rounding.  [NaN] and the infinities are represented in
      [faceDistance] only, as constructors.
    - A call of [Date.now()] is a reading of a clock; a function that
      reads the clock more than once takes the clock as a function of
      the number of the reading.
    - A bitmap holds straight RGBA bytes; what is proved of pixel
      colours after [putImageData] is stated for opaque bitmaps, on
      which a bitmap stored with premultiplied alpha agrees.
    - Strings are [string]; a JS [Set] of ids is a [gset string]; an array
      is a [list]; a typed array indexed by position is a [list Z] read
      with [!!!] and written with [<[i:=v]>].
    - React state is passed explicitly: a handler is a function from the
      state it closes over (and the event) to the next state. *)

From Stdlib Require Import QArith Qminmax Qround Qabs Lqa ZArith Lia Ascii String.
From stdpp Require Import gmap strings list pretty.

#[local] Set Warnings "-clear-no-such-hyp".

(** ** JavaScript primitives *)

Module JS.

Definition Math_max (a b : Q) : Q := Qmax a b.
Definition Math_min (a b : Q) : Q := Qmin a b.
Definition Math_abs (a : Q) : Q := Qabs a.

(** [Math.round] rounds to the nearest integer, halves towards +infinity. *)
Definition Math_round (a : Q) : Z := Qfloor (a + (1 # 2)).

(** [s.includes(c)] for a one-character needle. *)
Fixpoint includes (c : ascii) (s : string) : bool :=
  match s with
  | EmptyString => false
  | String d rest => if Ascii.eqb c d then true else includes c rest
  end.

(** [a < b] on numbers. *)
Definition lt (a b : Q) : bool := negb (Qle_bool b a).

(** The last step of [+], [-], [*] and [/] on numbers: the exact result
    is rounded to a double. *)
Definition Rounding : Type := Q -> Q.

Definition sub (fl : Rounding) (a b : Q) : Q := fl (a - b)%Q.
Definition mul (fl : Rounding) (a b : Q) : Q := fl (a * b)%Q.
Definition div (fl : Rounding) (a b : Q) : Q := fl (a / b)%Q.

(** Arithmetic without rounding. *)
Definition exact : Rounding := fun q => q.

(** The rounding of IEEE 754 doubles: to the nearest number with 53
    significant bits, a tie to the one with an even last bit.  The
    range of the exponent is not bounded: overflow to an infinity and
    the subnormal numbers are not represented. *)
Definition binary64 : Rounding := fun q =>
  if Qeq_bool q 0 then 0%Q
  else
    let a := Qabs q in
    let e0 := (Z.log2 (Qnum a) - Z.log2 (Zpos (Qden a)))%Z in
    let e := if Qle_bool (Qpower 2 e0) a then e0 else (e0 - 1)%Z in
    let ulp := Qpower 2 (e - 52) in
    let s := Qred (a / ulp) in
    let m := Qfloor s in
    let m' := match Qcompare (s - inject_Z m) (1 # 2) with
              | Lt => m
              | Gt => (m + 1)%Z
              | Eq => if Z.even m then m else (m + 1)%Z
              end in
    Qred ((if Qle_bool 0 q then 1 else -1) * (inject_Z m' * ulp)).

End JS.

(** Case analysis on every [Qmax]/[Qmin] of the goal, then linear
    arithmetic. *)
Ltac qminmax_case t :=
  lazymatch t with
  | Qmax ?a ?b =>
      let H := fresh "Hmax" in
      destruct (Q.max_spec a b) as [[? H] | [? H]];
      generalize dependent (Qmax a b); intros
  | Qmin ?a ?b =>
      let H := fresh "Hmin" in
      destruct (Q.min_spec a b) as [[? H] | [? H]];
      generalize dependent (Qmin a b); intros
  end.

Ltac qminmax :=
  unfold JS.Math_max, JS.Math_min in *;
  repeat match goal with
  | |- context [Qmax ?a ?b] => qminmax_case (Qmax a b)
  | |- context [Qmin ?a ?b] => qminmax_case (Qmin a b)
  | _ : context [Qmax ?a ?b] |- _ => qminmax_case (Qmax a b)
  | _ : context [Qmin ?a ?b] |- _ => qminmax_case (Qmin a b)
  end;
  try lra.

(** Splits the conjunctions that are written in the goal, without
    unfolding definitions. *)
Ltac conj_split := repeat match goal with |- _ /\ _ => split end.


(** ** Data model *)

(** An axis-aligned box [{x, y, width, height}] in natural image
    coordinates. *)
Record Box := mkBox {
  box_x : Q;
  box_y : Q;
  box_width : Q;
  box_height : Q
}.

Record Point := mkPoint { pt_x : Q; pt_y : Q }.

(** [canvas.getBoundingClientRect()]. *)
Record DOMRect := mkRect {
  rect_left : Q;
  rect_top : Q;
  rect_width : Q;
  rect_height : Q
}.

(** The part of a mouse event the handlers read; [target_is_canvas] is
    [e.target === canvasRef.current]. *)
Record MouseEvent := mkEvent {
  clientX : Q;
  clientY : Q;
  target_is_canvas : bool
}.

Inductive RegionType := face_region | manual_region.

(** [action] and [corner] of a drag session.  The handles pass ['move']
    with no corner and ['resize'] with one of the eight corner strings, so
    the corner is carried by the resize action. *)
Inductive Action :=
| move
| resize (corner : string).

(** [draggingRef.current] (the DOM [element] is presentation only and is
    left out). *)
Record Drag := mkDrag {
  drag_type : RegionType;
  drag_id : string;
  action : Action;
  offset : Point;
  initialBox : Box;
  currentBox : Box;
  imgWidth : Q;
  imgHeight : Q
}.

Definition with_currentBox (d : Drag) (b : Box) : Drag :=
  {| drag_type := drag_type d; drag_id := drag_id d; action := action d;
     offset := offset d; initialBox := initialBox d; currentBox := b;
     imgWidth := imgWidth d; imgHeight := imgHeight d |}.

(** ** Region interaction: dragging (face-blur.jsx, handleGlobalMouseMove) *)

Section Dragging.
Local Open Scope Q_scope.

(** [coords] of the pointer in natural image coordinates. *)
Definition pointer_coords (e : MouseEvent) (rect : DOMRect) (w h : Q) : Point :=
  let scaleX := w / rect_width rect in
  let scaleY := h / rect_height rect in
  {| pt_x := (clientX e - rect_left rect) * scaleX;
     pt_y := (clientY e - rect_top rect) * scaleY |}.

(** The [action === 'move'] branch. *)
Definition move_box (box : Box) (coords off : Point) (imgW imgH : Q) : Box :=
  let bx := JS.Math_max 0 (JS.Math_min (pt_x coords - pt_x off) (imgW - box_width box)) in
  let box1 := {| box_x := bx; box_y := box_y box;
                 box_width := box_width box; box_height := box_height box |} in
  let by_ := JS.Math_max 0 (JS.Math_min (pt_y coords - pt_y off) (imgH - box_height box1)) in
  {| box_x := box_x box1; box_y := by_;
     box_width := box_width box1; box_height := box_height box1 |}.

Definition minSize : Q := 30.

(** The four [if (corner.includes(..))] statements of the resize branch,
    in source order; each reads the box the previous one left. *)
Definition resize_e (corner : string) (coords : Point) (imgW : Q) (box : Box) : Box :=
  if JS.includes "e" corner then
    {| box_x := box_x box; box_y := box_y box;
       box_width := JS.Math_min (imgW - box_x box)
                      (JS.Math_max minSize (pt_x coords - box_x box));
       box_height := box_height box |}
  else box.

Definition resize_w (corner : string) (coords : Point) (box : Box) : Box :=
  if JS.includes "w" corner then
    let newX := JS.Math_max 0
                  (JS.Math_min (pt_x coords) (box_x box + box_width box - minSize)) in
    {| box_x := newX; box_y := box_y box;
       box_width := box_x box + box_width box - newX;
       box_height := box_height box |}
  else box.

Definition resize_s (corner : string) (coords : Point) (imgH : Q) (box : Box) : Box :=
  if JS.includes "s" corner then
    {| box_x := box_x box; box_y := box_y box;
       box_width := box_width box;
       box_height := JS.Math_min (imgH - box_y box)
                       (JS.Math_max minSize (pt_y coords - box_y box)) |}
  else box.

Definition resize_n (corner : string) (coords : Point) (box : Box) : Box :=
  if JS.includes "n" corner then
    let newY := JS.Math_max 0
                  (JS.Math_min (pt_y coords) (box_y box + box_height box - minSize)) in
    {| box_x := box_x box; box_y := newY;
       box_width := box_width box;
       box_height := box_y box + box_height box - newY |}
  else box.

Definition resize_box (corner : string) (box : Box) (coords : Point) (imgW imgH : Q) : Box :=
  resize_n corner coords
    (resize_s corner coords imgH
       (resize_w corner coords
          (resize_e corner coords imgW box))).

(** [handleGlobalMouseMove]: nothing happens without a session or a
    mounted canvas; otherwise the live box of the session is recomputed
    from the pointer. *)
Definition handleGlobalMouseMove
    (draggingRef : option Drag) (canvasRef : option DOMRect) (e : MouseEvent)
  : option Drag :=
  match draggingRef, canvasRef with
  | Some drag, Some rect =>
      let coords := pointer_coords e rect (imgWidth drag) (imgHeight drag) in
      let box := currentBox drag in
      let box' :=
        match action drag with
        | move => move_box box coords (offset drag) (imgWidth drag) (imgHeight drag)
        | resize corner => resize_box corner box coords (imgWidth drag) (imgHeight drag)
        end in
      Some (with_currentBox drag box')
  | _, _ => draggingRef
  end.


(** A box lies within an image of the given size. *)
Definition within_bounds (b : Box) (W H : Q) : Prop :=
  0 <= box_x b /\ 0 <= box_y b /\
  box_x b + box_width b <= W /\ box_y b + box_height b <= H.

End Dragging.

(** ** Bitmaps *)

(** One RGBA pixel; every channel of a bitmap is a byte. *)
Record RGBA := mkRGBA { red : Z; green : Z; blue : Z; alpha : Z }.

Definition transparent_black : RGBA := mkRGBA 0 0 0 0.

(** The backing store of a [<canvas>]: its size and the pixel at each
    position; positions outside [0..width) x [0..height) are not part of
    the bitmap. *)
Record Canvas := mkCanvas {
  cv_width : Z;
  cv_height : Z;
  cv_pixel : Z -> Z -> RGBA
}.

(** A decoded [Image] element. *)
Record Img := mkImg {
  img_width : Z;
  img_height : Z;
  img_pixel : Z -> Z -> RGBA
}.

Record File := mkFile { file_name : string }.

(** What a thumbnail shows: the crop rectangle [drawImage] copies before
    the JPEG encoding of [toDataURL] (the encoded bytes are not modelled). *)
Record Thumbnail := mkThumb {
  thumb_x : Z; thumb_y : Z; thumb_width : Z; thumb_height : Z
}.

(** A call that returns or throws (a promise that resolves or rejects). *)
Inductive Result (A : Type) :=
| Ok (a : A)
| Throw (msg : string).
Arguments Ok {A} a.
Arguments Throw {A} msg.

#[global] Instance Result_bind : MBind Result := fun A B k r =>
  match r with
  | Ok a => k a
  | Throw msg => Throw msg
  end.

#[global] Instance Result_ret : MRet Result := fun A a => Ok a.

(** ** Records of the working set *)

(** What the detection engine reports for one face (face-api.js; its
    landmarks are not used by the tool and are left out). *)
Module Detection.

Record t := mk {
  box : Box;
  age : Q;
  gender : string;
  genderProbability : Q;
  descriptor : list Q
}.

End Detection.

(** A detected-face record.  [imageId], [imageName] and [thumbnail] are
    absent until a later spread adds them. *)
Module Face.

Record t := mk {
  id : string;
  box : Box;
  age : Z;
  gender : string;
  genderProbability : Q;
  isChild : bool;
  selected : bool;
  descriptor : option (list Q);
  imageId : option string;
  imageName : option string;
  thumbnail : option Thumbnail
}.

(** [{ ...face, selected: v }] *)
Definition with_selected (f : t) (v : bool) : t :=
  mk (id f) (box f) (age f) (gender f) (genderProbability f) (isChild f) v
     (descriptor f) (imageId f) (imageName f) (thumbnail f).

(** [{ ...face, box: b }] *)
Definition with_box (f : t) (b : Box) : t :=
  mk (id f) b (age f) (gender f) (genderProbability f) (isChild f) (selected f)
     (descriptor f) (imageId f) (imageName f) (thumbnail f).

End Face.

(** A manually drawn region. *)
Module Manual.

Record t := mk {
  id : string;
  box : Box;
  selected : bool;
  isManual : bool
}.

End Manual.

(** An entry of [images]. *)
Module Image.

Record t := mk {
  id : string;
  file : File;
  img : Img;
  faces : list Face.t;
  manualRegions : list Manual.t;
  processed : option string
}.

End Image.

(** A person cluster. *)
Module Person.

Record t := mk {
  id : string;
  faces : list Face.t;
  faceIds : list string;
  isChild : bool;
  avgAge : Z;
  thumbnail : option Thumbnail;
  selected : bool
}.

End Person.

(** ** Image utilities (utils/image-utils.js) *)

Definition MAX_DETECTION_SIZE : Z := 1920.

Definition imageToCanvas (img : Img) : Canvas :=
  {| cv_width := img_width img; cv_height := img_height img;
     cv_pixel := img_pixel img |}.

(** [resizeForDetection]; [resample] is what the browser's scaling
    [drawImage(img, 0, 0, w, h)] leaves at each position of the smaller
    canvas. *)
Definition resizeForDetection
    (resample : Img -> Z -> Z -> Z -> Z -> RGBA) (img : Img) : Canvas * Q :=
  if (img_width img <=? MAX_DETECTION_SIZE)%Z && (img_height img <=? MAX_DETECTION_SIZE)%Z
  then (imageToCanvas img, 1%Q)
  else
    let scale := JS.Math_min (inject_Z MAX_DETECTION_SIZE / inject_Z (img_width img))%Q
                             (inject_Z MAX_DETECTION_SIZE / inject_Z (img_height img))%Q in
    let w := JS.Math_round (inject_Z (img_width img) * scale)%Q in
    let h := JS.Math_round (inject_Z (img_height img) * scale)%Q in
    ({| cv_width := w; cv_height := h; cv_pixel := resample img w h |}, scale).

Definition extractFaceThumbnail (canvas : Canvas) (box : Box) (padding : Q) : Thumbnail :=
  let x := Z.max 0 (JS.Math_round (box_x box - padding)%Q) in
  let y := Z.max 0 (JS.Math_round (box_y box - padding)%Q) in
  let width := Z.min (JS.Math_round (box_width box + padding * 2)%Q) (cv_width canvas - x) in
  let height := Z.min (JS.Math_round (box_height box + padding * 2)%Q) (cv_height canvas - y) in
  {| thumb_x := x; thumb_y := y; thumb_width := width; thumb_height := height |}.

(** ** Detection adapter (hooks/use-face-detection.js, detectFaces) *)

(** [detectFaces]: [engine] is [faceapi.detectAllFaces(..)] with its
    landmark, age and descriptor stages, [now index] the reading of
    [Date.now()] when the detection at [index] is mapped to its record. *)
Definition detectFaces
    (modelsLoaded : bool) (engine : Canvas -> Result (list Detection.t))
    (now : nat -> Z) (imageElement : Canvas) : Result (list Face.t) :=
  if negb modelsLoaded then Throw "Models not loaded. Call loadModels() first."
  else
    detections ← engine imageElement;
    Ok (imap (fun index detection =>
          let age := JS.Math_round (Detection.age detection) in
          let isChild := (age <? 18)%Z in
          {| Face.id := "face-" +:+ pretty (now index) +:+ "-" +:+ pretty index;
             Face.box := {| box_x := box_x (Detection.box detection);
                            box_y := box_y (Detection.box detection);
                            box_width := box_width (Detection.box detection);
                            box_height := box_height (Detection.box detection) |};
             Face.age := age;
             Face.gender := Detection.gender detection;
             Face.genderProbability := Detection.genderProbability detection;
             Face.isChild := isChild;
             Face.selected := isChild;
             Face.descriptor := Some (Detection.descriptor detection);
             Face.imageId := None;
             Face.imageName := None;
             Face.thumbnail := None |})
        detections).

(** ** Person clustering (hooks/use-face-detection.js) *)

(** The value of [faceDistance]: the square root of a sum of squares
    (kept under the root, as the root of a rational need not be one),
    [Infinity] for a missing descriptor, [NaN] when the second descriptor
    is shorter than the first. *)
Inductive Distance :=
| Sqrt (sum : Q)
| Infinity
| NaN.

(** The loop of [faceDistance]: [sum += diff * diff] for each index of
    the first descriptor; [None] is [NaN]. *)
Fixpoint sum_sq (sum : Q) (descriptor1 descriptor2 : list Q) : option Q :=
  match descriptor1, descriptor2 with
  | [], _ => Some sum
  | _ :: _, [] => None
  | a :: d1, b :: d2 =>
      let diff := (a - b)%Q in
      sum_sq (sum + diff * diff)%Q d1 d2
  end.

Definition faceDistance (descriptor1 descriptor2 : option (list Q)) : Distance :=
  match descriptor1, descriptor2 with
  | Some d1, Some d2 =>
      match sum_sq 0%Q d1 d2 with
      | Some sum => Sqrt sum
      | None => NaN
      end
  | _, _ => Infinity
  end.

(** [distance < threshold]: for a sum [s >= 0], [sqrt s < t] holds
    exactly when [0 < t] and [s < t * t]; every comparison with [NaN] is
    false and [Infinity] is below no number. *)
Definition distance_lt (distance : Distance) (threshold : Q) : bool :=
  match distance with
  | Sqrt sum => JS.lt 0%Q threshold && JS.lt sum (threshold * threshold)%Q
  | Infinity => false
  | NaN => false
  end.

Definition default_threshold : Q := 6 # 10.

(** The inner [for (const otherFace of faces)] loop: the state is
    [personFaces] and the shared set [assigned]. *)
Fixpoint cluster_inner (threshold : Q) (face : Face.t) (others : list Face.t)
    (personFaces : list Face.t) (assigned : gset string)
  : list Face.t * gset string :=
  match others with
  | [] => (personFaces, assigned)
  | otherFace :: rest =>
      if decide (Face.id otherFace ∈ assigned)
      then cluster_inner threshold face rest personFaces assigned
      else
        let distance := faceDistance (Face.descriptor face) (Face.descriptor otherFace) in
        if distance_lt distance threshold
        then cluster_inner threshold face rest
               (personFaces ++ [otherFace]) ({[Face.id otherFace]} ∪ assigned)
        else cluster_inner threshold face rest personFaces assigned
  end.

(** The person pushed at the end of one outer iteration; [now] is the
    reading of [Date.now()] at that push. *)
Definition make_person (now : Z) (index : nat) (personFaces : list Face.t) : Person.t :=
  let childCount := length (filter (fun f => Face.isChild f = true) personFaces) in
  let isChild :=
    JS.lt (inject_Z (Z.of_nat (length personFaces)) / 2)%Q
          (inject_Z (Z.of_nat childCount)) in
  let avgAge :=
    JS.Math_round
      (inject_Z (foldl (fun sum f => (sum + Face.age f)%Z) 0%Z personFaces)
       / inject_Z (Z.of_nat (length personFaces)))%Q in
  {| Person.id := "person-" +:+ pretty now +:+ "-" +:+ pretty index;
     Person.faces := personFaces;
     Person.faceIds := fmap Face.id personFaces;
     Person.isChild := isChild;
     Person.avgAge := avgAge;
     Person.thumbnail := hd_error personFaces ≫= Face.thumbnail;
     Person.selected := existsb Face.selected personFaces |}.

(** The outer [for (const face of faces)] loop over what is left of the
    list, with the whole list [faces] for the inner scan; [now k] is the
    reading of [Date.now()] when the person at position [k] is pushed. *)
Fixpoint cluster_outer (now : nat -> Z) (threshold : Q) (faces todo : list Face.t)
    (persons : list Person.t) (assigned : gset string) : list Person.t :=
  match todo with
  | [] => persons
  | face :: rest =>
      if decide (Face.id face ∈ assigned)
      then cluster_outer now threshold faces rest persons assigned
      else
        let '(personFaces, assigned') :=
          cluster_inner threshold face faces [face] ({[Face.id face]} ∪ assigned) in
        cluster_outer now threshold faces rest
          (persons ++ [make_person (now (length persons)) (length persons) personFaces])
          assigned'
  end.

Definition clusterFacesByPerson (now : nat -> Z) (faces : list Face.t) (threshold : Q)
  : list Person.t :=
  match faces with
  | [] => []
  | _ => cluster_outer now threshold faces faces [] ∅
  end.

(** ** The tool's state (face-blur.jsx) *)

Inductive BlurType := gaussian | pixel.

(** The state of [FaceBlurTool]: the [useState] cells, the two refs and
    [modelsLoaded] of the detection hook.  [canvasRef] holds the bounding
    rectangle of the mounted canvas. *)
Record AppState := mkState {
  images : list Image.t;
  selectedImageId : option string;
  blurType : BlurType;
  isProcessing : bool;
  processingStatus : string;
  isDrawing : bool;
  drawStart : option Point;
  currentRect : option Box;
  draggingRef : option Drag;
  canvasRef : option DOMRect;
  modelsLoaded : bool
}.

(** [images.flatMap(img => img.faces.map(face => ({...face, imageId, imageName})))] *)
Definition allFaces (imgs : list Image.t) : list Face.t :=
  flat_map (fun img =>
    fmap (fun face =>
      Face.mk (Face.id face) (Face.box face) (Face.age face) (Face.gender face)
        (Face.genderProbability face) (Face.isChild face) (Face.selected face)
        (Face.descriptor face) (Some (Image.id img))
        (Some (file_name (Image.file img))) (Face.thumbnail face))
      (Image.faces img)) imgs.

(** The memoised [persons]; [now] is the clock of the run of
    [clusterFacesByPerson] that computed it. *)
Definition persons (now : nat -> Z) (imgs : list Image.t) : list Person.t :=
  clusterFacesByPerson now (allFaces imgs) default_threshold.

(** [images.find(img => img.id === selectedImageId)] *)
Definition selectedImage (st : AppState) : option Image.t :=
  match selectedImageId st with
  | Some sid => List.find (fun img => String.eqb (Image.id img) sid) (images st)
  | None => None
  end.

(** ** File selection (face-blur.jsx, handleFilesSelected) *)

(** What lies outside the tool while a batch is processed: the decoder
    behind [loadImage], the browser's resampling, the detection engine and
    the clock: [Date_now i k] is reading number [k] of [Date.now()] while
    the file at index [i] is processed. *)
Record World := mkWorld {
  loadImage : File -> Result Img;
  resample : Img -> Z -> Z -> Z -> Z -> RGBA;
  detectAllFaces : Canvas -> Result (list Detection.t);
  Date_now : nat -> nat -> Z
}.

Definition scale_box (b : Box) (scale : Q) : Box :=
  {| box_x := (box_x b / scale)%Q; box_y := (box_y b / scale)%Q;
     box_width := (box_width b / scale)%Q; box_height := (box_height b / scale)%Q |}.

(** The body of the [try] block for the file at index [i]: the clock is
    read once for every detection and then once more for the id of the
    image. *)
Definition process_file (w : World) (loaded : bool) (i : nat) (file : File)
  : Result Image.t :=
  img ← loadImage w file;
  let '(detectionCanvas, scale) := resizeForDetection (resample w) img in
  rawFaces ← detectFaces loaded (detectAllFaces w) (Date_now w i) detectionCanvas;
  let originalCanvas := imageToCanvas img in
  let imageId :=
    "img-" +:+ pretty (Date_now w i (length rawFaces)) +:+ "-" +:+ pretty i in
  let faces :=
    fmap (fun face =>
      Face.mk (Face.id face) (scale_box (Face.box face) scale) (Face.age face)
        (Face.gender face) (Face.genderProbability face) (Face.isChild face)
        (Face.selected face) (Face.descriptor face) (Some imageId)
        (Face.imageName face)
        (Some (extractFaceThumbnail originalCanvas
                 (scale_box (Face.box face) scale) 20%Q)))
      rawFaces in
  Ok {| Image.id := imageId; Image.file := file; Image.img := img;
        Image.faces := faces; Image.manualRegions := []; Image.processed := None |}.

(** The [for] loop: [try { ...; newImages.push(..) } catch (err) { console.error(..) }]. *)
Fixpoint files_loop (w : World) (loaded : bool) (i : nat) (files : list File)
    (newImages : list Image.t) : list Image.t :=
  match files with
  | [] => newImages
  | file :: rest =>
      match process_file w loaded i file with
      | Ok entry => files_loop w loaded (S i) rest (newImages ++ [entry])
      | Throw _ => files_loop w loaded (S i) rest newImages
      end
  end.

Definition handleFilesSelected (w : World) (st : AppState) (files : list File) : AppState :=
  if negb (modelsLoaded st) then st
  else
    let newImages := files_loop w (modelsLoaded st) 0 files [] in
    {| images := images st ++ newImages;
       selectedImageId :=
         match newImages, selectedImageId st with
         | first :: _, None => Some (Image.id first)
         | _, _ => selectedImageId st
         end;
       blurType := blurType st;
       isProcessing := false;
       processingStatus := "";
       isDrawing := isDrawing st;
       drawStart := drawStart st;
       currentRect := currentRect st;
       draggingRef := draggingRef st;
       canvasRef := canvasRef st;
       modelsLoaded := modelsLoaded st |}.

(** ** Person selection (face-blur.jsx, togglePersonSelection) *)

Definition with_images (st : AppState) (imgs : list Image.t) : AppState :=
  {| images := imgs; selectedImageId := selectedImageId st;
     blurType := blurType st; isProcessing := isProcessing st;
     processingStatus := processingStatus st; isDrawing := isDrawing st;
     drawStart := drawStart st; currentRect := currentRect st;
     draggingRef := draggingRef st; canvasRef := canvasRef st;
     modelsLoaded := modelsLoaded st |}.

(** [togglePersonSelection]; [persons] is the memoised cluster list the
    handler closes over. *)
Definition togglePersonSelection (persons : list Person.t) (imgs : list Image.t)
    (personId : string) : list Image.t :=
  match List.find (fun p => String.eqb (Person.id p) personId) persons with
  | None => imgs
  | Some person =>
      let newSelected := negb (Person.selected person) in
      let faceIdsToToggle : gset string := list_to_set (Person.faceIds person) in
      fmap (fun img =>
        {| Image.id := Image.id img; Image.file := Image.file img;
           Image.img := Image.img img;
           Image.faces :=
             fmap (fun face =>
               if decide (Face.id face ∈ faceIdsToToggle)
               then Face.with_selected face newSelected
               else face) (Image.faces img);
           Image.manualRegions := Image.manualRegions img;
           Image.processed := None |}) imgs
  end.

(** ** Region interaction: drawing (face-blur.jsx, canvas handlers) *)

(** [getCanvasCoordinates].  Whether a drawn rectangle is kept hangs on a
    strict comparison of a difference of two of these coordinates with
    20, so the rounding [fl] of every operation is part of the model
    here. *)
Definition getCanvasCoordinates (fl : JS.Rounding) (e : MouseEvent) (rect : DOMRect)
    (img : Img) : Point :=
  let scaleX := JS.div fl (inject_Z (img_width img)) (rect_width rect) in
  let scaleY := JS.div fl (inject_Z (img_height img)) (rect_height rect) in
  {| pt_x := JS.mul fl (JS.sub fl (clientX e) (rect_left rect)) scaleX;
     pt_y := JS.mul fl (JS.sub fl (clientY e) (rect_top rect)) scaleY |}.

Definition with_drawing (st : AppState) (drawing : bool) (start : option Point)
    (rect : option Box) : AppState :=
  {| images := images st; selectedImageId := selectedImageId st;
     blurType := blurType st; isProcessing := isProcessing st;
     processingStatus := processingStatus st; isDrawing := drawing;
     drawStart := start; currentRect := rect;
     draggingRef := draggingRef st; canvasRef := canvasRef st;
     modelsLoaded := modelsLoaded st |}.

Definition handleCanvasMouseDown (fl : JS.Rounding) (st : AppState) (e : MouseEvent)
  : AppState :=
  if negb (target_is_canvas e) then st
  else
    match draggingRef st, selectedImage st, canvasRef st with
    | None, Some sel, Some rect =>
        let coords := getCanvasCoordinates fl e rect (Image.img sel) in
        with_drawing st true (Some coords) None
    | _, _, _ => st
    end.

Definition handleCanvasMouseMove (fl : JS.Rounding) (st : AppState) (e : MouseEvent)
  : AppState :=
  match draggingRef st with
  | Some _ => st
  | None =>
      match isDrawing st, drawStart st, selectedImage st, canvasRef st with
      | true, Some start, Some sel, Some rect =>
          if negb (target_is_canvas e) then st
          else
            let coords := getCanvasCoordinates fl e rect (Image.img sel) in
            with_drawing st (isDrawing st) (drawStart st)
              (Some {| box_x := JS.Math_min (pt_x start) (pt_x coords);
                       box_y := JS.Math_min (pt_y start) (pt_y coords);
                       box_width := JS.Math_abs (JS.sub fl (pt_x coords) (pt_x start));
                       box_height := JS.Math_abs (JS.sub fl (pt_y coords) (pt_y start)) |})
      | _, _, _, _ => st
      end
  end.

(** [handleCanvasMouseUp]; [now] is the reading of [Date.now()]. *)
Definition handleCanvasMouseUp (now : Z) (st : AppState) : AppState :=
  match isDrawing st, currentRect st, selectedImage st with
  | true, Some rect, Some sel =>
      let st' :=
        if JS.lt 20%Q (box_width rect) && JS.lt 20%Q (box_height rect) then
          let newRegion :=
            {| Manual.id := "manual-" +:+ pretty now;
               Manual.box := rect;
               Manual.selected := true;
               Manual.isManual := true |} in
          with_images st
            (fmap (fun img =>
               if negb (String.eqb (Image.id img) (Image.id sel)) then img
               else
                 {| Image.id := Image.id img; Image.file := Image.file img;
                    Image.img := Image.img img; Image.faces := Image.faces img;
                    Image.manualRegions := Image.manualRegions img ++ [newRegion];
                    Image.processed := None |})
               (images st))
        else st in
      with_drawing st' false None None
  | _, _, _ => with_drawing st false None None
  end.

(** ** Render engine (utils/blur-utils.js) *)

Definition GAUSSIAN_BLUR_RADIUS : Z := 30.
Definition PIXEL_SIZE : nat := 24.

Definition in_canvas (c : Canvas) (i j : Z) : bool :=
  (0 <=? i)%Z && (i <? cv_width c)%Z && (0 <=? j)%Z && (j <? cv_height c)%Z.

(** What [getImageData] reads at a position: the pixel of the bitmap, or
    transparent black outside it. *)
Definition source_pixel (c : Canvas) (i j : Z) : RGBA :=
  if in_canvas c i j then cv_pixel c i j else transparent_black.

Definition channel (p : RGBA) (k : nat) : Z :=
  match k with
  | 0 => red p
  | 1 => green p
  | 2 => blue p
  | _ => alpha p
  end.

(** An [ImageData]: [data] holds the pixels row by row, four bytes each. *)
Record ImageData := mkImageData {
  data : list Z;
  idata_width : nat;
  idata_height : nat
}.

(** [ctx.getImageData(sx, sy, sw, sh)]: a zero size throws; a negative
    size selects the rectangle on the other side of the origin. *)
Definition getImageData (c : Canvas) (sx sy sw sh : Z) : Result ImageData :=
  if (sw =? 0)%Z || (sh =? 0)%Z then Throw "IndexSizeError"
  else
    let x0 := if (sw <? 0)%Z then (sx + sw)%Z else sx in
    let y0 := if (sh <? 0)%Z then (sy + sh)%Z else sy in
    let w := Z.to_nat (Z.abs sw) in
    let h := Z.to_nat (Z.abs sh) in
    Ok {| data :=
            fmap (fun k =>
                   let col := (k / 4) mod w in
                   let row := (k / 4) / w in
                   channel (source_pixel c (x0 + Z.of_nat col) (y0 + Z.of_nat row))
                           (k mod 4))
                (seq 0 (4 * (w * h)));
          idata_width := w;
          idata_height := h |}.

(** [ctx.putImageData(imageData, dx, dy)]: the pixels of the bitmap under
    the rectangle are replaced.  The bytes are kept as they are written,
    which is what a browser does for an opaque pixel; a bitmap that
    stores colours premultiplied by alpha may give back other colour
    bytes for a translucent pixel, so the properties of pixelation are
    stated for opaque bitmaps ([opaque_canvas]). *)
Definition putImageData (c : Canvas) (d : ImageData) (dx dy : Z) : Canvas :=
  {| cv_width := cv_width c;
     cv_height := cv_height c;
     cv_pixel := fun i j =>
       if in_canvas c i j
          && (dx <=? i)%Z && (i <? dx + Z.of_nat (idata_width d))%Z
          && (dy <=? j)%Z && (j <? dy + Z.of_nat (idata_height d))%Z
       then
         let k := ((Z.to_nat (j - dy) * idata_width d + Z.to_nat (i - dx)) * 4)%nat in
         {| red := data d !!! k; green := data d !!! (k + 1)%nat;
            blue := data d !!! (k + 2)%nat; alpha := data d !!! (k + 3)%nat |}
       else cv_pixel c i j |}.

(** A store into a [Uint8ClampedArray]. *)
Definition clamp_u8 (v : Z) : Z := Z.max 0 (Z.min 255 v).

(** The values of [p] in [for (let p = 0; p < limit; p += PIXEL_SIZE)]. *)
Definition block_starts (limit : nat) : list nat :=
  fmap (fun k => k * PIXEL_SIZE) (seq 0 ((limit + (PIXEL_SIZE - 1)) / PIXEL_SIZE)).

(** The values of [d] in [for (let d = 0; d < PIXEL_SIZE && p + d < limit; d++)]. *)
Definition block_range (p limit : nat) : list nat :=
  seq 0 (Nat.min PIXEL_SIZE (limit - p)).

(** The first pair of inner loops: the sums of the block and its size.
    Every index read lies in the array when [data] holds [width] x
    [height] pixels ([data_index_lt] below). *)
Definition block_sums (data : list Z) (width height px py : nat) : Z * Z * Z * Z :=
  foldl (fun acc dy =>
    foldl (fun '(r, g, b, count) dx =>
      let i := ((py + dy) * width + (px + dx)) * 4 in
      let di : Z := data !!! i in
      let di1 : Z := data !!! (i + 1) in
      let di2 : Z := data !!! (i + 2) in
      (r + di, g + di1, b + di2, count + 1)%Z)
      acc (block_range px width))
    (0, 0, 0, 0)%Z (block_range py height).

(** The second pair of inner loops: every pixel of the block is set. *)
Definition block_fill (data : list Z) (width height px py : nat) (r g b : Z) : list Z :=
  foldl (fun data dy =>
    foldl (fun data dx =>
      let i := ((py + dy) * width + (px + dx)) * 4 in
      <[i + 2 := clamp_u8 b]> (<[i + 1 := clamp_u8 g]> (<[i := clamp_u8 r]> data)))
      data (block_range px width))
    data (block_range py height).

(** [Math.round(sum / count)] *)
Definition rounded_mean (sum count : Z) : Z :=
  JS.Math_round (inject_Z sum / inject_Z count)%Q.

Definition pixelate_block (data : list Z) (width height px py : nat) : list Z :=
  let '(r, g, b, count) := block_sums data width height px py in
  let r := rounded_mean r count in
  let g := rounded_mean g count in
  let b := rounded_mean b count in
  block_fill data width height px py r g b.

(** The two outer loops over the blocks. *)
Definition pixelate_data (data : list Z) (width height : nat) : list Z :=
  foldl (fun data py =>
    foldl (fun data px => pixelate_block data width height px py)
      data (block_starts width))
    data (block_starts height).

(** The state of the canvas after a call, and the exception if the call
    threw. *)
Definition Outcome : Type := Canvas * option string.

Definition rounded_box (box : Box) : Z * Z * Z * Z :=
  (JS.Math_round (box_x box), JS.Math_round (box_y box),
   JS.Math_round (box_width box), JS.Math_round (box_height box)).

Definition applyPixelation (c : Canvas) (box : Box) : Outcome :=
  let '(x, y, width, height) := rounded_box box in
  match getImageData c x y width height with
  | Throw msg => (c, Some msg)
  | Ok imageData =>
      let imageData' :=
        {| data := pixelate_data (data imageData) (Z.to_nat width) (Z.to_nat height);
           idata_width := idata_width imageData;
           idata_height := idata_height imageData |} in
      (putImageData c imageData' x y, None)
  end.

(** What the browser composites at a position when the source rectangle
    [(sx, sy, sw, sh)] of the canvas is drawn onto itself through
    [filter: blur(radius px)].  The filter is the browser's; the tool only
    fixes where it may draw. *)
Definition Renderer : Type := Canvas -> Z * Z * Z * Z -> Z -> Z -> Z -> RGBA.

(** A pixel is painted under a clip path only if its unit square overlaps
    the path: the point of the square nearest to the centre of the
    ellipse lies strictly inside the ellipse with centre [(cx, cy)] and
    radii [rx], [ry]. *)
Definition clip_covers (cx cy rx ry : Q) (i j : Z) : bool :=
  let u := Qmax (inject_Z i) (Qmin cx (inject_Z i + 1)) in
  let v := Qmax (inject_Z j) (Qmin cy (inject_Z j + 1)) in
  JS.lt (((u - cx) * ry) * ((u - cx) * ry) + ((v - cy) * rx) * ((v - cy) * rx))
        ((rx * ry) * (rx * ry))%Q.

Definition applyGaussianBlur (render : Renderer) (c : Canvas) (box : Box) : Outcome :=
  let '(x, y, width, height) := rounded_box box in
  let padding := 50%Z in
  let srcX := Z.max 0 (x - padding) in
  let srcY := Z.max 0 (y - padding) in
  let srcWidth := Z.min (width + padding * 2) (cv_width c - srcX) in
  let srcHeight := Z.min (height + padding * 2) (cv_height c - srcY) in
  let cx := (inject_Z x + inject_Z width / 2)%Q in
  let cy := (inject_Z y + inject_Z height / 2)%Q in
  let rx := (inject_Z width / 2 + 10)%Q in
  let ry := (inject_Z height / 2 + 10)%Q in
  (* ctx.ellipse throws on a negative radius *)
  if JS.lt rx 0%Q || JS.lt ry 0%Q then (c, Some "IndexSizeError"%string)
  else
    ({| cv_width := cv_width c;
        cv_height := cv_height c;
        cv_pixel := fun i j =>
          if in_canvas c i j && clip_covers cx cy rx ry i j
          then render c (srcX, srcY, srcWidth, srcHeight) GAUSSIAN_BLUR_RADIUS i j
          else cv_pixel c i j |}, None).

(** An element of the list [processImages] passes to [applyBlurToFaces]:
    [[...imgData.faces, ...imgData.manualRegions]]. *)
Inductive Region :=
| FaceRegion (f : Face.t)
| ManualRegion (r : Manual.t).

Definition region_selected (f : Region) : bool :=
  match f with
  | FaceRegion f => Face.selected f
  | ManualRegion r => Manual.selected r
  end.

Definition region_box (f : Region) : Box :=
  match f with
  | FaceRegion f => Face.box f
  | ManualRegion r => Manual.box r
  end.

Definition allRegions (imgData : Image.t) : list Region :=
  fmap FaceRegion (Image.faces imgData) ++ fmap ManualRegion (Image.manualRegions imgData).

(** The [for (const face of selectedFaces)] loop; an exception leaves it. *)
Fixpoint blur_loop (render : Renderer) (blurType : BlurType)
    (selectedFaces : list Region) (c : Canvas) : Outcome :=
  match selectedFaces with
  | [] => (c, None)
  | face :: rest =>
      let '(c', thrown) :=
        match blurType with
        | gaussian => applyGaussianBlur render c (region_box face)
        | pixel => applyPixelation c (region_box face)
        end in
      match thrown with
      | Some msg => (c', Some msg)
      | None => blur_loop render blurType rest c'
      end
  end.

Definition applyBlurToFaces (render : Renderer) (canvas : Canvas)
    (faces : list Region) (blurType : BlurType) : Outcome :=
  let selectedFaces := filter (fun f => region_selected f = true) faces in
  blur_loop render blurType selectedFaces canvas.

(** ** Quick selection and removal (face-blur.jsx) *)

Definition selectAllPersons (imgs : list Image.t) : list Image.t :=
  fmap (fun img =>
    {| Image.id := Image.id img; Image.file := Image.file img;
       Image.img := Image.img img;
       Image.faces := fmap (fun face => Face.with_selected face true) (Image.faces img);
       Image.manualRegions := Image.manualRegions img;
       Image.processed := None |}) imgs.

Definition deselectAllPersons (imgs : list Image.t) : list Image.t :=
  fmap (fun img =>
    {| Image.id := Image.id img; Image.file := Image.file img;
       Image.img := Image.img img;
       Image.faces := fmap (fun face => Face.with_selected face false) (Image.faces img);
       Image.manualRegions := Image.manualRegions img;
       Image.processed := None |}) imgs.

(** [selectChildrenOnly]; [persons] is the memoised cluster list the
    handler closes over. *)
Definition selectChildrenOnly (persons : list Person.t) (imgs : list Image.t)
  : list Image.t :=
  let childFaceIds : gset string :=
    list_to_set (filter (fun p => Person.isChild p = true) persons ≫= Person.faceIds) in
  fmap (fun img =>
    {| Image.id := Image.id img; Image.file := Image.file img;
       Image.img := Image.img img;
       Image.faces :=
         fmap (fun face =>
           Face.with_selected face (bool_decide (Face.id face ∈ childFaceIds)))
           (Image.faces img);
       Image.manualRegions := Image.manualRegions img;
       Image.processed := None |}) imgs.

(** [removeImage]: the list is filtered; a selection on the removed id
    moves to the first image with another id, if the list held more than
    one image, and is dropped otherwise. *)
Definition removeImage (st : AppState) (imageId : string) : AppState :=
  {| images := filter (fun img => Image.id img <> imageId) (images st);
     selectedImageId :=
       if decide (selectedImageId st = Some imageId) then
         if (1 <? length (images st))%nat
         then Image.id <$>
                List.find (fun img => negb (String.eqb (Image.id img) imageId)) (images st)
         else None
       else selectedImageId st;
     blurType := blurType st; isProcessing := isProcessing st;
     processingStatus := processingStatus st; isDrawing := isDrawing st;
     drawStart := drawStart st; currentRect := currentRect st;
     draggingRef := draggingRef st; canvasRef := canvasRef st;
     modelsLoaded := modelsLoaded st |}.

Definition removeManualRegion (imgs : list Image.t) (imageId regionId : string)
  : list Image.t :=
  fmap (fun img =>
    if negb (String.eqb (Image.id img) imageId) then img
    else
      {| Image.id := Image.id img; Image.file := Image.file img;
         Image.img := Image.img img; Image.faces := Image.faces img;
         Image.manualRegions :=
           filter (fun r => Manual.id r <> regionId) (Image.manualRegions img);
         Image.processed := None |}) imgs.


(** ** Computed values (face-blur.jsx) *)

Definition totalManualRegions (imgs : list Image.t) : nat :=
  foldl (fun sum img => sum + length (Image.manualRegions img)) 0 imgs.

Definition hasSelectedRegions (imgs : list Image.t) : bool :=
  existsb (fun img =>
    existsb Face.selected (Image.faces img)
    || existsb Manual.selected (Image.manualRegions img)) imgs.

(** The truth value of [img.processed]: [null] and the empty string are
    false. *)
Definition truthy (processed : option string) : bool :=
  match processed with
  | Some s => negb (String.eqb s "")
  | None => false
  end.

Definition allProcessed (imgs : list Image.t) : bool :=
  (0 <? length imgs) && forallb (fun img => truthy (Image.processed img)) imgs.

Definition selectedPersonsCount (persons : list Person.t) : nat :=
  length (filter (fun p => Person.selected p = true) persons).

(** ** Region interaction: starting and committing a drag (face-blur.jsx) *)

Definition with_dragging (st : AppState) (d : option Drag) : AppState :=
  {| images := images st; selectedImageId := selectedImageId st;
     blurType := blurType st; isProcessing := isProcessing st;
     processingStatus := processingStatus st; isDrawing := isDrawing st;
     drawStart := drawStart st; currentRect := currentRect st;
     draggingRef := d; canvasRef := canvasRef st;
     modelsLoaded := modelsLoaded st |}.

(** The region a handle belongs to: [selectedImage.faces.find(..)] or
    [selectedImage.manualRegions.find(..)], of which the session reads
    the box. *)
Definition find_region (sel : Image.t) (regionType : RegionType) (regionId : string)
  : option Box :=
  match regionType with
  | face_region =>
      Face.box <$>
        List.find (fun f => String.eqb (Face.id f) regionId) (Image.faces sel)
  | manual_region =>
      Manual.box <$>
        List.find (fun r => String.eqb (Manual.id r) regionId) (Image.manualRegions sel)
  end.

(** [handleRegionMouseDown]: the session records the region's box and
    the offset of the pointer from its origin.  The [action] carries the
    corner of a resize handle. *)
Definition handleRegionMouseDown (st : AppState) (e : MouseEvent)
    (regionType : RegionType) (regionId : string) (action : Action) : AppState :=
  match selectedImage st, canvasRef st with
  | Some sel, Some rect =>
      let coords :=
        pointer_coords e rect (inject_Z (img_width (Image.img sel)))
                              (inject_Z (img_height (Image.img sel))) in
      match find_region sel regionType regionId with
      | None => st
      | Some box =>
          with_dragging st
            (Some {| drag_type := regionType; drag_id := regionId; action := action;
                     offset := {| pt_x := (pt_x coords - box_x box)%Q;
                                  pt_y := (pt_y coords - box_y box)%Q |};
                     initialBox := box; currentBox := box;
                     imgWidth := inject_Z (img_width (Image.img sel));
                     imgHeight := inject_Z (img_height (Image.img sel)) |})
      end
  | _, _ => st
  end.

(** The window listener for [mousemove] while a session lasts: it
    rewrites the ref and no React state. *)
Definition onWindowMouseMove (st : AppState) (e : MouseEvent) : AppState :=
  with_dragging st (handleGlobalMouseMove (draggingRef st) (canvasRef st) e).

(** [currentBox.x !== initialBox.x || ...] on numbers.  After pointer
    moves the test compares computed coordinates for equality; with the
    exact arithmetic of the drag handlers its outcome is that of the
    exact coordinates, which doubles need not share, and no property
    below rests on it beyond a session without moves. *)
Definition box_changed (currentBox initialBox : Box) : bool :=
  negb (Qeq_bool (box_x currentBox) (box_x initialBox))
  || negb (Qeq_bool (box_y currentBox) (box_y initialBox))
  || negb (Qeq_bool (box_width currentBox) (box_width initialBox))
  || negb (Qeq_bool (box_height currentBox) (box_height initialBox)).

(** [handleGlobalMouseUp]; [selectedImage] is the value the listener
    closed over when the session started (the session itself changes no
    React state, so nothing re-renders in between). *)
Definition handleGlobalMouseUp (selectedImage : option Image.t) (st : AppState)
  : AppState :=
  match draggingRef st with
  | None => st
  | Some drag =>
      let changed := box_changed (currentBox drag) (initialBox drag) in
      let images' :=
        if changed then
          fmap (fun img =>
            if match selectedImage with
               | Some sel => negb (String.eqb (Image.id img) (Image.id sel))
               | None => true
               end
            then img
            else
              match drag_type drag with
              | face_region =>
                  {| Image.id := Image.id img; Image.file := Image.file img;
                     Image.img := Image.img img;
                     Image.faces :=
                       fmap (fun f =>
                         if String.eqb (Face.id f) (drag_id drag)
                         then Face.with_box f (currentBox drag) else f)
                         (Image.faces img);
                     Image.manualRegions := Image.manualRegions img;
                     Image.processed := None |}
              | manual_region =>
                  {| Image.id := Image.id img; Image.file := Image.file img;
                     Image.img := Image.img img; Image.faces := Image.faces img;
                     Image.manualRegions :=
                       fmap (fun r =>
                         if String.eqb (Manual.id r) (drag_id drag)
                         then Manual.mk (Manual.id r) (currentBox drag)
                                (Manual.selected r) (Manual.isManual r)
                         else r)
                         (Image.manualRegions img);
                     Image.processed := None |}
              end) (images st)
        else images st in
      {| images := images'; selectedImageId := selectedImageId st;
         blurType := blurType st; isProcessing := isProcessing st;
         processingStatus := processingStatus st; isDrawing := false;
         drawStart := None; currentRect := None;
         draggingRef := None; canvasRef := canvasRef st;
         modelsLoaded := modelsLoaded st |}
  end.

(** ** Processing and download (face-blur.jsx) *)

(** The status line shown while the image at index [i] of [n] is blurred. *)
Definition processing_status (name : string) (i n : nat) : string :=
  "Blurring faces in " +:+ name +:+ " (" +:+ pretty (i + 1) +:+ "/" +:+ pretty n
  +:+ ")...".

(** The [for] loop of [processImages]: the state is [processedImages] and
    the status line; an exception of [applyBlurToFaces] leaves the loop.
    [toDataURL] is the JPEG encoder behind [canvas.toDataURL]. *)
Fixpoint process_loop (render : Renderer) (toDataURL : Canvas -> string)
    (blurType : BlurType) (n i : nat) (todo : list Image.t)
    (processedImages : list Image.t) (status : string)
  : list Image.t * string * option string :=
  match todo with
  | [] => (processedImages, status, None)
  | imgData :: rest =>
      let status := processing_status (file_name (Image.file imgData)) i n in
      let canvas := imageToCanvas (Image.img imgData) in
      let '(canvas', thrown) :=
        applyBlurToFaces render canvas (allRegions imgData) blurType in
      match thrown with
      | Some msg => (processedImages, status, Some msg)
      | None =>
          process_loop render toDataURL blurType n (S i) rest
            (processedImages ++
               [{| Image.id := Image.id imgData; Image.file := Image.file imgData;
                   Image.img := Image.img imgData; Image.faces := Image.faces imgData;
                   Image.manualRegions := Image.manualRegions imgData;
                   Image.processed := Some (toDataURL canvas') |}])
            status
      end
  end.

(** [processImages]: the state it leaves and the exception that rejected
    the promise, if any.  Nothing resets [isProcessing] after an
    exception. *)
Definition processImages (render : Renderer) (toDataURL : Canvas -> string)
    (st : AppState) : AppState * option string :=
  let '(processedImages, status, thrown) :=
    process_loop render toDataURL (blurType st) (length (images st)) 0
      (images st) [] (processingStatus st) in
  match thrown with
  | Some msg =>
      ({| images := images st; selectedImageId := selectedImageId st;
          blurType := blurType st; isProcessing := true;
          processingStatus := status; isDrawing := isDrawing st;
          drawStart := drawStart st; currentRect := currentRect st;
          draggingRef := draggingRef st; canvasRef := canvasRef st;
          modelsLoaded := modelsLoaded st |}, Some msg)
  | None =>
      ({| images := processedImages; selectedImageId := selectedImageId st;
          blurType := blurType st; isProcessing := false;
          processingStatus := ""; isDrawing := isDrawing st;
          drawStart := drawStart st; currentRect := currentRect st;
          draggingRef := draggingRef st; canvasRef := canvasRef st;
          modelsLoaded := modelsLoaded st |}, None)
  end.

(** [name.split('.')]: the pieces between the dots, at least one. *)
Fixpoint split_dot (name : string) : list string :=
  match name with
  | EmptyString => [EmptyString]
  | String c rest =>
      if Ascii.eqb c "." then EmptyString :: split_dot rest
      else
        match split_dot rest with
        | piece :: more => String c piece :: more
        | [] => [String c EmptyString]
        end
  end.

(** A string of one or more characters other than [/] and [.]. *)
Fixpoint plain_chars (s : string) : bool :=
  match s with
  | EmptyString => true
  | String c rest => negb (Ascii.eqb c "/") && negb (Ascii.eqb c ".") && plain_chars rest
  end.

(** The whole of [s] matches [\.[^/.]+]. *)
Definition extension_match (s : string) : bool :=
  match s with
  | String c (String d rest) => Ascii.eqb c "." && plain_chars (String d rest)
  | _ => false
  end.

(** [name.replace(/\.[^/.]+$/, '')]: the first position from the left
    at which the rest of the name matches is cut off. *)
Fixpoint strip_extension (name : string) : string :=
  if extension_match name then EmptyString
  else
    match name with
    | EmptyString => EmptyString
    | String c rest => String c (strip_extension rest)
    end.

(** The file name [downloadImage] gives the link. *)
Definition download_name (name : string) : string :=
  let extension := default EmptyString (last (split_dot name)) in
  let baseName := strip_extension name in
  baseName +:+ "-blurred." +:+ extension.

(** ** The retirement calculator (calculateProjection) *)

(** The calculator that shares the source file of the face-blur tool.
    Ages are whole numbers (the sliders step by 1), amounts and rates are
    exact rationals. *)
Module Fire.

Record Params := mkParams {
  currentAge : Z;
  currentPortfolio : Q;
  annualSavings : Q;
  preReturnRate : Q;
  retirementAge : Z;
  postReturnRate : Q;
  annualSpending : Q;
  annualGiving : Q;
  sideIncome : Q;
  sideIncomeEndAge : Z;
  ssIncome : Q;
  ssHaircut : Q;
  ssStartAge : Z;
  inflationRate : Q;
  lifeExpectancy : Z;
  spendingSmile : bool
}.

(** A row of the projection.  Rows of the accumulation phase carry the
    savings as they are for [income] and have no [withdrawal]. *)
Record Row := mkRow {
  age : Z;
  portfolio : Z;
  phase : string;
  spending : Z;
  giving : Z;
  income : Q;
  withdrawal : option Z
}.

(** The body of the loop for one age: the portfolio it leaves and the
    row it pushes. *)
Definition projection_year (params : Params) (age : Z) (portfolio : Q) : Q * Row :=
  let yearsFromRetirement := (age - retirementAge params)%Z in
  if (age <? retirementAge params)%Z then
    let growth := (portfolio * preReturnRate params)%Q in
    let portfolio := (portfolio + growth + annualSavings params)%Q in
    (portfolio,
     {| age := age; portfolio := JS.Math_round portfolio; phase := "Accumulation";
        spending := 0; giving := 0; income := annualSavings params;
        withdrawal := None |})
  else
    let inflationMult := Qpower (1 + inflationRate params)%Q yearsFromRetirement in
    let spendingMult : Q :=
      if spendingSmile params then
        if (age <? 55)%Z then 1%Q
        else if (age <? 70)%Z then (85 # 100)%Q
        else if (age <? 80)%Z then (75 # 100)%Q
        else (11 # 10)%Q
      else 1%Q in
    let baseSpending := (annualSpending params * inflationMult * spendingMult)%Q in
    let givingMult : Q :=
      if (70 <=? age)%Z then (3 # 10)%Q
      else if (55 <=? age)%Z then (7 # 10)%Q
      else 1%Q in
    let giving := (annualGiving params * inflationMult * givingMult)%Q in
    let income : Q := 0%Q in
    let income :=
      if (age <? sideIncomeEndAge params)%Z
      then (income + sideIncome params * inflationMult)%Q else income in
    let income :=
      if (ssStartAge params <=? age)%Z
      then (income + ssIncome params * (1 - ssHaircut params) * inflationMult)%Q
      else income in
    let netWithdrawal := JS.Math_max 0%Q (baseSpending + giving - income)%Q in
    let growth := (portfolio * postReturnRate params)%Q in
    let portfolio := (portfolio + growth - netWithdrawal)%Q in
    (portfolio,
     {| age := age; portfolio := JS.Math_round portfolio;
        phase := if (age <? 55)%Z then "Active"
                 else if (age <? 70)%Z then "Settling"
                 else if (age <? 80)%Z then "Late"
                 else "Healthcare";
        spending := JS.Math_round baseSpending; giving := JS.Math_round giving;
        income := inject_Z (JS.Math_round income);
        withdrawal := Some (JS.Math_round netWithdrawal) |}).

(** The loop [for (let age = currentAge; age <= lifeExpectancy; age++)]
    over the ages that are left; the state is [portfolio] and [data]. *)
Fixpoint projection_loop (params : Params) (ages : list Z) (portfolio : Q)
    (data : list Row) : list Row :=
  match ages with
  | [] => data
  | age :: rest =>
      let '(portfolio', row) := projection_year params age portfolio in
      projection_loop params rest portfolio' (data ++ [row])
  end.

Definition calculateProjection (params : Params) : list Row :=
  projection_loop params
    (seqZ (currentAge params) (lifeExpectancy params - currentAge params + 1))
    (currentPortfolio params) [].

End Fire.

(** ** Notions the properties are stated with *)

(** The pixel [(i, j)] lies in the rectangle with origin [(x, y)] and size
    [w] x [h]. *)
Definition in_rect (x y w h i j : Z) : Prop :=
  (x <= i < x + w)%Z /\ (y <= j < y + h)%Z.

(** Where a style may change pixels for a region: the rounded box for
    pixelation; for the gaussian style the rounded box grown by the 10px
    margin of the clip ellipse on every side. *)
Definition footprint (blurType : BlurType) (box : Box) (i j : Z) : Prop :=
  let '(x, y, w, h) := rounded_box box in
  match blurType with
  | pixel => in_rect x y w h i j
  | gaussian => in_rect (x - 10) (y - 10) (w + 20) (h + 20) i j
  end.




Definition sumZ (l : list Z) : Z := foldr Z.add 0%Z l.





(** [m] is the quotient of [sum] by [count] rounded to the nearest
    integer, a half upwards: [m - 1/2 <= sum / count < m + 1/2]. *)
Definition nearest_mean (m sum : Z) (count : nat) : Prop :=
  ((2 * m - 1) * Z.of_nat count <= 2 * sum < (2 * m + 1) * Z.of_nat count)%Z.

(** The entry a file contributes to the batch, if its [try] block
    completes. *)
Definition entry_of (r : Result Image.t) : option Image.t :=
  match r with
  | Ok entry => Some entry
  | Throw _ => None
  end.

(** The entries of the files of a batch whose processing completes, in
    submission order; [i0] is the index of the first file. *)
Definition completed_entries (w : World) (loaded : bool) (i0 : nat)
    (files : list File) : list Image.t :=
  omap entry_of (imap (fun i file => process_file w loaded (i0 + i) file) files).

(** The member ids of a list of clusters, cluster after cluster. *)
Definition member_ids (ps : list Person.t) : list string :=
  ps ≫= Person.faceIds.

(** How many faces of a list are flagged child. *)
Definition child_count (fs : list Face.t) : nat :=
  length (filter (fun f => Face.isChild f = true) fs).

(** A cluster made by the loop from faces of the input: a non-empty list
    of input faces, packed by [make_person]. *)
Definition cluster_of (now : nat -> Z) (faces : list Face.t) (p : Person.t) : Prop :=
  exists index personFaces,
    p = make_person (now index) index personFaces /\
    personFaces <> [] /\
    forall f, f ∈ personFaces -> f ∈ faces.

(** The invariant of the outer loop of the clustering: the clusters made
    so far hold pairwise different ids, exactly the assigned ones, and are
    made of faces of the input. *)
Definition outer_inv (now : nat -> Z) (faces : list Face.t) (persons : list Person.t)
    (assigned : gset string) : Prop :=
  NoDup (member_ids persons) /\
  (forall id, id ∈ member_ids persons <-> id ∈ assigned) /\
  Forall (cluster_of now faces) persons.

(** ** Notions for the pixel loops *)

(** The index of channel [ch] of the pixel at column [col] and row [row]
    of an [ImageData] of the given width. *)
Definition data_index (width col row ch : nat) : nat :=
  (row * width + col) * 4 + ch.












(** ** Notions for clusters and selection *)

(** The id of the cluster pushed at position [index] when the clock
    reads [now index] at that push. *)
Definition person_id (now : nat -> Z) (index : nat) : string :=
  "person-" +:+ pretty (now index) +:+ "-" +:+ pretty index.

(** The member lists the outer loop of the clustering produces, cluster
    after cluster, without the records built from them. *)
Fixpoint cluster_groups (threshold : Q) (faces todo : list Face.t)
    (assigned : gset string) : list (list Face.t) :=
  match todo with
  | [] => []
  | face :: rest =>
      if decide (Face.id face ∈ assigned)
      then cluster_groups threshold faces rest assigned
      else
        let '(personFaces, assigned') :=
          cluster_inner threshold face faces [face] ({[Face.id face]} ∪ assigned) in
        personFaces :: cluster_groups threshold faces rest assigned'
  end.

(** A face whose selection flag is recomputed from its id and its
    current flag; everything else is kept. *)
Definition reselect (h : string -> bool -> bool) (f : Face.t) : Face.t :=
  Face.with_selected f (h (Face.id f) (Face.selected f)).

(** The descriptor of one face is strictly within the threshold of
    another's. *)
Definition close_to (threshold : Q) (seed f : Face.t) : bool :=
  distance_lt (faceDistance (Face.descriptor seed) (Face.descriptor f)) threshold.

(** ** Notions for the state *)

(** The selection, if any, names an image of the working set. *)
Definition selection_valid (st : AppState) : Prop :=
  match selectedImageId st with
  | Some sid => sid ∈ Image.id <$> images st
  | None => True
  end.



(** A whole drag session: pointer-down on a region, the pointer moves
    of the window listener, pointer-up. *)
Definition drag_session (st : AppState) (e0 : MouseEvent) (regionType : RegionType)
    (regionId : string) (action : Action) (moves : list MouseEvent) : AppState :=
  let st1 := handleRegionMouseDown st e0 regionType regionId action in
  let st2 := foldl onWindowMouseMove st1 moves in
  handleGlobalMouseUp (selectedImage st) st2.

(** ** Notions for the projection *)

(** The rows the loop pushes for a list of ages, from a given
    portfolio. *)
Fixpoint rows_from (params : Fire.Params) (ages : list Z) (portfolio : Q)
  : list Fire.Row :=
  match ages with
  | [] => []
  | age :: rest =>
      (Fire.projection_year params age portfolio).2
      :: rows_from params rest (Fire.projection_year params age portfolio).1
  end.

(** The portfolio the loop holds after a list of ages. *)
Definition portfolio_after (params : Fire.Params) (ages : list Z) (portfolio : Q) : Q :=
  foldl (fun portfolio age => (Fire.projection_year params age portfolio).1) portfolio ages.

(** ** Sample data *)

Module Sample.

(** A 100 x 100 image shown at its natural size. *)
Definition rect : DOMRect :=
  {| rect_left := 0; rect_top := 0; rect_width := 100; rect_height := 100 |}.

(** The same image shown at 60 x 60. *)
Definition rect60 : DOMRect :=
  {| rect_left := 0; rect_top := 0; rect_width := 60; rect_height := 60 |}.

Definition pointer (px py : Q) : MouseEvent :=
  {| clientX := px; clientY := py; target_is_canvas := true |}.

(** A clock that reads [t] throughout a call, and one that advances by
    a millisecond from one reading to the next. *)
Definition still (t : Z) : nat -> Z := fun _ => t.
Definition ticking (t : Z) : nat -> Z := fun k => (t + Z.of_nat k)%Z.

Definition drag_of (a : Action) (b : Box) : Drag :=
  {| drag_type := face_region; drag_id := "face-1730000000000-0";
     action := a; offset := {| pt_x := 0; pt_y := 0 |};
     initialBox := b; currentBox := b; imgWidth := 100; imgHeight := 100 |}.

(** A 40 x 40 box, an oversized box and a small detected face. *)
Definition box40 : Box := mkBox 10 10 40 40.
Definition box20 : Box := mkBox 10 10 20 20.


End Sample.

Module SampleDetection.

(** A toddler and an adult, as the engine may report them. *)
Definition child : Detection.t :=
  Detection.mk (mkBox 10 10 40 40) (7 # 2) "female" (9 # 10) [1 # 10; 2 # 10]%Q.

Definition adult : Detection.t :=
  Detection.mk (mkBox 60 10 30 30) (349 # 10) "male" (8 # 10) [9 # 10; 7 # 10]%Q.

Definition engine (c : Canvas) : Result (list Detection.t) := Ok [child; adult].

Definition blank : Canvas := mkCanvas 100 100 (fun _ _ => mkRGBA 255 255 255 255).

End SampleDetection.

Module SampleState.

Definition photo : Img := mkImg 100 100 (fun _ _ => mkRGBA 255 255 255 255).

Definition entry : Image.t :=
  {| Image.id := "img-1730000000000-0"; Image.file := mkFile "choir.jpg";
     Image.img := photo; Image.faces := []; Image.manualRegions := [];
     Image.processed := None |}.

(** One image, selected and shown at its natural size, nothing in
    progress. *)
Definition idle : AppState :=
  {| images := [entry]; selectedImageId := Some "img-1730000000000-0";
     blurType := gaussian; isProcessing := false; processingStatus := "";
     isDrawing := false; drawStart := None; currentRect := None;
     draggingRef := None; canvasRef := Some Sample.rect;
     modelsLoaded := true |}.

(** The state after a pointer-down on the canvas at [(px, py)]. *)
Definition drawing_from (px py : Q) : AppState :=
  handleCanvasMouseDown JS.binary64 idle (Sample.pointer px py).

(** The same image shown 60px wide and high: a client pixel is one and
    two thirds of an image pixel. *)
Definition shrunk : AppState :=
  {| images := [entry]; selectedImageId := Some "img-1730000000000-0";
     blurType := gaussian; isProcessing := false; processingStatus := "";
     isDrawing := false; drawStart := None; currentRect := None;
     draggingRef := None; canvasRef := Some Sample.rect60;
     modelsLoaded := true |}.

End SampleState.

Module SampleBatch.

(** Two files; the first decodes to a 1 x 1 image on which detection
    fails, the second to a 2 x 2 image with no face. *)
Definition first : File := mkFile "a.jpg".
Definition second : File := mkFile "b.jpg".

Definition world : World :=
  {| loadImage := fun f =>
       if String.eqb (file_name f) "a.jpg"
       then Ok (mkImg 1 1 (fun _ _ => mkRGBA 0 0 0 255))
       else Ok (mkImg 2 2 (fun _ _ => mkRGBA 0 0 0 255));
     resample := fun img _ _ => img_pixel img;
     detectAllFaces := fun c =>
       if (cv_width c =? 1)%Z then Throw "detection failed" else Ok [];
     Date_now := fun i _ => (1730000000000 + Z.of_nat i)%Z |}.

(** A world in which every file decodes to a white 100 x 100 photo with
    a toddler and an adult on it; the clock advances by a millisecond
    from reading to reading and by ten from file to file. *)
Definition album : World :=
  {| loadImage := fun _ => Ok (mkImg 100 100 (fun _ _ => mkRGBA 255 255 255 255));
     resample := fun img _ _ => img_pixel img;
     detectAllFaces := SampleDetection.engine;
     Date_now := fun i k => (1730000000000 + 10 * Z.of_nat i + Z.of_nat k)%Z |}.

(** The same world with a clock that does not advance. *)
Definition rushed : World :=
  {| loadImage := loadImage album; resample := resample album;
     detectAllFaces := detectAllFaces album;
     Date_now := fun _ _ => 1730000000000%Z |}.

(** The tool with its models loaded and no image yet. *)
Definition empty : AppState :=
  {| images := []; selectedImageId := None;
     blurType := gaussian; isProcessing := false; processingStatus := "";
     isDrawing := false; drawStart := None; currentRect := None;
     draggingRef := None; canvasRef := None; modelsLoaded := true |}.

End SampleBatch.

Module SampleFaces.

Definition face (id : string) (age : Z) (child sel : bool) (d : list Q) : Face.t :=
  {| Face.id := id; Face.box := mkBox 10 10 40 40; Face.age := age;
     Face.gender := "female"; Face.genderProbability := 9 # 10;
     Face.isChild := child; Face.selected := sel;
     Face.descriptor := Some d; Face.imageId := Some "img-1730000000000-0";
     Face.imageName := Some "choir.jpg"; Face.thumbnail := None |}.

(** Two faces with near descriptors (one flagged child, one not) and a
    third far from both. *)
Definition a : Face.t := face "face-1-0" 12 true true [0; 0]%Q.
Definition b : Face.t := face "face-1-1" 19 false false [3 # 10; 0]%Q.
Definition c : Face.t := face "face-1-2" 40 false false [5; 5]%Q.

Definition all : list Face.t := [a; b; c].

Definition entry : Image.t :=
  {| Image.id := "img-1730000000000-0"; Image.file := mkFile "choir.jpg";
     Image.img := mkImg 100 100 (fun _ _ => mkRGBA 255 255 255 255);
     Image.faces := all; Image.manualRegions := []; Image.processed := None |}.

Definition clusters : list Person.t :=
  clusterFacesByPerson (Sample.still 1730000000002) all default_threshold.

End SampleFaces.

Module SamplePixels.

(** A 26 x 2 canvas: the first 24 columns dark red, the last two bright,
    green growing with the row. *)
Definition strip : Canvas :=
  mkCanvas 26 2
    (fun i j => mkRGBA (if (i <? 24)%Z then 10 else 200)
                       (if (j <? 1)%Z then 0 else 100) 0 255).

Definition whole : Box := mkBox 0 0 26 2.

(** A region that covers the first two columns only. *)
Definition corner : Box := mkBox 0 0 2 2.

(** A region whose box ends exactly at the left edge of column 10. *)
Definition half : Box := mkBox (1 # 2) 0 (19 # 2) 2.


Definition face_at (box : Box) (sel : bool) : Region :=
  ManualRegion (Manual.mk "manual-1730000000001" box sel true).

(** A renderer that paints white wherever it is allowed to draw. *)
Definition white : Renderer := fun _ _ _ _ _ => mkRGBA 255 255 255 255.

End SamplePixels.

Module SampleDrag.

(** The image with the three sample faces, selected and shown at its
    natural size, nothing in progress. *)
Definition ready : AppState :=
  {| images := [SampleFaces.entry]; selectedImageId := Some "img-1730000000000-0";
     blurType := pixel; isProcessing := false; processingStatus := "";
     isDrawing := false; drawStart := None; currentRect := None;
     draggingRef := None; canvasRef := Some Sample.rect;
     modelsLoaded := true |}.

End SampleDrag.

Module SampleProcess.

(** The strip as a decoded image, with a list of manual regions, ready
    to be processed in the pixel style. *)
Definition source : Img := mkImg 26 2 (cv_pixel SamplePixels.strip).

Definition entry (regions : list Manual.t) : Image.t :=
  {| Image.id := "img-1730000000000-0"; Image.file := mkFile "strip.png";
     Image.img := source; Image.faces := []; Image.manualRegions := regions;
     Image.processed := None |}.

Definition state (regions : list Manual.t) : AppState :=
  {| images := [entry regions]; selectedImageId := Some "img-1730000000000-0";
     blurType := pixel; isProcessing := false; processingStatus := "";
     isDrawing := false; drawStart := None; currentRect := None;
     draggingRef := None; canvasRef := Some Sample.rect;
     modelsLoaded := true |}.

(** A region over the first two columns and a region a quarter of a
    pixel wide. *)
Definition wide : Manual.t :=
  Manual.mk "manual-1730000000002" SamplePixels.corner true true.

Definition thin : Manual.t :=
  Manual.mk "manual-1730000000003" (mkBox 0 0 (1 # 4) 2) true true.

(** An encoder that answers with the header of a data URL only. *)
Definition encoder (c : Canvas) : string := "data:image/jpeg;base64,".

End SampleProcess.

Module SampleFire.

(** A late starter who retires at once on a small portfolio, and a
    saver ten years from retirement, both projected over five years; the
    rates are the defaults of the calculator. *)
Definition retiree : Fire.Params :=
  {| Fire.currentAge := 60; Fire.currentPortfolio := 100000;
     Fire.annualSavings := 0; Fire.preReturnRate := 7 # 100;
     Fire.retirementAge := 60; Fire.postReturnRate := 5 # 100;
     Fire.annualSpending := 70000; Fire.annualGiving := 15000;
     Fire.sideIncome := 10000; Fire.sideIncomeEndAge := 55;
     Fire.ssIncome := 25000; Fire.ssHaircut := 25 # 100; Fire.ssStartAge := 67;
     Fire.inflationRate := 25 # 1000; Fire.lifeExpectancy := 65;
     Fire.spendingSmile := true |}.

Definition saver : Fire.Params :=
  {| Fire.currentAge := 35; Fire.currentPortfolio := 500000;
     Fire.annualSavings := 25000; Fire.preReturnRate := 7 # 100;
     Fire.retirementAge := 45; Fire.postReturnRate := 5 # 100;
     Fire.annualSpending := 70000; Fire.annualGiving := 15000;
     Fire.sideIncome := 10000; Fire.sideIncomeEndAge := 55;
     Fire.ssIncome := 25000; Fire.ssHaircut := 25 # 100; Fire.ssStartAge := 67;
     Fire.inflationRate := 25 # 1000; Fire.lifeExpectancy := 40;
     Fire.spendingSmile := true |}.

End SampleFire.

(** * Properties *)

(** ** Drag sessions *)

Section DragProperties.
Local Open Scope Q_scope.


Lemma move_box_origin_nonneg box coords off W H :
  0 <= box_x (move_box box coords off W H) /\
  0 <= box_y (move_box box coords off W H).
Proof. split; cbn; qminmax. Qed.










(** The south-east handle of a 20 x 20 face box with the pointer inside
    the box: both sizes grow to the minimum. *)
Example resize_sample :
  exists drag',
    handleGlobalMouseMove (Some (Sample.drag_of (resize "se") Sample.box20))
      (Some Sample.rect) (Sample.pointer 15 15) = Some drag' /\
    box_x (currentBox drag') == 10 /\ box_y (currentBox drag') == 10 /\
    box_width (currentBox drag') == 30 /\ box_height (currentBox drag') == 30.
Proof. eexists. split; [reflexivity |]. repeat split. Qed.


End DragProperties.

(** ** Detection adapter *)

Lemma imap_lookup_Some {A B} (f : nat -> A -> B) (l : list A) k a :
  l !! k = Some a -> imap f l !! k = Some (f k a).
Proof. intros H. rewrite list_lookup_imap, H. reflexivity. Qed.

(** C10: once the models are loaded and the engine answers, [detectFaces]
    returns one face record per detection, in order; its age is the
    rounded estimate, its child flag is [age < 18], and its initial
    selection flag equals its child flag. *)
Theorem detectFaces_child_preselected
    (engine : Canvas -> Result (list Detection.t)) (now : nat -> Z)
    (imageElement : Canvas) (detections : list Detection.t) :
  engine imageElement = Ok detections ->
  exists faces,
    detectFaces true engine now imageElement = Ok faces /\
    length faces = length detections /\
    (forall k d, detections !! k = Some d ->
       exists f, faces !! k = Some f /\
         Face.age f = JS.Math_round (Detection.age d) /\
         Face.isChild f = (Face.age f <? 18)%Z /\
         Face.selected f = Face.isChild f) /\
    (forall f, f ∈ faces ->
       Face.isChild f = (Face.age f <? 18)%Z /\ Face.selected f = Face.isChild f).
Proof.
  intros Heng. unfold detectFaces. cbn [negb].
  rewrite Heng. cbn. eexists. split; [reflexivity |]. split; [| split].
  - apply length_imap.
  - intros k d Hk. eexists. split.
    + apply imap_lookup_Some. exact Hk.
    + cbn. repeat split.
  - intros f Hf. apply list_elem_of_lookup in Hf as (k & Hk).
    rewrite list_lookup_imap in Hk.
    destruct (detections !! k) as [d |]; [| discriminate].
    cbn in Hk. injection Hk as <-. cbn. split; reflexivity.
Qed.

Lemma detectFaces_child_preselected_witness :
  exists faces,
    detectFaces true SampleDetection.engine (Sample.still 1730000000000)
      SampleDetection.blank
      = Ok faces /\
    length faces = 2 /\
    (forall k d, [SampleDetection.child; SampleDetection.adult] !! k = Some d ->
       exists f, faces !! k = Some f /\
         Face.age f = JS.Math_round (Detection.age d) /\
         Face.isChild f = (Face.age f <? 18)%Z /\
         Face.selected f = Face.isChild f) /\
    (forall f, f ∈ faces ->
       Face.isChild f = (Face.age f <? 18)%Z /\ Face.selected f = Face.isChild f).
Proof.
  apply (detectFaces_child_preselected SampleDetection.engine (Sample.still 1730000000000)
           SampleDetection.blank [SampleDetection.child; SampleDetection.adult]).
  reflexivity.
Defined.

(** The toddler (estimate 3.5, rounded to 4) starts selected, the adult
    (34.9, rounded to 35) does not. *)
Example detectFaces_sample :
  match detectFaces true SampleDetection.engine (Sample.still 1730000000000)
          SampleDetection.blank with
  | Ok fs => (fun f => (Face.id f, Face.age f, Face.isChild f, Face.selected f)) <$> fs
  | Throw _ => []
  end
  = [("face-1730000000000-0", 4%Z, true, true);
     ("face-1730000000000-1", 35%Z, false, false)].
Proof. vm_compute. reflexivity. Qed.

(** ** Drawing sessions *)

Section DrawProperties.
Local Open Scope Q_scope.

Lemma lt_true_iff a b : JS.lt a b = true <-> a < b.
Proof.
  unfold JS.lt. rewrite negb_true_iff, <- not_true_iff_false, Qle_bool_iff.
  split; [apply Qnot_le_lt | apply Qlt_not_le].
Qed.

Lemma lt_false_iff a b : JS.lt a b = false <-> b <= a.
Proof.
  unfold JS.lt. rewrite negb_false_iff, Qle_bool_iff. reflexivity.
Qed.





(** Without rounding the helper computes the point the drag handlers
    compute inline. *)
Lemma getCanvasCoordinates_exact (e : MouseEvent) (rect : DOMRect) (img : Img) :
  getCanvasCoordinates JS.exact e rect img
  = pointer_coords e rect (inject_Z (img_width img)) (inject_Z (img_height img)).
Proof. reflexivity. Qed.



(** A backwards drag from (10,10) to (5,5): the candidate is
    [{x: 5, y: 5, width: 5, height: 5}] and the pointer-up discards it. *)
Example backwards_drag_discarded :
  let st1 :=
    handleCanvasMouseMove JS.binary64 (SampleState.drawing_from 10 10) (Sample.pointer 5 5) in
  let st2 := handleCanvasMouseUp 1730000000001 st1 in
  (exists r, currentRect st1 = Some r /\
             box_x r == 5 /\ box_y r == 5 /\ box_width r == 5 /\ box_height r == 5) /\
  images st2 = images SampleState.idle /\
  isDrawing st2 = false.
Proof.
  cbv zeta. split; [| split; vm_compute; reflexivity].
  eexists. split; [vm_compute; reflexivity |]. vm_compute. repeat split.
Qed.

(** A drag from (10,10) to (50,60) commits one selected 40 x 50 region. *)
Example forward_drag_committed :
  let st1 :=
    handleCanvasMouseMove JS.binary64 (SampleState.drawing_from 10 10) (Sample.pointer 50 60) in
  let st2 := handleCanvasMouseUp 1730000000001 st1 in
  fmap (fun img => fmap (fun r => (Manual.id r, Manual.selected r)) (Image.manualRegions img))
       (images st2)
  = [[("manual-1730000000001", true)]].
Proof. vm_compute. reflexivity. Qed.

(** The rounding decides: on the image shown at 60px a drag from client
    x = 2 to x = 14 spans 20 image pixels; the doubles deliver a width
    of 20 + 2^-48 and the region is kept, where arithmetic without
    rounding would give 20 and keep nothing. *)
Example rounded_width_decides :
  let session (fl : JS.Rounding) : AppState :=
    handleCanvasMouseMove fl
      (handleCanvasMouseDown fl SampleState.shrunk (Sample.pointer 2 2))
      (Sample.pointer 14 50) in
  let regions (st : AppState) : list nat :=
    (fun img => length (Image.manualRegions img))
      <$> images (handleCanvasMouseUp 1730000000001 st) in
  (exists r, currentRect (session JS.binary64) = Some r /\
             box_width r == 20 + (1 # 281474976710656)) /\
  regions (session JS.binary64) = [1%nat] /\
  (exists r, currentRect (session JS.exact) = Some r /\ box_width r == 20) /\
  regions (session JS.exact) = [0%nat].
Proof.
  cbv zeta. split; [| split; [| split]].
  - eexists. split; [vm_compute; reflexivity |]. vm_compute. reflexivity.
  - vm_compute. reflexivity.
  - eexists. split; [vm_compute; reflexivity |]. vm_compute. reflexivity.
  - vm_compute. reflexivity.
Qed.

End DrawProperties.

(** ** File selection *)

Lemma files_loop_spec (w : World) (loaded : bool) (files : list File) :
  forall i newImages,
    files_loop w loaded i files newImages
    = newImages ++ completed_entries w loaded i files.
Proof.
  unfold completed_entries.
  induction files as [| file rest IH]; intros i newImages; cbn.
  - rewrite app_nil_r. reflexivity.
  - rewrite Nat.add_0_r.
    assert (Hshift : imap ((fun i1 file0 => process_file w loaded (i + i1) file0) ∘ S) rest
                     = imap (fun i1 file0 => process_file w loaded (S i + i1) file0) rest).
    { apply imap_ext. intros k f _. cbn. f_equal. lia. }
    rewrite Hshift.
    destruct (process_file w loaded i file) as [entry | msg]; cbn; rewrite IH.
    + rewrite <- app_assoc. reflexivity.
    + reflexivity.
Qed.

Lemma omap_length_le {A B} (f : A -> option B) (l : list A) :
  length (omap f l) <= length l.
Proof.
  induction l as [| a l IH]; cbn; [lia |].
  destruct (f a); cbn; lia.
Qed.

(** A failure of the detection engine on the canvas made from a decoded
    image makes the body of the [try] block throw. *)
Lemma process_file_detection_failure (w : World) (i : nat) (file : File) img msg :
  loadImage w file = Ok img ->
  detectAllFaces w (resizeForDetection (resample w) img).1 = Throw msg ->
  process_file w true i file = Throw msg.
Proof.
  intros Hload Hdet. unfold process_file. rewrite Hload. cbn [mbind Result_bind].
  destruct (resizeForDetection (resample w) img) as [canvas scale]. cbn [fst] in Hdet.
  unfold detectFaces. cbn [negb mbind Result_bind]. rewrite Hdet. reflexivity.
Qed.

(** An entry the loop adds carries the file it was made from and no
    manual region. *)
Lemma process_file_entry (w : World) (i : nat) (file : File) entry :
  process_file w true i file = Ok entry ->
  Image.file entry = file /\ Image.manualRegions entry = [] /\
  Image.processed entry = None.
Proof.
  unfold process_file.
  destruct (loadImage w file) as [img | msg]; cbn [mbind Result_bind]; [| discriminate].
  destruct (resizeForDetection (resample w) img) as [canvas scale].
  destruct (detectFaces true (detectAllFaces w) (Date_now w i) canvas);
    cbn [mbind Result_bind]; [| discriminate].
  intros [= <-]. repeat split.
Qed.

(** C1 (as amended): with the models loaded, a detection failure on one
    file of a batch does not stop the loop, and the file is skipped: the
    working set gains, in submission order, exactly the entries of the
    files whose loading and detection succeeded, each with its file and an
    empty list of manual regions, and nothing for a file on which the
    engine failed. *)
Theorem handleFilesSelected_skips_failures (w : World) (st : AppState)
    (files : list File) :
  modelsLoaded st = true ->
  let st' := handleFilesSelected w st files in
  images st' = images st ++ completed_entries w true 0 files /\
  (length (images st') <= length (images st) + length files)%nat /\
  (forall entry, entry ∈ completed_entries w true 0 files ->
     exists i, files !! i = Some (Image.file entry) /\
       process_file w true i (Image.file entry) = Ok entry /\
       Image.manualRegions entry = []) /\
  (forall i file img msg,
     files !! i = Some file ->
     loadImage w file = Ok img ->
     detectAllFaces w (resizeForDetection (resample w) img).1 = Throw msg ->
     process_file w true i file = Throw msg /\
     forall file' entry,
       files !! (S i) = Some file' ->
       process_file w true (S i) file' = Ok entry ->
       entry ∈ images st').
Proof.
  intros Hloaded st'.
  assert (Himages : images st' = images st ++ completed_entries w true 0 files).
  { subst st'. unfold handleFilesSelected. rewrite Hloaded. cbn.
    rewrite files_loop_spec. reflexivity. }
  assert (Hmem : forall entry i file,
             files !! i = Some file -> process_file w true i file = Ok entry ->
             entry ∈ completed_entries w true 0 files).
  { intros entry i file Hi Hok. unfold completed_entries.
    apply list_elem_of_omap. exists (Ok entry). split; [| reflexivity].
    apply list_elem_of_lookup. exists i.
    rewrite list_lookup_imap, Hi. cbn. rewrite Hok. reflexivity. }
  split; [exact Himages |]. split; [| split].
  - rewrite Himages, length_app. unfold completed_entries.
    pose proof (omap_length_le entry_of
      (imap (fun i file => process_file w true (0 + i) file) files)) as Hle.
    rewrite length_imap in Hle. lia.
  - intros entry Hin. unfold completed_entries in Hin.
    apply list_elem_of_omap in Hin as (r & Hr & Hentry).
    apply list_elem_of_lookup in Hr as (i & Hi).
    rewrite list_lookup_imap in Hi.
    destruct (files !! i) as [file |] eqn:Hfile; [| discriminate].
    cbn in Hi. injection Hi as <-.
    destruct (process_file w true i file) as [entry' | msg] eqn:Hp; [| discriminate].
    cbn in Hentry. injection Hentry as ->.
    destruct (process_file_entry w i file entry Hp) as (Hf & Hm & _).
    exists i. rewrite Hf. auto.
  - intros i file img msg Hi Hload Hdet. split.
    + apply process_file_detection_failure with img; assumption.
    + intros file' entry Hi' Hok. rewrite Himages.
      apply elem_of_app. right. apply Hmem with (S i) file'; assumption.
Qed.

Lemma handleFilesSelected_skips_failures_witness :
  let st' := handleFilesSelected SampleBatch.world SampleBatch.empty
               [SampleBatch.first; SampleBatch.second] in
  images st' = images SampleBatch.empty
                 ++ completed_entries SampleBatch.world true 0
                      [SampleBatch.first; SampleBatch.second] /\
  (length (images st') <= length (images SampleBatch.empty) + 2)%nat /\
  (forall entry,
     entry ∈ completed_entries SampleBatch.world true 0
               [SampleBatch.first; SampleBatch.second] ->
     exists i, [SampleBatch.first; SampleBatch.second] !! i = Some (Image.file entry) /\
       process_file SampleBatch.world true i (Image.file entry) = Ok entry /\
       Image.manualRegions entry = []) /\
  (forall i file img msg,
     [SampleBatch.first; SampleBatch.second] !! i = Some file ->
     loadImage SampleBatch.world file = Ok img ->
     detectAllFaces SampleBatch.world
       (resizeForDetection (resample SampleBatch.world) img).1 = Throw msg ->
     process_file SampleBatch.world true i file = Throw msg /\
     forall file' entry,
       [SampleBatch.first; SampleBatch.second] !! (S i) = Some file' ->
       process_file SampleBatch.world true (S i) file' = Ok entry ->
       entry ∈ images st').
Proof.
  apply (handleFilesSelected_skips_failures SampleBatch.world SampleBatch.empty
           [SampleBatch.first; SampleBatch.second]).
  reflexivity.
Defined.

(** Detection fails on the first of two files: the batch goes on to the
    second, and the working set holds one entry, not two; no entry was
    made for the first file. *)
Lemma failed_image_not_added :
  let st' := handleFilesSelected SampleBatch.world SampleBatch.empty
               [SampleBatch.first; SampleBatch.second] in
  (exists msg, process_file SampleBatch.world true 0 SampleBatch.first = Throw msg) /\
  (fun img => (Image.id img, file_name (Image.file img), length (Image.faces img)))
    <$> images st' = [("img-1730000000001-1", "b.jpg", 0%nat)] /\
  length (images st') <> 2%nat /\
  ~ exists entry, entry ∈ images st' /\ Image.file entry = SampleBatch.first.
Proof.
  cbv zeta. split; [eexists; vm_compute; reflexivity |].
  assert (E : exists entry,
             images (handleFilesSelected SampleBatch.world SampleBatch.empty
                       [SampleBatch.first; SampleBatch.second]) = [entry] /\
             Image.id entry = "img-1730000000001-1" /\
             Image.file entry = SampleBatch.second /\ Image.faces entry = []).
  { eexists. split; [vm_compute; reflexivity |]. repeat split. }
  destruct E as (entry & -> & Hid & Hfile & Hfaces).
  split; [cbn; rewrite Hid, Hfile, Hfaces; reflexivity |].
  split; [cbn; lia |].
  intros (entry' & Hin & Hf). apply list_elem_of_singleton in Hin. subst entry'.
  rewrite Hfile in Hf. discriminate.
Qed.

(** ** Person selection *)

(** C8: toggling a person found by its id rewrites the images position
    by position; a face whose id is in the member list of that person
    gets the negation of the person's selection flag as its own (and is
    otherwise the same record), and every other face is the same record
    as before. *)
Theorem togglePersonSelection_members_only
    (persons : list Person.t) (imgs : list Image.t) (personId : string)
    (person : Person.t) :
  List.find (fun p => String.eqb (Person.id p) personId) persons = Some person ->
  let imgs' := togglePersonSelection persons imgs personId in
  length imgs' = length imgs /\
  forall i img, imgs !! i = Some img ->
    exists img',
      imgs' !! i = Some img' /\
      Image.id img' = Image.id img /\
      Image.manualRegions img' = Image.manualRegions img /\
      length (Image.faces img') = length (Image.faces img) /\
      forall k face, Image.faces img !! k = Some face ->
        exists face',
          Image.faces img' !! k = Some face' /\
          (Face.id face ∈ Person.faceIds person ->
             face' = Face.with_selected face (negb (Person.selected person)) /\
             Face.selected face' = negb (Person.selected person)) /\
          (Face.id face ∉ Person.faceIds person -> face' = face).
Proof.
  intros Hfind imgs'. subst imgs'. unfold togglePersonSelection. rewrite Hfind.
  split; [apply length_fmap |].
  intros i img Hi. eexists. split.
  - rewrite list_lookup_fmap, Hi. reflexivity.
  - cbn. split; [reflexivity |]. split; [reflexivity |].
    split; [apply length_fmap |].
    intros k face Hk. eexists. split.
    + rewrite list_lookup_fmap, Hk. reflexivity.
    + cbn. destruct (decide (Face.id face ∈ list_to_set (Person.faceIds person)))
        as [Hin | Hout].
      * apply elem_of_list_to_set in Hin. split; [auto | contradiction].
      * rewrite elem_of_list_to_set in Hout. split; [contradiction | auto].
Qed.

Lemma togglePersonSelection_members_only_witness :
  let person := make_person 1730000000002 0 [SampleFaces.a; SampleFaces.b] in
  let imgs' := togglePersonSelection SampleFaces.clusters [SampleFaces.entry]
                 "person-1730000000002-0" in
  length imgs' = 1%nat /\
  forall i img, [SampleFaces.entry] !! i = Some img ->
    exists img',
      imgs' !! i = Some img' /\
      Image.id img' = Image.id img /\
      Image.manualRegions img' = Image.manualRegions img /\
      length (Image.faces img') = length (Image.faces img) /\
      forall k face, Image.faces img !! k = Some face ->
        exists face',
          Image.faces img' !! k = Some face' /\
          (Face.id face ∈ Person.faceIds person ->
             face' = Face.with_selected face (negb (Person.selected person)) /\
             Face.selected face' = negb (Person.selected person)) /\
          (Face.id face ∉ Person.faceIds person -> face' = face).
Proof.
  apply (togglePersonSelection_members_only SampleFaces.clusters [SampleFaces.entry]
           "person-1730000000002-0"
           (make_person 1730000000002 0 [SampleFaces.a; SampleFaces.b])).
  vm_compute. reflexivity.
Defined.

(** The person made of the first two sample faces is selected (one member
    is); toggling it deselects both members and leaves the third face
    as it was. *)
Example toggle_sample :
  (fun img => (fun f => (Face.id f, Face.selected f)) <$> Image.faces img)
    <$> togglePersonSelection SampleFaces.clusters [SampleFaces.entry]
          "person-1730000000002-0"
  = [[("face-1-0", false); ("face-1-1", false); ("face-1-2", false)]].
Proof. vm_compute. reflexivity. Qed.

(** ** Person clustering *)

Section Clustering.
Variable now : nat -> Z.
Variable threshold : Q.

(** The inner scan appends faces of the list that were not assigned
    yet, each once, and records exactly their ids. *)
Lemma cluster_inner_spec (face : Face.t) (others : list Face.t) :
  forall personFaces assigned,
  exists added,
    cluster_inner threshold face others personFaces assigned
    = (personFaces ++ added, list_to_set (Face.id <$> added) ∪ assigned) /\
    NoDup (Face.id <$> added) /\
    forall f, f ∈ added -> f ∈ others /\ Face.id f ∉ assigned.
Proof.
  induction others as [| o rest IH]; intros personFaces assigned; cbn.
  - exists []. rewrite app_nil_r. split; [f_equal; set_solver |].
    split; [constructor |]. intros f Hf. inversion Hf.
  - destruct (decide (Face.id o ∈ assigned)) as [Hin | Hout].
    + destruct (IH personFaces assigned) as (added & -> & Hnd & Hadd).
      exists added. split; [reflexivity |]. split; [exact Hnd |].
      intros f Hf. destruct (Hadd f Hf). split; [right |]; assumption.
    + destruct (distance_lt _ threshold).
      * destruct (IH (personFaces ++ [o]) ({[Face.id o]} ∪ assigned))
          as (added & -> & Hnd & Hadd).
        exists (o :: added). split; [| split].
        -- rewrite <- app_assoc. cbn. f_equal. set_solver.
        -- cbn. apply NoDup_cons. split; [| exact Hnd].
           intros Ho. apply list_elem_of_fmap in Ho as (f & Hid & Hf).
           destruct (Hadd f Hf) as [_ Hn]. apply Hn. rewrite Hid. set_solver.
        -- intros f Hf. apply elem_of_cons in Hf as [-> | Hf].
           ++ split; [left | exact Hout].
           ++ destruct (Hadd f Hf) as [Hr Hn]. split; [right; exact Hr |].
              set_solver.
      * destruct (IH personFaces assigned) as (added & -> & Hnd & Hadd).
        exists added. split; [reflexivity |]. split; [exact Hnd |].
        intros f Hf. destruct (Hadd f Hf). split; [right |]; assumption.
Qed.

Lemma member_ids_snoc ps p : member_ids (ps ++ [p]) = member_ids ps ++ Person.faceIds p.
Proof.
  unfold member_ids. rewrite bind_app. cbn. rewrite app_nil_r. reflexivity.
Qed.

(** The outer loop keeps its invariant, and every face it has passed is
    a member of a cluster. *)
Lemma cluster_outer_spec (faces : list Face.t) (todo : list Face.t) :
  forall persons assigned,
    outer_inv now faces persons assigned ->
    (forall f, f ∈ todo -> f ∈ faces) ->
    let ps := cluster_outer now threshold faces todo persons assigned in
    NoDup (member_ids ps) /\
    Forall (cluster_of now faces) ps /\
    (forall id, id ∈ assigned -> id ∈ member_ids ps) /\
    (forall f, f ∈ todo -> Face.id f ∈ member_ids ps).
Proof.
  induction todo as [| face rest IH]; intros persons assigned Hinv Htodo; cbn.
  - destruct Hinv as (Hnd & Hids & Hcl).
    split; [exact Hnd |]. split; [exact Hcl |].
    split; [intros id; apply Hids |]. intros f Hf. inversion Hf.
  - assert (Hrest : forall f, f ∈ rest -> f ∈ faces)
      by (intros f Hf; apply Htodo; right; exact Hf).
    destruct (decide (Face.id face ∈ assigned)) as [Hin | Hout].
    + destruct (IH persons assigned Hinv Hrest) as (Hnd & Hcl & Hsub & Hcov).
      split; [exact Hnd |]. split; [exact Hcl |]. split; [exact Hsub |].
      intros f Hf. apply elem_of_cons in Hf as [-> | Hf]; auto.
    + destruct (cluster_inner_spec face faces [face] ({[Face.id face]} ∪ assigned))
        as (added & -> & Hndadd & Hadd).
      set (personFaces := [face] ++ added).
      set (assigned' := list_to_set (Face.id <$> added) ∪ ({[Face.id face]} ∪ assigned)).
      set (p := make_person (now (length persons)) (length persons) personFaces).
      destruct Hinv as (Hnd & Hids & Hcl).
      assert (Hp : Person.faceIds p = Face.id face :: (Face.id <$> added))
        by reflexivity.
      assert (Hinv' : outer_inv now faces (persons ++ [p]) assigned').
      { unfold outer_inv. rewrite member_ids_snoc, Hp. split; [| split].
        - apply NoDup_app. split; [exact Hnd |]. split.
          + intros id Hid Hnew. apply Hids in Hid.
            apply elem_of_cons in Hnew as [-> | Hnew]; [contradiction |].
            apply list_elem_of_fmap in Hnew as (f & -> & Hf).
            destruct (Hadd f Hf) as [_ Hn]. set_solver.
          + apply NoDup_cons. split; [| exact Hndadd].
            intros Hf. apply list_elem_of_fmap in Hf as (f & Hid & Hf).
            destruct (Hadd f Hf) as [_ Hn]. rewrite Hid in Hn. set_solver.
        - intros id. rewrite elem_of_app, elem_of_cons, Hids.
          subst assigned'. rewrite !elem_of_union, elem_of_list_to_set,
            elem_of_singleton. tauto.
        - apply Forall_app. split; [exact Hcl |]. apply Forall_singleton.
          exists (length persons), personFaces. split; [reflexivity |].
          split; [discriminate |].
          intros f Hf. subst personFaces. cbn in Hf.
          apply elem_of_cons in Hf as [-> | Hf].
          + apply Htodo. left.
          + apply Hadd, Hf. }
      destruct (IH (persons ++ [p]) assigned' Hinv' Hrest)
        as (Hnd' & Hcl' & Hsub' & Hcov').
      split; [exact Hnd' |]. split; [exact Hcl' |]. split.
      * intros id Hid. apply Hsub'. subst assigned'. set_solver.
      * intros f Hf. apply elem_of_cons in Hf as [-> | Hf]; [| auto].
        apply Hsub'. subst assigned'. set_solver.
Qed.

(** What holds of the clusters of any input. *)
Lemma clusterFacesByPerson_spec (faces : list Face.t) :
  let ps := clusterFacesByPerson now faces threshold in
  NoDup (member_ids ps) /\
  Forall (cluster_of now faces) ps /\
  (forall f, f ∈ faces -> Face.id f ∈ member_ids ps).
Proof.
  unfold clusterFacesByPerson. destruct faces as [| f0 faces'].
  - cbn. split; [constructor |]. split; [constructor |].
    intros f Hf. inversion Hf.
  - set (faces := f0 :: faces').
    destruct (cluster_outer_spec faces faces [] ∅) as (Hnd & Hcl & _ & Hcov).
    + split; [constructor |]. split; [| constructor].
      intros id. cbn. split; intros H; [inversion H | set_solver].
    + auto.
    + auto.
Qed.




(** Clusters are never empty. *)
Lemma cluster_of_nonempty (faces : list Face.t) (p : Person.t) :
  cluster_of now faces p -> 1 <= length (Person.faceIds p).
Proof.
  intros (index & personFaces & -> & Hne & _). cbn.
  destruct personFaces; [contradiction | cbn; lia].
Qed.

Lemma cluster_of_members (faces : list Face.t) (p : Person.t) id :
  cluster_of now faces p -> id ∈ Person.faceIds p -> id ∈ Face.id <$> faces.
Proof.
  intros (index & personFaces & -> & _ & Hsub). cbn. intros Hid.
  apply list_elem_of_fmap in Hid as (f & -> & Hf).
  apply list_elem_of_fmap. exists f. split; [reflexivity | apply Hsub, Hf].
Qed.

Lemma member_ids_length (ps : list Person.t) :
  length (member_ids ps) = sum_list ((fun p => length (Person.faceIds p)) <$> ps).
Proof.
  unfold member_ids. induction ps as [| p ps IH]; [reflexivity |].
  rewrite bind_cons, length_app, IH. reflexivity.
Qed.

(** An id sits in the member list of one position only when the member
    lists, one after the other, hold no duplicate. *)
Lemma member_ids_unique (ps : list Person.t) :
  NoDup (member_ids ps) ->
  forall i j p q id,
    ps !! i = Some p -> ps !! j = Some q ->
    id ∈ Person.faceIds p -> id ∈ Person.faceIds q -> i = j.
Proof.
  unfold member_ids. induction ps as [| a ps IH]; intros Hnd i j p q id Hi Hj Hp Hq.
  - discriminate.
  - rewrite bind_cons in Hnd. apply NoDup_app in Hnd as (Ha & Hdisj & Hrest).
    destruct i as [| i], j as [| j]; cbn in Hi, Hj.
    + reflexivity.
    + injection Hi as ->. exfalso. apply (Hdisj id Hp).
      apply list_elem_of_bind. exists q. split; [exact Hq |].
      apply list_elem_of_lookup. eauto.
    + injection Hj as ->. exfalso. apply (Hdisj id Hq).
      apply list_elem_of_bind. exists p. split; [exact Hp |].
      apply list_elem_of_lookup. eauto.
    + f_equal. apply (IH Hrest i j p q id); assumption.
Qed.

Lemma member_ids_NoDup_each (ps : list Person.t) (p : Person.t) :
  NoDup (member_ids ps) -> p ∈ ps -> NoDup (Person.faceIds p).
Proof.
  unfold member_ids. induction ps as [| a ps IH]; intros Hnd Hp.
  - inversion Hp.
  - rewrite bind_cons in Hnd. apply NoDup_app in Hnd as (Ha & _ & Hrest).
    apply elem_of_cons in Hp as [-> | Hp]; auto.
Qed.

(** C9: for faces with pairwise different ids the clusters partition the
    input: the member ids, cluster after cluster, are a rearrangement of
    the input ids; every input id is a member of a cluster and of no
    cluster at another position, and occurs once in it; every member id
    is an input id; every cluster has a member; the cluster sizes sum to
    the number of faces; and no face gives no cluster. *)
Theorem clusters_partition_input (faces : list Face.t) :
  NoDup (Face.id <$> faces) ->
  let ps := clusterFacesByPerson now faces threshold in
  member_ids ps ≡ₚ Face.id <$> faces /\
  (forall f, f ∈ faces -> exists p, p ∈ ps /\ Face.id f ∈ Person.faceIds p) /\
  (forall i j p q id,
     ps !! i = Some p -> ps !! j = Some q ->
     id ∈ Person.faceIds p -> id ∈ Person.faceIds q -> i = j) /\
  (forall p, p ∈ ps ->
     NoDup (Person.faceIds p) /\
     1 <= length (Person.faceIds p) /\
     forall id, id ∈ Person.faceIds p -> id ∈ Face.id <$> faces) /\
  sum_list ((fun p => length (Person.faceIds p)) <$> ps) = length faces /\
  clusterFacesByPerson now [] threshold = [].
Proof.
  intros Hids ps.
  destruct (clusterFacesByPerson_spec faces) as (Hnd & Hcl & Hcov).
  fold ps in Hnd, Hcl, Hcov. rewrite Forall_forall in Hcl.
  assert (Hperm : member_ids ps ≡ₚ Face.id <$> faces).
  { apply NoDup_Permutation; [exact Hnd | exact Hids |].
    intros id. split.
    - intros Hid. apply list_elem_of_bind in Hid as (p & Hid & Hp).
      apply cluster_of_members with p; auto.
    - intros Hid. apply list_elem_of_fmap in Hid as (f & -> & Hf). auto. }
  split; [exact Hperm |]. split; [| split; [| split; [| split]]].
  - intros f Hf. specialize (Hcov f Hf).
    apply list_elem_of_bind in Hcov as (p & Hid & Hp). eauto.
  - apply member_ids_unique, Hnd.
  - intros p Hp. split; [apply member_ids_NoDup_each with ps; assumption |].
    split; [apply cluster_of_nonempty with faces; auto |].
    intros id. apply cluster_of_members; auto.
  - rewrite <- member_ids_length, Hperm, length_fmap. reflexivity.
  - reflexivity.
Qed.

End Clustering.

(** The sample faces: the first two fall into one cluster, split evenly
    between child and adult, which is therefore not flagged child; the
    third is alone. *)
Example clusters_sample :
  (fun p => (Person.id p, Person.faceIds p, Person.isChild p, Person.avgAge p,
             Person.selected p)) <$> SampleFaces.clusters
  = [("person-1730000000002-0", ["face-1-0"; "face-1-1"], false, 16%Z, true);
     ("person-1730000000002-1", ["face-1-2"], false, 40%Z, false)].
Proof. vm_compute. reflexivity. Qed.


Lemma clusters_partition_input_witness :
  let ps := clusterFacesByPerson (Sample.still 1730000000002) SampleFaces.all default_threshold in
  member_ids ps ≡ₚ Face.id <$> SampleFaces.all /\
  (forall f, f ∈ SampleFaces.all -> exists p, p ∈ ps /\ Face.id f ∈ Person.faceIds p) /\
  (forall i j p q id,
     ps !! i = Some p -> ps !! j = Some q ->
     id ∈ Person.faceIds p -> id ∈ Person.faceIds q -> i = j) /\
  (forall p, p ∈ ps ->
     NoDup (Person.faceIds p) /\
     1 <= length (Person.faceIds p) /\
     forall id, id ∈ Person.faceIds p -> id ∈ Face.id <$> SampleFaces.all) /\
  sum_list ((fun p => length (Person.faceIds p)) <$> ps) = length SampleFaces.all /\
  clusterFacesByPerson (Sample.still 1730000000002) [] default_threshold = [].
Proof.
  apply (clusters_partition_input (Sample.still 1730000000002) default_threshold SampleFaces.all).
  cbn. repeat (apply NoDup_cons; split; [set_solver |]). apply NoDup_nil_2.
Defined.

(** ** Pixelation *)

(** *** Loops *)




Lemma sumZ_cons z l : sumZ (z :: l) = (z + sumZ l)%Z.
Proof. reflexivity. Qed.


Lemma sumZ_bounds {A} (f : A -> Z) (l : list A) (lo hi : Z) :
  (forall a, a ∈ l -> (lo <= f a <= hi)%Z) ->
  (lo * Z.of_nat (length l) <= sumZ (f <$> l) <= hi * Z.of_nat (length l))%Z.
Proof.
  induction l as [| a l IH]; intros H; [cbn; lia |].
  cbn [fmap list_fmap length]. rewrite sumZ_cons.
  assert (lo <= f a <= hi)%Z by (apply H; left).
  assert (lo * Z.of_nat (length l) <= sumZ (f <$> l) <= hi * Z.of_nat (length l))%Z
    by (apply IH; intros a' Ha'; apply H; right; exact Ha').
  lia.
Qed.

(** *** Index arithmetic *)

Lemma data_index_div width col row ch :
  ch < 4 -> data_index width col row ch / 4 = row * width + col.
Proof.
  intros Hch. unfold data_index.
  rewrite Nat.add_comm, Nat.div_add by lia.
  rewrite Nat.div_small by lia. reflexivity.
Qed.

Lemma data_index_mod width col row ch :
  ch < 4 -> data_index width col row ch mod 4 = ch.
Proof.
  intros Hch. unfold data_index.
  rewrite Nat.add_comm, Nat.Div0.mod_add. apply Nat.mod_small. exact Hch.
Qed.

Lemma data_index_lt width height col row ch :
  col < width -> row < height -> ch < 4 ->
  data_index width col row ch < 4 * (width * height).
Proof.
  unfold data_index. intros Hc Hr Hch.
  pose proof (Nat.mul_le_mono_r (S row) height width Hr) as Hle.
  lia.
Qed.


(** *** One block *)









(** *** All blocks *)










(** *** The canvas *)

Lemma getImageData_spec (c : Canvas) (sx sy sw sh : Z) :
  (0 < sw)%Z -> (0 < sh)%Z ->
  exists d,
    getImageData c sx sy sw sh = Ok d /\
    idata_width d = Z.to_nat sw /\ idata_height d = Z.to_nat sh /\
    length (data d) = 4 * (Z.to_nat sw * Z.to_nat sh) /\
    forall col row ch, col < Z.to_nat sw -> row < Z.to_nat sh -> ch < 4 ->
      data d !!! data_index (Z.to_nat sw) col row ch
      = channel (source_pixel c (sx + Z.of_nat col) (sy + Z.of_nat row)) ch.
Proof.
  intros Hw Hh. unfold getImageData.
  destruct (Z.eqb_spec sw 0) as [E | _]; [lia |].
  destruct (Z.eqb_spec sh 0) as [E | _]; [lia |].
  destruct (Z.ltb_spec sw 0) as [E | _]; [lia |].
  destruct (Z.ltb_spec sh 0) as [E | _]; [lia |].
  cbn [orb]. rewrite !Z.abs_eq by lia.
  eexists. split; [reflexivity |]. cbn [data idata_width idata_height].
  split; [reflexivity |]. split; [reflexivity |].
  split; [rewrite length_fmap, length_seq; reflexivity |].
  intros col row ch Hcol Hrow Hch.
  pose proof (data_index_lt _ _ _ _ _ Hcol Hrow Hch) as Hlt.
  rewrite (@list_lookup_total_fmap nat Z _ Nat.inhabited Z.inhabited)
    by (rewrite length_seq; exact Hlt).
  rewrite lookup_total_seq_lt by exact Hlt. cbn [Nat.add].
  rewrite data_index_div, data_index_mod by exact Hch.
  rewrite Nat.div_add_l, Nat.div_small, Nat.add_0_r by lia.
  rewrite Nat.add_comm, Nat.Div0.mod_add, Nat.mod_small by lia.
  reflexivity.
Qed.


(** On integers: the nearest integer to the quotient, halves upwards. *)
Lemma rounded_mean_formula (sum count : Z) :
  (0 < count)%Z -> rounded_mean sum count = ((2 * sum + count) / (2 * count))%Z.
Proof.
  intros Hc. destruct count as [| p | p]; try lia.
  unfold rounded_mean, JS.Math_round, Qdiv, Qinv, inject_Z, Qmult, Qplus, Qfloor.
  cbn [Qnum Qden]. rewrite Pos.mul_1_l. f_equal; lia.
Qed.












(** Only one integer is the nearest mean of a sum and a count. *)
Lemma nearest_mean_unique (m m' sum : Z) (count : nat) :
  nearest_mean m sum count -> nearest_mean m' sum count -> m = m'.
Proof. unfold nearest_mean. intros H H'. nia. Qed.






(** On the 26 x 2 strip the grid has a full 24-wide block and a 2-wide
    remainder; each takes the mean of its own pixels (green: the mean of
    0 and 100), and alpha is kept. *)
Example pixelation_sample :
  let out := (applyPixelation SamplePixels.strip SamplePixels.whole).1 in
  cv_pixel out 0 0 = mkRGBA 10 50 0 255 /\
  cv_pixel out 23 1 = mkRGBA 10 50 0 255 /\
  cv_pixel out 24 0 = mkRGBA 200 50 0 255 /\
  cv_pixel out 25 1 = mkRGBA 200 50 0 255.
Proof. vm_compute. repeat split. Qed.

(** ** Blur of the selected regions *)

Lemma Math_round_nonneg (q : Q) : (0 <= q)%Q -> (0 <= JS.Math_round q)%Z.
Proof.
  intros Hq. unfold JS.Math_round. change 0%Z with (Qfloor 0).
  apply Qfloor_resp_le. lra.
Qed.

Lemma applyPixelation_frame (c : Canvas) (box : Box) (x y w h i j : Z) :
  rounded_box box = (x, y, w, h) -> (0 <= w)%Z -> (0 <= h)%Z ->
  ~ in_rect x y w h i j ->
  cv_pixel (applyPixelation c box).1 i j = cv_pixel c i j.
Proof.
  intros Hbox Hw Hh Hout. unfold applyPixelation. rewrite Hbox.
  unfold getImageData.
  destruct ((w =? 0)%Z || (h =? 0)%Z); [reflexivity |].
  cbn [fst putImageData cv_pixel idata_width idata_height].
  rewrite !Z2Nat.id, !Z.abs_eq by lia.
  destruct (in_canvas c i j); [| reflexivity]. cbn [andb].
  destruct (Z.leb_spec x i), (Z.ltb_spec i (x + w)), (Z.leb_spec y j),
    (Z.ltb_spec j (y + h)); cbn [andb]; try reflexivity.
  exfalso. apply Hout. unfold in_rect. lia.
Qed.

Section Ellipse.
Local Open Scope Q_scope.

Lemma square_nonneg (b : Q) : 0 <= b * b.
Proof. nra. Qed.

Lemma square_mono (s t : Q) : 0 <= s -> s <= t -> s * s <= t * t.
Proof. intros. nra. Qed.

(** A point inside the ellipse is nearer to the centre than the radius,
    on the horizontal axis. *)
Lemma inside_ellipse_x (a b rx ry : Q) :
  0 <= rx -> 0 <= ry ->
  (a * ry) * (a * ry) + (b * rx) * (b * rx) < (rx * ry) * (rx * ry) ->
  - rx < a /\ a < rx.
Proof.
  intros Hrx Hry H.
  pose proof (square_nonneg (b * rx)) as Hb.
  assert (Hpos : 0 <= rx * ry) by nra.
  split; apply Qnot_le_lt; intros Hle.
  - assert (Hm : rx * ry <= (- a) * ry) by nra.
    pose proof (square_mono _ _ Hpos Hm) as Hs.
    assert (E : (- a * ry) * (- a * ry) == (a * ry) * (a * ry)) by ring.
    lra.
  - assert (Hm : rx * ry <= a * ry) by nra.
    pose proof (square_mono _ _ Hpos Hm) as Hs. lra.
Qed.

(** A pixel the clip covers lies in the bounding rectangle of the
    ellipse: the box grown by the margin of 10 on each side. *)
Lemma clip_covers_bounds (x w i : Z) (cy ry : Q) (j : Z) :
  let cx := inject_Z x + inject_Z w / 2 in
  let rx := inject_Z w / 2 + 10 in
  0 <= rx -> 0 <= ry ->
  clip_covers cx cy rx ry i j = true ->
  (x - 10 <= i < x + w + 10)%Z.
Proof.
  intros cx rx Hrx Hry H. unfold clip_covers in H. apply lt_true_iff in H.
  set (u := Qmax (inject_Z i) (Qmin cx (inject_Z i + 1))) in *.
  set (v := Qmax (inject_Z j) (Qmin cy (inject_Z j + 1))) in *.
  destruct (inside_ellipse_x (u - cx) (v - cy) rx ry Hrx Hry H) as [Hlo Hhi].
  assert (Hu : inject_Z i <= u /\ u <= inject_Z i + 1) by (subst u; qminmax).
  subst cx rx. change (inject_Z w / 2) with (inject_Z w * (1 # 2)) in *.
  assert (Hlt : inject_Z i < inject_Z (x + w + 10)).
  { rewrite !inject_Z_plus. change (inject_Z 10) with 10. lra. }
  assert (Hgt : inject_Z (x - 10 - 1) < inject_Z i).
  { unfold Z.sub. rewrite !inject_Z_plus.
    change (inject_Z (- (10))) with (- (10)). change (inject_Z (- (1))) with (- (1)).
    lra. }
  rewrite <- Zlt_Qlt in Hlt, Hgt. lia.
Qed.

Lemma clip_covers_bounds_y (y h j : Z) (cx rx : Q) (i : Z) :
  let cy := inject_Z y + inject_Z h / 2 in
  let ry := inject_Z h / 2 + 10 in
  0 <= rx -> 0 <= ry ->
  clip_covers cx cy rx ry i j = true ->
  (y - 10 <= j < y + h + 10)%Z.
Proof.
  intros cy ry Hrx Hry H. unfold clip_covers in H. apply lt_true_iff in H.
  set (u := Qmax (inject_Z i) (Qmin cx (inject_Z i + 1))) in *.
  set (v := Qmax (inject_Z j) (Qmin cy (inject_Z j + 1))) in *.
  assert (H' : ((v - cy) * rx) * ((v - cy) * rx) + ((u - cx) * ry) * ((u - cx) * ry)
               < (ry * rx) * (ry * rx)).
  { assert (E : (ry * rx) * (ry * rx) == (rx * ry) * (rx * ry)) by ring.
    rewrite E. lra. }
  destruct (inside_ellipse_x (v - cy) (u - cx) ry rx Hry Hrx H') as [Hlo Hhi].
  assert (Hv : inject_Z j <= v /\ v <= inject_Z j + 1) by (subst v; qminmax).
  subst cy ry. change (inject_Z h / 2) with (inject_Z h * (1 # 2)) in *.
  assert (Hlt : inject_Z j < inject_Z (y + h + 10)).
  { rewrite !inject_Z_plus. change (inject_Z 10) with 10. lra. }
  assert (Hgt : inject_Z (y - 10 - 1) < inject_Z j).
  { unfold Z.sub. rewrite !inject_Z_plus.
    change (inject_Z (- (10))) with (- (10)). change (inject_Z (- (1))) with (- (1)).
    lra. }
  rewrite <- Zlt_Qlt in Hlt, Hgt. lia.
Qed.

End Ellipse.

Lemma applyGaussianBlur_frame (render : Renderer) (c : Canvas) (box : Box)
    (x y w h i j : Z) :
  rounded_box box = (x, y, w, h) ->
  ~ in_rect (x - 10) (y - 10) (w + 20) (h + 20) i j ->
  cv_pixel (applyGaussianBlur render c box).1 i j = cv_pixel c i j.
Proof.
  intros Hbox Hout. unfold applyGaussianBlur. rewrite Hbox.
  destruct (JS.lt (inject_Z w / 2 + 10) 0) eqn:Erx; [reflexivity |].
  destruct (JS.lt (inject_Z h / 2 + 10) 0) eqn:Ery; [reflexivity |].
  cbn [orb fst cv_pixel].
  apply lt_false_iff in Erx, Ery.
  destruct (in_canvas c i j); [| reflexivity]. cbn [andb].
  destruct (clip_covers _ _ _ _ i j) eqn:E; [| reflexivity].
  exfalso. apply Hout.
  pose proof (clip_covers_bounds x w i _ _ j Erx Ery E).
  pose proof (clip_covers_bounds_y y h j _ _ i Erx Ery E).
  unfold in_rect. lia.
Qed.

(** One step of the loop keeps a pixel outside the footprint of its
    region. *)
Lemma blur_step_frame (render : Renderer) (blurType : BlurType) (c : Canvas)
    (box : Box) (i j : Z) :
  (0 <= box_width box)%Q -> (0 <= box_height box)%Q ->
  ~ footprint blurType box i j ->
  cv_pixel (match blurType with
            | gaussian => applyGaussianBlur render c box
            | pixel => applyPixelation c box
            end).1 i j = cv_pixel c i j.
Proof.
  intros Hw Hh Hout. unfold footprint in Hout.
  destruct (rounded_box box) as [[[x y] w] h] eqn:Hbox.
  destruct blurType.
  - apply applyGaussianBlur_frame with x y w h; assumption.
  - apply applyPixelation_frame with x y w h; try assumption.
    + injection Hbox as _ _ <- _. apply Math_round_nonneg, Hw.
    + injection Hbox as _ _ _ <-. apply Math_round_nonneg, Hh.
Qed.

Lemma blur_loop_frame (render : Renderer) (blurType : BlurType)
    (selectedFaces : list Region) (i j : Z) :
  (forall f, f ∈ selectedFaces ->
     (0 <= box_width (region_box f))%Q /\ (0 <= box_height (region_box f))%Q) ->
  (forall f, f ∈ selectedFaces -> ~ footprint blurType (region_box f) i j) ->
  forall c, cv_pixel (blur_loop render blurType selectedFaces c).1 i j = cv_pixel c i j.
Proof.
  induction selectedFaces as [| face rest IH]; intros Hbox Hout c; [reflexivity |].
  cbn [blur_loop].
  destruct (Hbox face (list_elem_of_here _ _)) as [Hw Hh].
  match goal with
  | |- cv_pixel (let '(c', thrown) := ?o in _).1 i j = _ => set (out := o)
  end.
  assert (Hstep : cv_pixel out.1 i j = cv_pixel c i j).
  { subst out. apply blur_step_frame; [exact Hw | exact Hh |].
    apply Hout. left. }
  clearbody out. destruct out as [c' [msg |]]; cbn [fst] in *.
  - exact Hstep.
  - rewrite IH; [exact Hstep | |].
    + intros f Hf. apply Hbox. right. exact Hf.
    + intros f Hf. apply Hout. right. exact Hf.
Qed.

Lemma filter_selected_idem (faces : list Region) :
  filter (fun f => region_selected f = true)
    (filter (fun f => region_selected f = true) faces)
  = filter (fun f => region_selected f = true) faces.
Proof.
  induction faces as [| f faces IH]; [reflexivity |].
  rewrite filter_cons. destruct (decide (region_selected f = true)) as [E | E].
  - rewrite filter_cons. destruct (decide (region_selected f = true)); [| contradiction].
    f_equal. exact IH.
  - exact IH.
Qed.

(** C4: [applyBlurToFaces] works on the selected regions only: its
    outcome is the one for the list with the unselected regions left out,
    and, the boxes of the selected regions having no negative size, a
    pixel outside the footprint of every selected region (the rounded box
    for pixelation, the rounded box grown by the clip margin for the
    gaussian style) has after the call the value it had before, whether
    or not it lies in an unselected region. *)
Theorem applyBlurToFaces_frame (render : Renderer) (canvas : Canvas)
    (faces : list Region) (blurType : BlurType) (i j : Z) :
  (forall f, f ∈ faces -> region_selected f = true ->
     (0 <= box_width (region_box f))%Q /\ (0 <= box_height (region_box f))%Q) ->
  (forall f, f ∈ faces -> region_selected f = true ->
     ~ footprint blurType (region_box f) i j) ->
  applyBlurToFaces render canvas faces blurType
  = applyBlurToFaces render canvas
      (filter (fun f => region_selected f = true) faces) blurType /\
  cv_pixel (applyBlurToFaces render canvas faces blurType).1 i j = cv_pixel canvas i j.
Proof.
  intros Hbox Hout. unfold applyBlurToFaces. split.
  - rewrite filter_selected_idem. reflexivity.
  - apply blur_loop_frame.
    + intros f Hf. apply list_elem_of_filter in Hf as [Hsel Hf]. auto.
    + intros f Hf. apply list_elem_of_filter in Hf as [Hsel Hf]. auto.
Qed.

Lemma applyBlurToFaces_frame_witness :
  let faces := [SamplePixels.face_at SamplePixels.corner true;
                SamplePixels.face_at SamplePixels.whole false] in
  applyBlurToFaces SamplePixels.white SamplePixels.strip faces pixel
  = applyBlurToFaces SamplePixels.white SamplePixels.strip
      (filter (fun f => region_selected f = true) faces) pixel /\
  cv_pixel (applyBlurToFaces SamplePixels.white SamplePixels.strip faces pixel).1 5 0
  = cv_pixel SamplePixels.strip 5 0.
Proof.
  apply (applyBlurToFaces_frame SamplePixels.white SamplePixels.strip
           [SamplePixels.face_at SamplePixels.corner true;
            SamplePixels.face_at SamplePixels.whole false] pixel 5 0).
  - intros f Hf Hsel. apply elem_of_cons in Hf as [-> | Hf].
    + cbn. split; lra.
    + apply list_elem_of_singleton in Hf as ->. discriminate Hsel.
  - intros f Hf Hsel. apply elem_of_cons in Hf as [-> | Hf].
    + intros [[_ H] _]. vm_compute in H. discriminate H.
    + apply list_elem_of_singleton in Hf as ->. discriminate Hsel.
Defined.

(** With the selected two-column region pixelated, a pixel of the
    unselected region keeps its colour; under the gaussian style the clip
    ellipse of that region (radius 11 around (1, 1)) reaches column 5 but
    not column 20. *)
Example blur_sample :
  let faces := [SamplePixels.face_at SamplePixels.corner true;
                SamplePixels.face_at SamplePixels.whole false] in
  let px := (applyBlurToFaces SamplePixels.white SamplePixels.strip faces pixel).1 in
  let gs := (applyBlurToFaces SamplePixels.white SamplePixels.strip faces gaussian).1 in
  cv_pixel px 0 1 = mkRGBA 10 50 0 255 /\
  cv_pixel px 5 1 = mkRGBA 10 100 0 255 /\
  cv_pixel gs 5 1 = mkRGBA 255 255 255 255 /\
  cv_pixel gs 20 1 = mkRGBA 10 100 0 255.
Proof. vm_compute. repeat split. Qed.

(** A selected region whose box ends exactly at the left edge of column
    10 ([x = 0.5], [width = 9.5]) is pixelated over columns 1 to 10, the
    rounded box: the pixel of column 10, beside the box, changes. *)
Lemma blur_changes_pixel_beside_box :
  let out := (applyBlurToFaces SamplePixels.white SamplePixels.strip
                [SamplePixels.face_at SamplePixels.half true] pixel).1 in
  (box_x SamplePixels.half + box_width SamplePixels.half <= inject_Z 10)%Q /\
  rounded_box SamplePixels.half = (1, 0, 10, 2)%Z /\
  cv_pixel SamplePixels.strip 10 0 = mkRGBA 10 0 0 255 /\
  cv_pixel out 10 0 = mkRGBA 10 50 0 255 /\
  cv_pixel out 10 0 <> cv_pixel SamplePixels.strip 10 0.
Proof.
  cbv zeta. split; [vm_compute; discriminate |].
  split; [vm_compute; reflexivity |].
  split; [vm_compute; reflexivity |].
  assert (E : cv_pixel (applyBlurToFaces SamplePixels.white SamplePixels.strip
                [SamplePixels.face_at SamplePixels.half true] pixel).1 10 0
              = mkRGBA 10 50 0 255) by (vm_compute; reflexivity).
  split; [exact E |]. rewrite E. vm_compute. discriminate.
Qed.

(** ** Stamped ids *)

Lemma includes_app_dash (r d : string) : JS.includes "-" (r +:+ "-" +:+ d) = true.
Proof.
  induction r as [|c r IH]; [reflexivity |].
  change (String c r +:+ "-" +:+ d) with (String c (r +:+ "-" +:+ d)).
  cbn [JS.includes]. rewrite IH. destruct (Ascii.eqb "-" c); reflexivity.
Qed.

(** A string is cut at its last dash in one way only. *)
Lemma last_dash_unique (a a' d d' : string) :
  JS.includes "-" d = false -> JS.includes "-" d' = false ->
  a +:+ "-" +:+ d = a' +:+ "-" +:+ d' -> a = a' /\ d = d'.
Proof.
  intros Hd Hd'. revert a'. induction a as [|c a IH]; intros [|c' a'] E.
  - change (EmptyString +:+ "-" +:+ d) with (String "-" d) in E.
    change (EmptyString +:+ "-" +:+ d') with (String "-" d') in E.
    injection E as ->. auto.
  - change (EmptyString +:+ "-" +:+ d) with (String "-" d) in E.
    change (String c' a' +:+ "-" +:+ d') with (String c' (a' +:+ "-" +:+ d')) in E.
    injection E as _ ->. rewrite includes_app_dash in Hd. discriminate.
  - change (EmptyString +:+ "-" +:+ d') with (String "-" d') in E.
    change (String c a +:+ "-" +:+ d) with (String c (a +:+ "-" +:+ d)) in E.
    injection E as _ <-. rewrite includes_app_dash in Hd'. discriminate.
  - change (String c a +:+ "-" +:+ d) with (String c (a +:+ "-" +:+ d)) in E.
    change (String c' a' +:+ "-" +:+ d') with (String c' (a' +:+ "-" +:+ d')) in E.
    injection E as -> E. destruct (IH a' E) as [-> ->]. auto.
Qed.

Lemma pretty_N_char_no_dash (d : N) : Ascii.eqb "-" (pretty_N_char d) = false.
Proof.
  unfold pretty_N_char. destruct d as [|p]; [reflexivity |].
  do 4 (destruct p as [p | p |]; try reflexivity).
Qed.

Lemma pretty_N_go_no_dash (x : N) :
  forall s, JS.includes "-" s = false -> JS.includes "-" (pretty_N_go x s) = false.
Proof.
  induction (N.lt_wf_0 x) as [x _ IH]; intros s Hs.
  assert (x = 0 \/ 0 < x)%N as [-> | Hx] by lia.
  - rewrite pretty_N_go_0. exact Hs.
  - rewrite pretty_N_go_step by exact Hx. apply IH.
    + apply N.div_lt; [exact Hx | reflexivity].
    + cbn [JS.includes]. rewrite Hs, pretty_N_char_no_dash. reflexivity.
Qed.

(** The decimal notation of a natural number holds no dash. *)
Lemma pretty_nat_no_dash (n : nat) : JS.includes "-" (pretty n) = false.
Proof.
  unfold pretty, pretty_nat, pretty, pretty_N.
  destruct (decide (N.of_nat n = 0%N)); [reflexivity |].
  apply pretty_N_go_no_dash. reflexivity.
Qed.

(** An id [prefix-clock-index] determines the clock reading and the
    index. *)
Lemma stamped_id_inj (prefix : string) (now now' : Z) (i j : nat) :
  prefix +:+ pretty now +:+ "-" +:+ pretty i = prefix +:+ pretty now' +:+ "-" +:+ pretty j ->
  now = now' /\ i = j.
Proof.
  intros E. apply (inj (String.append prefix)) in E.
  apply last_dash_unique in E as [En Ei]; try apply pretty_nat_no_dash.
  split; [exact (inj pretty _ _ En) | exact (inj pretty _ _ Ei)].
Qed.

(** ** The structure of the clusters *)

(** The outer loop packs the member lists in order; the record at
    position [k] is [make_person (now k) k] of the [k]-th list. *)
Lemma cluster_outer_groups (now : nat -> Z) (threshold : Q) (faces todo : list Face.t) :
  forall persons assigned,
    cluster_outer now threshold faces todo persons assigned
    = persons ++ imap (fun i => make_person (now (length persons + i)) (length persons + i))
                   (cluster_groups threshold faces todo assigned).
Proof.
  induction todo as [|face rest IH]; intros persons assigned; cbn [cluster_outer cluster_groups].
  - cbn. by rewrite app_nil_r.
  - destruct (decide _); [apply IH |].
    destruct (cluster_inner _ _ _ _ _) as [pf A'] eqn:E.
    rewrite IH. cbn [imap]. rewrite <- app_assoc. cbn [app]. f_equal. f_equal.
    + rewrite Nat.add_0_r. reflexivity.
    + apply imap_ext. intros i x _. cbn. rewrite length_app. cbn.
      replace (length persons + 1 + i) with (length persons + S i) by lia. reflexivity.
Qed.

Lemma clusterFacesByPerson_groups (now : nat -> Z) (threshold : Q) (faces : list Face.t) :
  clusterFacesByPerson now faces threshold
  = imap (fun k => make_person (now k) k) (cluster_groups threshold faces faces ∅).
Proof.
  unfold clusterFacesByPerson. destruct faces as [|f faces]; [reflexivity |].
  rewrite cluster_outer_groups. cbn [app length]. apply imap_ext. reflexivity.
Qed.

Lemma member_ids_imap (now : nat -> Z) (G : list (list Face.t)) :
  forall k, member_ids (imap (fun i => make_person (now (k + i)) (k + i)) G) = G ≫= fmap Face.id.
Proof.
  unfold member_ids. induction G as [|pf G IH]; intros k; [reflexivity |].
  cbn [imap]. rewrite !bind_cons. f_equal.
  rewrite <- (IH (S k)). f_equal. apply imap_ext. intros i x _. cbn.
  replace (k + S i) with (S (k + i)) by lia. reflexivity.
Qed.

Lemma reselect_id h f : Face.id (reselect h f) = Face.id f.
Proof. reflexivity. Qed.

Lemma reselect_descriptor h f : Face.descriptor (reselect h f) = Face.descriptor f.
Proof. reflexivity. Qed.

Lemma cluster_inner_reselect h (threshold : Q) (face : Face.t) (others : list Face.t) :
  forall personFaces assigned,
    cluster_inner threshold (reselect h face) (reselect h <$> others)
      (reselect h <$> personFaces) assigned
    = (reselect h <$> (cluster_inner threshold face others personFaces assigned).1,
       (cluster_inner threshold face others personFaces assigned).2).
Proof.
  induction others as [|o rest IH]; intros pf A.
  - reflexivity.
  - cbn [fmap list_fmap cluster_inner]. rewrite !reselect_id, !reselect_descriptor.
    destruct (decide _); [apply IH |].
    destruct (distance_lt _ _); [| apply IH].
    rewrite <- IH. rewrite fmap_app. reflexivity.
Qed.

Lemma cluster_groups_reselect h (threshold : Q) (faces todo : list Face.t) :
  forall assigned,
    cluster_groups threshold (reselect h <$> faces) (reselect h <$> todo) assigned
    = fmap (M := list) (fmap (M := list) (reselect h))
        (cluster_groups threshold faces todo assigned).
Proof.
  induction todo as [|face rest IH]; intros A; [reflexivity |].
  cbn [fmap list_fmap cluster_groups]. rewrite reselect_id.
  destruct (decide _); [apply IH |].
  change [reselect h face] with (reselect h <$> [face]).
  rewrite cluster_inner_reselect.
  destruct (cluster_inner threshold face faces [face] _) as [pf A'].
  cbn [fst snd fmap list_fmap]. f_equal. apply IH.
Qed.

Lemma child_count_reselect h (fs : list Face.t) :
  child_count (reselect h <$> fs) = child_count fs.
Proof.
  unfold child_count. induction fs as [|f fs IH]; [reflexivity |].
  cbn [fmap list_fmap]. rewrite !filter_cons.
  change (Face.isChild (reselect h f)) with (Face.isChild f).
  destruct (decide _); cbn [length]; rewrite IH; reflexivity.
Qed.

Lemma age_sum_reselect h (fs : list Face.t) :
  forall acc,
    foldl (fun sum f => (sum + Face.age f)%Z) acc (reselect h <$> fs)
    = foldl (fun sum f => (sum + Face.age f)%Z) acc fs.
Proof.
  induction fs as [|f fs IH]; intros acc; [reflexivity |].
  cbn [fmap list_fmap foldl]. apply IH.
Qed.

(** What [make_person] makes of a list whose flags were recomputed: the
    flags of the members and the [selected] flag derived from them
    change, nothing else. *)
Lemma make_person_reselect h (now now' : nat -> Z) (k k' : nat) (pf : list Face.t) :
  let p := make_person (now k) k pf in
  let p' := make_person (now' k') k' (reselect h <$> pf) in
  Person.id p' = person_id now' k' /\
  Person.faces p' = reselect h <$> pf /\
  Person.faceIds p' = Person.faceIds p /\
  Person.isChild p' = Person.isChild p /\
  Person.avgAge p' = Person.avgAge p /\
  Person.thumbnail p' = Person.thumbnail p /\
  Person.selected p' = existsb (fun f => h (Face.id f) (Face.selected f)) pf.
Proof.
  cbn zeta. unfold make_person. cbn [Person.id Person.faces Person.faceIds Person.isChild
    Person.avgAge Person.thumbnail Person.selected].
  repeat split.
  - rewrite <- list_fmap_compose. apply list_fmap_ext. reflexivity.
  - fold (child_count (reselect h <$> pf)). fold (child_count pf).
    rewrite child_count_reselect, length_fmap. reflexivity.
  - rewrite age_sum_reselect, length_fmap. reflexivity.
  - destruct pf; reflexivity.
  - induction pf as [|f pf IH]; [reflexivity |].
    cbn [fmap list_fmap existsb]. rewrite IH. reflexivity.
Qed.


Lemma allFaces_fmap_reselect h (F : Image.t -> Image.t) (imgs : list Image.t) :
  (forall img, Image.id (F img) = Image.id img /\ Image.file (F img) = Image.file img /\
               Image.faces (F img) = reselect h <$> Image.faces img) ->
  allFaces (F <$> imgs) = reselect h <$> allFaces imgs.
Proof.
  intros HF. unfold allFaces. induction imgs as [|img imgs IH]; [reflexivity |].
  cbn [fmap list_fmap flat_map]. rewrite fmap_app. f_equal; [| exact IH].
  destruct (HF img) as (-> & -> & ->).
  rewrite <- !list_fmap_compose. apply list_fmap_ext. reflexivity.
Qed.

Lemma person_id_inj now i j : person_id now i = person_id now j -> i = j.
Proof.
  unfold person_id. intros E. apply stamped_id_inj in E as [_ E]. exact E.
Qed.

Lemma find_by_key {A} (key : A -> string) (l : list A) :
  forall k a,
    l !! k = Some a ->
    (forall i j x y, l !! i = Some x -> l !! j = Some y -> key x = key y -> i = j) ->
    List.find (fun q => String.eqb (key q) (key a)) l = Some a.
Proof.
  induction l as [|b l IH]; intros k a Hk Hinj; [discriminate |].
  cbn [List.find]. destruct (String.eqb_spec (key b) (key a)) as [E | NE].
  - assert (0 = k) as <- by (apply (Hinj 0 k b a); [reflexivity | exact Hk | exact E]).
    cbn in Hk. congruence.
  - destruct k as [|k]; [cbn in Hk; congruence |].
    apply (IH k); [exact Hk |].
    intros i j x y Hi Hj Exy. apply (inj S). apply (Hinj (S i) (S j) x y); assumption.
Qed.

(** The clusters of a list and of the same list with recomputed flags,
    position by position. *)
Lemma clusters_lookup (now : nat -> Z) (threshold : Q) (faces : list Face.t) (k : nat) :
  clusterFacesByPerson now faces threshold !! k
  = make_person (now k) k <$> cluster_groups threshold faces faces ∅ !! k.
Proof. rewrite clusterFacesByPerson_groups, list_lookup_imap. reflexivity. Qed.

Lemma clusters_reselect_lookup h (now : nat -> Z) (threshold : Q) (faces : list Face.t) (k : nat) :
  clusterFacesByPerson now (reselect h <$> faces) threshold !! k
  = (fun pf => make_person (now k) k (reselect h <$> pf))
      <$> cluster_groups threshold faces faces ∅ !! k.
Proof.
  rewrite clusters_lookup, cluster_groups_reselect, list_lookup_fmap.
  destruct (_ !! k); reflexivity.
Qed.

(** A member list is not empty, and a face id is a member of one list
    only. *)
Lemma cluster_groups_members (threshold : Q) (faces : list Face.t) :
  let G := cluster_groups threshold faces faces ∅ in
  (forall k pf, G !! k = Some pf -> pf <> []) /\
  (forall i j pf pf' f f',
     G !! i = Some pf -> G !! j = Some pf' -> f ∈ pf -> f' ∈ pf' ->
     Face.id f = Face.id f' -> i = j).
Proof.
  cbn zeta.
  destruct (clusterFacesByPerson_spec (fun _ => 0%Z) threshold faces) as (ND & CO & _).
  split.
  - intros k pf Hk.
    assert (Hp : clusterFacesByPerson (fun _ => 0%Z) faces threshold !! k
                 = Some (make_person 0 k pf))
      by (rewrite clusters_lookup, Hk; reflexivity).
    rewrite Forall_lookup in CO. destruct (CO _ _ Hp) as (index & pf' & E & NE & _).
    apply (f_equal Person.faces) in E. cbn in E. congruence.
  - intros i j pf pf' f f' Hi Hj Hf Hf' E.
    apply (member_ids_unique _ ND i j (make_person 0 i pf) (make_person 0 j pf') (Face.id f)).
    + rewrite clusters_lookup, Hi. reflexivity.
    + rewrite clusters_lookup, Hj. reflexivity.
    + cbn. apply list_elem_of_fmap. eauto.
    + cbn. rewrite E. apply list_elem_of_fmap. eauto.
Qed.

Lemma existsb_all {A} (P : A -> bool) (b : bool) (l : list A) :
  l <> [] -> (forall a, a ∈ l -> P a = b) -> existsb P l = b.
Proof.
  induction l as [|a l IH]; intros NE H; [congruence |].
  cbn [existsb]. rewrite (H a) by apply list_elem_of_here.
  destruct b; [reflexivity |]. cbn.
  destruct l as [|a' l]; [reflexivity |].
  apply IH; [discriminate |]. intros x Hx. apply H. by apply list_elem_of_further.
Qed.

Lemma existsb_ext_in {A} (P Q : A -> bool) (l : list A) :
  (forall a, a ∈ l -> P a = Q a) -> existsb P l = existsb Q l.
Proof.
  induction l as [|a l IH]; intros H; [reflexivity |].
  cbn [existsb]. rewrite (H a) by apply list_elem_of_here. f_equal.
  apply IH. intros x Hx. apply H. by apply list_elem_of_further.
Qed.

Lemma count_flags {A} (flag : A -> bool) (l : list A) :
  length (filter (fun a => flag a = true) l)
  = length (filter (fun b : bool => b = true) (flag <$> l)).
Proof.
  induction l as [|a l IH]; [reflexivity |].
  cbn [fmap list_fmap]. rewrite !filter_cons.
  destruct (decide (flag a = true)); cbn [length]; rewrite IH; reflexivity.
Qed.

(** The clusters of the working set before and after a handler that
    only recomputes selection flags, position by position. *)
Lemma persons_reselect h (F : Image.t -> Image.t) (now now' : nat -> Z) (imgs : list Image.t) :
  (forall img, Image.id (F img) = Image.id img /\ Image.file (F img) = Image.file img /\
               Image.faces (F img) = reselect h <$> Image.faces img) ->
  let G := cluster_groups default_threshold (allFaces imgs) (allFaces imgs) ∅ in
  forall k,
    persons now imgs !! k = make_person (now k) k <$> G !! k /\
    persons now' (F <$> imgs) !! k
    = (fun pf => make_person (now' k) k (reselect h <$> pf)) <$> G !! k.
Proof.
  intros HF G k. unfold persons. split.
  - apply clusters_lookup.
  - rewrite (allFaces_fmap_reselect h F imgs HF). apply clusters_reselect_lookup.
Qed.

Lemma persons_reselect_fields h (F : Image.t -> Image.t) (now now' : nat -> Z)
    (imgs : list Image.t) :
  (forall img, Image.id (F img) = Image.id img /\ Image.file (F img) = Image.file img /\
               Image.faces (F img) = reselect h <$> Image.faces img) ->
  let G := cluster_groups default_threshold (allFaces imgs) (allFaces imgs) ∅ in
  let ps := persons now imgs in
  let ps' := persons now' (F <$> imgs) in
  Person.faceIds <$> ps' = Person.faceIds <$> ps /\
  Person.isChild <$> ps' = Person.isChild <$> ps /\
  forall k,
    (Person.selected <$> ps') !! k
    = existsb (fun f => h (Face.id f) (Face.selected f)) <$> G !! k.
Proof.
  intros HF G ps ps'.
  pose proof (persons_reselect h F now now' imgs HF) as HL. cbn zeta in HL.
  fold G ps ps' in HL.
  repeat split.
  - apply list_eq. intros k. rewrite !list_lookup_fmap, (proj2 (HL k)), (proj1 (HL k)).
    destruct (G !! k) as [pf|]; [| reflexivity]. cbn.
    rewrite <- list_fmap_compose. reflexivity.
  - apply list_eq. intros k. rewrite !list_lookup_fmap, (proj2 (HL k)), (proj1 (HL k)).
    destruct (G !! k) as [pf|]; [| reflexivity]. cbn [fmap option_fmap option_map].
    destruct (make_person_reselect h now now' k k pf) as (_ & _ & _ & E3 & _).
    cbn zeta in E3. rewrite E3. reflexivity.
  - intros k. rewrite list_lookup_fmap, (proj2 (HL k)).
    destruct (G !! k) as [pf|]; [| reflexivity]. cbn [fmap option_fmap option_map].
    destruct (make_person_reselect h now now' k k pf) as (_ & _ & _ & _ & _ & _ & E7).
    cbn zeta in E7. rewrite E7. reflexivity.
Qed.

Lemma clusters_id_at (now : nat -> Z) (threshold : Q) (faces : list Face.t) (k : nat)
    (p : Person.t) :
  clusterFacesByPerson now faces threshold !! k = Some p -> Person.id p = person_id now k.
Proof.
  intros Hk. rewrite clusters_lookup in Hk.
  destruct (_ !! k); [| discriminate]. injection Hk as <-. reflexivity.
Qed.

Lemma clusters_id_inj (now : nat -> Z) (threshold : Q) (faces : list Face.t) i j x y :
  clusterFacesByPerson now faces threshold !! i = Some x ->
  clusterFacesByPerson now faces threshold !! j = Some y ->
  Person.id x = Person.id y -> i = j.
Proof.
  intros Hi Hj E.
  rewrite (clusters_id_at _ _ _ _ _ Hi), (clusters_id_at _ _ _ _ _ Hj) in E.
  exact (person_id_inj _ _ _ E).
Qed.

Lemma count_all {A} (flag : A -> bool) (l : list A) :
  (forall a, a ∈ l -> flag a = true) ->
  length (filter (fun a => flag a = true) l) = length l.
Proof.
  induction l as [|a l IH]; intros H; [reflexivity |].
  rewrite filter_cons, decide_True by (apply H; apply list_elem_of_here).
  cbn [length]. rewrite IH; [reflexivity |].
  intros x Hx. apply H. by apply list_elem_of_further.
Qed.

Lemma count_none {A} (flag : A -> bool) (l : list A) :
  (forall a, a ∈ l -> flag a = false) ->
  length (filter (fun a => flag a = true) l) = 0.
Proof.
  induction l as [|a l IH]; intros H; [reflexivity |].
  rewrite filter_cons, decide_False.
  - apply IH. intros x Hx. apply H. by apply list_elem_of_further.
  - rewrite (H a) by apply list_elem_of_here. discriminate.
Qed.

(** X1: recomputing selection flags does not change the clustering: the
    clusters of the re-flagged faces have the same ids, member ids, child
    flags and average ages, and their members are the re-flagged members. *)
Theorem clusters_ignore_selection (h : string -> bool -> bool) (now : nat -> Z)
    (threshold : Q) (faces : list Face.t) :
  let ps := clusterFacesByPerson now faces threshold in
  let ps' := clusterFacesByPerson now (reselect h <$> faces) threshold in
  (fun p => (Person.id p, Person.faceIds p, Person.isChild p, Person.avgAge p)) <$> ps'
  = (fun p => (Person.id p, Person.faceIds p, Person.isChild p, Person.avgAge p)) <$> ps /\
  Person.faces <$> ps' = (fun p => reselect h <$> Person.faces p) <$> ps.
Proof.
  cbn zeta. split; apply list_eq; intros k; rewrite !list_lookup_fmap,
    clusters_reselect_lookup, clusters_lookup;
    destruct (cluster_groups threshold faces faces ∅ !! k) as [pf|]; try reflexivity.
  cbn [fmap option_fmap option_map].
  destruct (make_person_reselect h now now k k pf) as (_ & _ & E2 & E3 & E4 & _).
  cbn zeta in *. rewrite E2, E3, E4. reflexivity.
Qed.

(** X2: the cluster pushed at position [k] carries the id built from
    the reading of the clock at that push and from [k], and such an id
    determines both; so the ids of the clusters are pairwise different
    whatever the clock reads, also when it stands still or runs
    backwards, and looking a cluster up by its id finds that cluster. *)
Theorem person_ids_by_position (now : nat -> Z) (threshold : Q) (faces : list Face.t) :
  let ps := clusterFacesByPerson now faces threshold in
  (forall k p, ps !! k = Some p -> Person.id p = person_id now k) /\
  (forall now' k k', person_id now k = person_id now' k' -> now k = now' k' /\ k = k') /\
  NoDup (Person.id <$> ps) /\
  (forall p, p ∈ ps ->
     List.find (fun q => String.eqb (Person.id q) (Person.id p)) ps = Some p).
Proof.
  cbn zeta. split; [apply clusters_id_at |].
  split; [intros now' k k'; unfold person_id; apply stamped_id_inj |]. split.
  - apply NoDup_alt. intros i j id Hi Hj. rewrite list_lookup_fmap in Hi, Hj.
    destruct (_ !! i) as [x|] eqn:Ex; [| discriminate].
    destruct (_ !! j) as [y|] eqn:Ey; [| discriminate].
    cbn in Hi, Hj. apply (clusters_id_inj now threshold faces i j x y Ex Ey). congruence.
  - intros p Hp. apply list_elem_of_lookup in Hp as [k Hk].
    apply (find_by_key Person.id _ k p Hk). apply clusters_id_inj.
Qed.

(** With a clock that advances between the pushes each id carries its
    own reading. *)
Example person_ids_sample :
  Person.id <$> clusterFacesByPerson (Sample.ticking 1730000000002) SampleFaces.all
                  default_threshold
  = ["person-1730000000002-0"; "person-1730000000003-1"].
Proof. vm_compute. reflexivity. Qed.

(** Membership in the id set [selectChildrenOnly] builds. *)
Lemma childFaceIds_spec (ps : list Person.t) (id : string) :
  id ∈ (list_to_set (filter (fun p => Person.isChild p = true) ps ≫= Person.faceIds)
          : gset string)
  <-> exists q, q ∈ ps /\ Person.isChild q = true /\ id ∈ Person.faceIds q.
Proof.
  rewrite elem_of_list_to_set, list_elem_of_bind. split.
  - intros (q & Hid & Hq). apply list_elem_of_filter in Hq as [Hc Hq]. eauto.
  - intros (q & Hq & Hc & Hid). exists q. split; [exact Hid |].
    apply list_elem_of_filter. auto.
Qed.

(** X3: after "Children Only" the person list shows exactly the clusters
    flagged child as selected; the clusters themselves (members, child
    flags) are the same as before. *)
Theorem selectChildrenOnly_selects_child_persons (now now' : nat -> Z) (imgs : list Image.t) :
  let ps := persons now imgs in
  let ps' := persons now' (selectChildrenOnly ps imgs) in
  Person.faceIds <$> ps' = Person.faceIds <$> ps /\
  Person.isChild <$> ps' = Person.isChild <$> ps /\
  Person.selected <$> ps' = Person.isChild <$> ps /\
  selectedPersonsCount ps'
  = length (filter (fun p => Person.isChild p = true) ps).
Proof.
  cbn zeta. set (ps := persons now imgs).
  set (childFaceIds :=
         (list_to_set (filter (fun p => Person.isChild p = true) ps ≫= Person.faceIds)
            : gset string)).
  set (h := fun (id : string) (_ : bool) => bool_decide (id ∈ childFaceIds)).
  set (F := fun img : Image.t =>
     {| Image.id := Image.id img; Image.file := Image.file img;
        Image.img := Image.img img;
        Image.faces :=
          (fun face => Face.with_selected face (bool_decide (Face.id face ∈ childFaceIds)))
            <$> Image.faces img;
        Image.manualRegions := Image.manualRegions img;
        Image.processed := None |}).
  change (selectChildrenOnly ps imgs) with (F <$> imgs).
  assert (HF : forall img, Image.id (F img) = Image.id img /\
                 Image.file (F img) = Image.file img /\
                 Image.faces (F img) = reselect h <$> Image.faces img)
    by (intros img; repeat split; reflexivity).
  pose proof (persons_reselect h F now now' imgs HF) as HL. cbn zeta in HL.
  fold ps in HL.
  destruct (cluster_groups_members default_threshold (allFaces imgs)) as (NE & UQ).
  cbn zeta in NE, UQ.
  set (G := cluster_groups default_threshold (allFaces imgs) (allFaces imgs) ∅) in *.
  assert (Hsel : forall k pf, G !! k = Some pf ->
             existsb (fun f => h (Face.id f) (Face.selected f)) pf
             = Person.isChild (make_person (now k) k pf)).
  { intros k pf Hk. apply existsb_all; [exact (NE _ _ Hk) |].
    intros f Hf. unfold h.
    destruct (Person.isChild (make_person (now k) k pf)) eqn:Ec.
    - apply bool_decide_eq_true. apply childFaceIds_spec.
      exists (make_person (now k) k pf). repeat split; [| exact Ec |].
      + apply list_elem_of_lookup. exists k. rewrite (proj1 (HL k)), Hk. reflexivity.
      + cbn. apply list_elem_of_fmap. eauto.
    - apply bool_decide_eq_false. unfold childFaceIds. rewrite childFaceIds_spec.
      intros (q & Hq & Hc & Hid). apply list_elem_of_lookup in Hq as [j Hj].
      rewrite (proj1 (HL j)) in Hj.
      destruct (G !! j) as [pf'|] eqn:Ej; [| discriminate]. injection Hj as <-.
      cbn in Hid. apply list_elem_of_fmap in Hid as (f' & Eid & Hf').
      assert (k = j) by (apply (UQ k j pf pf' f f'); assumption). subst j.
      assert (pf' = pf) by congruence. subst pf'. congruence. }
  destruct (persons_reselect_fields h F now now' imgs HF) as (E1 & E2 & E3').
  cbn zeta in E1, E2, E3'. fold G ps in E1, E2, E3'.
  assert (E3 : Person.selected <$> persons now' (F <$> imgs) = Person.isChild <$> ps).
  { apply list_eq. intros k. rewrite E3', list_lookup_fmap, (proj1 (HL k)).
    destruct (G !! k) as [pf|] eqn:Ek; [| reflexivity]. cbn [fmap option_fmap option_map].
    rewrite (Hsel k pf Ek). reflexivity. }
  repeat split; try assumption.
  unfold selectedPersonsCount. rewrite count_flags, E3, <- count_flags. reflexivity.
Qed.

(** X4: toggling a person flips exactly that person in the person list
    shown afterwards: the cluster at the same position is selected iff it
    was not, every other cluster keeps its state, and the clusters keep
    their members. *)
Theorem togglePersonSelection_flips_person (now now' : nat -> Z) (imgs : list Image.t)
    (k : nat) (p : Person.t) :
  persons now imgs !! k = Some p ->
  let ps := persons now imgs in
  let ps' := persons now' (togglePersonSelection ps imgs (Person.id p)) in
  Person.faceIds <$> ps' = Person.faceIds <$> ps /\
  Person.isChild <$> ps' = Person.isChild <$> ps /\
  Person.selected <$> ps' = <[k := negb (Person.selected p)]> (Person.selected <$> ps).
Proof.
  intros Hk. cbn zeta. set (ps := persons now imgs) in *.
  assert (Hfind : List.find (fun q => String.eqb (Person.id q) (Person.id p)) ps = Some p).
  { apply (find_by_key Person.id _ k p Hk). apply clusters_id_inj. }
  unfold togglePersonSelection. rewrite Hfind.
  set (S := (list_to_set (Person.faceIds p) : gset string)).
  set (new := negb (Person.selected p)).
  set (h := fun (id : string) (s : bool) => if decide (id ∈ S) then new else s).
  match goal with |- context [fmap ?f imgs] => set (F := f) end.
  assert (HF : forall img, Image.id (F img) = Image.id img /\
                 Image.file (F img) = Image.file img /\
                 Image.faces (F img) = reselect h <$> Image.faces img).
  { intros img. repeat split. cbn. apply list_fmap_ext. intros i f _.
    unfold reselect, h. destruct (decide _); [reflexivity |]. destruct f; reflexivity. }
  pose proof (persons_reselect h F now now' imgs HF) as HL. cbn zeta in HL.
  fold ps in HL.
  destruct (persons_reselect_fields h F now now' imgs HF) as (E1 & E2 & E3).
  cbn zeta in E1, E2, E3. fold ps in E1, E2, E3.
  destruct (cluster_groups_members default_threshold (allFaces imgs)) as (NE & UQ).
  cbn zeta in NE, UQ.
  set (G := cluster_groups default_threshold (allFaces imgs) (allFaces imgs) ∅) in *.
  split; [exact E1 |]. split; [exact E2 |].
  pose proof Hk as Hk'. rewrite (proj1 (HL k)) in Hk'.
  destruct (G !! k) as [pfk|] eqn:Ek; [| discriminate]. injection Hk' as Ep.
  apply list_eq. intros i. rewrite E3.
  destruct (decide (i = k)) as [-> | Hik].
  - rewrite list_lookup_insert, decide_True
      by (split; [reflexivity | rewrite length_fmap; eapply lookup_lt_Some; exact Hk]).
    rewrite Ek. cbn [fmap option_fmap option_map]. f_equal.
    apply existsb_all; [exact (NE _ _ Ek) |].
    intros f Hf. unfold h. rewrite decide_True; [reflexivity |].
    unfold S. rewrite elem_of_list_to_set, <- Ep. cbn.
    apply list_elem_of_fmap. eauto.
  - rewrite list_lookup_insert, decide_False by (intros [? _]; congruence).
    rewrite list_lookup_fmap, (proj1 (HL i)).
    destruct (G !! i) as [pf|] eqn:Ei; [| reflexivity].
    cbn [fmap option_fmap option_map]. f_equal.
    change (Person.selected (make_person (now i) i pf)) with (existsb Face.selected pf).
    apply existsb_ext_in. intros f Hf. unfold h. rewrite decide_False; [reflexivity |].
    unfold S. rewrite elem_of_list_to_set, <- Ep. cbn. intros Hin.
    apply list_elem_of_fmap in Hin as (f' & Eid & Hf').
    apply Hik. apply (UQ i k pf pfk f f'); assumption.
Qed.

Lemma togglePersonSelection_flips_person_witness :
  let p := make_person 1730000000002 0 [SampleFaces.a; SampleFaces.b] in
  let ps := persons (Sample.still 1730000000002) [SampleFaces.entry] in
  let ps' := persons (Sample.still 1730000000009)
               (togglePersonSelection ps [SampleFaces.entry] (Person.id p)) in
  Person.faceIds <$> ps' = Person.faceIds <$> ps /\
  Person.isChild <$> ps' = Person.isChild <$> ps /\
  Person.selected <$> ps' = <[0 := negb (Person.selected p)]> (Person.selected <$> ps).
Proof.
  apply (togglePersonSelection_flips_person (Sample.still 1730000000002)
           (Sample.still 1730000000009)
           [SampleFaces.entry] 0
           (make_person 1730000000002 0 [SampleFaces.a; SampleFaces.b])).
  vm_compute. reflexivity.
Defined.

(** X5: after "Select All" every person of the list shown is selected,
    after "Deselect All" none is; the clusters keep their members, and
    after "Deselect All" only a selected manual region leaves something
    to blur. *)
Theorem select_all_and_none (now now' : nat -> Z) (imgs : list Image.t) :
  let ps := persons now imgs in
  let all := persons now' (selectAllPersons imgs) in
  let none := persons now' (deselectAllPersons imgs) in
  Person.faceIds <$> all = Person.faceIds <$> ps /\
  Person.faceIds <$> none = Person.faceIds <$> ps /\
  (forall p, p ∈ all -> Person.selected p = true) /\
  (forall p, p ∈ none -> Person.selected p = false) /\
  selectedPersonsCount all = length ps /\
  selectedPersonsCount none = 0 /\
  hasSelectedRegions (deselectAllPersons imgs)
  = existsb (fun img => existsb Manual.selected (Image.manualRegions img)) imgs.
Proof.
  cbn zeta.
  destruct (cluster_groups_members default_threshold (allFaces imgs)) as (NE & _).
  cbn zeta in NE.
  assert (Hconst : forall v : bool,
    let F := fun img : Image.t =>
      {| Image.id := Image.id img; Image.file := Image.file img;
         Image.img := Image.img img;
         Image.faces := (fun face => Face.with_selected face v) <$> Image.faces img;
         Image.manualRegions := Image.manualRegions img;
         Image.processed := None |} in
    Person.faceIds <$> persons now' (F <$> imgs) = Person.faceIds <$> persons now imgs /\
    forall p, p ∈ persons now' (F <$> imgs) -> Person.selected p = v).
  { intros v F.
    assert (HF : forall img, Image.id (F img) = Image.id img /\
                   Image.file (F img) = Image.file img /\
                   Image.faces (F img) = reselect (fun _ _ => v) <$> Image.faces img)
      by (intros img; repeat split; reflexivity).
    destruct (persons_reselect_fields _ F now now' imgs HF) as (E1 & _ & E3).
    cbn zeta in E1, E3. split; [exact E1 |].
    intros p Hp. apply list_elem_of_lookup in Hp as [k Hk].
    pose proof (E3 k) as E. rewrite list_lookup_fmap, Hk in E.
    destruct (cluster_groups _ _ _ _ !! k) as [pf|] eqn:Ek; [| discriminate].
    cbn in E. injection E as ->.
    apply existsb_all; [exact (NE _ _ Ek) | reflexivity]. }
  destruct (Hconst true) as (A1 & A2). destruct (Hconst false) as (N1 & N2).
  cbn zeta in A1, A2, N1, N2.
  change (selectAllPersons imgs) with
    ((fun img : Image.t =>
      {| Image.id := Image.id img; Image.file := Image.file img;
         Image.img := Image.img img;
         Image.faces := (fun face => Face.with_selected face true) <$> Image.faces img;
         Image.manualRegions := Image.manualRegions img;
         Image.processed := None |}) <$> imgs).
  change (deselectAllPersons imgs) with
    ((fun img : Image.t =>
      {| Image.id := Image.id img; Image.file := Image.file img;
         Image.img := Image.img img;
         Image.faces := (fun face => Face.with_selected face false) <$> Image.faces img;
         Image.manualRegions := Image.manualRegions img;
         Image.processed := None |}) <$> imgs).
  repeat split; try assumption.
  - unfold selectedPersonsCount. rewrite count_all by exact A2.
    rewrite <- (length_fmap Person.faceIds), A1, length_fmap. reflexivity.
  - unfold selectedPersonsCount. apply count_none. exact N2.
  - unfold hasSelectedRegions. clear. induction imgs as [|img imgs IH]; [reflexivity |].
    cbn [fmap list_fmap existsb Image.faces Image.manualRegions]. rewrite IH. f_equal.
    assert (E : existsb Face.selected
                  ((fun face => Face.with_selected face false) <$> Image.faces img) = false).
    { induction (Image.faces img) as [|f fs IHf]; [reflexivity | exact IHf]. }
    rewrite E. reflexivity.
Qed.

(** ** Seeds and thresholds *)

Lemma cluster_inner_close (threshold : Q) (face : Face.t) (others : list Face.t) :
  forall personFaces assigned,
  exists added,
    (cluster_inner threshold face others personFaces assigned).1 = personFaces ++ added /\
    forall f, f ∈ added -> f ∈ others /\ close_to threshold face f = true.
Proof.
  induction others as [|o rest IH]; intros pf A; cbn [cluster_inner].
  - exists []. split; [by rewrite app_nil_r | intros f Hf; inversion Hf].
  - destruct (decide _).
    { destruct (IH pf A) as (added & E & H). exists added. split; [exact E |].
      intros f Hf. destruct (H f Hf). split; [by apply list_elem_of_further | assumption]. }
    destruct (distance_lt _ _) eqn:Ed.
    + destruct (IH (pf ++ [o]) ({[Face.id o]} ∪ A)) as (added & E & H).
      exists (o :: added). split; [rewrite E, <- app_assoc; reflexivity |].
      intros f Hf. apply elem_of_cons in Hf as [-> | Hf].
      * split; [apply list_elem_of_here | exact Ed].
      * destruct (H f Hf). split; [by apply list_elem_of_further | assumption].
    + destruct (IH pf A) as (added & E & H). exists added. split; [exact E |].
      intros f Hf. destruct (H f Hf). split; [by apply list_elem_of_further | assumption].
Qed.

Lemma cluster_groups_seed (threshold : Q) (faces todo : list Face.t) :
  forall assigned pf,
    pf ∈ cluster_groups threshold faces todo assigned ->
    exists seed rest,
      pf = seed :: rest /\ seed ∈ todo /\
      forall f, f ∈ rest -> f ∈ faces /\ close_to threshold seed f = true.
Proof.
  induction todo as [|face rest IH]; intros A pf Hpf; cbn [cluster_groups] in Hpf.
  - inversion Hpf.
  - destruct (decide _).
    { destruct (IH _ _ Hpf) as (seed & more & E & Hs & H).
      exists seed, more. split; [exact E |]. split; [by apply list_elem_of_further | exact H]. }
    destruct (cluster_inner_close threshold face faces [face] ({[Face.id face]} ∪ A))
      as (added & E & H).
    destruct (cluster_inner _ _ _ _ _) as [pf0 A'].
    apply elem_of_cons in Hpf as [-> | Hpf].
    + exists face, added. split; [exact E |]. split; [apply list_elem_of_here | exact H].
    + destruct (IH _ _ Hpf) as (seed & more & E' & Hs & H').
      exists seed, more. split; [exact E' |]. split; [by apply list_elem_of_further | exact H'].
Qed.

(** X6: every cluster starts with its seed, a face of the input, and
    every other member is a face of the input whose descriptor is
    strictly within the threshold of the seed's (members are compared
    with the seed only, not with each other); the thumbnail of the
    cluster is the seed's. *)
Theorem cluster_members_close_to_seed (now : nat -> Z) (threshold : Q)
    (faces : list Face.t) (p : Person.t) :
  p ∈ clusterFacesByPerson now faces threshold ->
  exists seed rest,
    Person.faces p = seed :: rest /\
    seed ∈ faces /\
    Person.thumbnail p = Face.thumbnail seed /\
    forall f, f ∈ rest -> f ∈ faces /\ close_to threshold seed f = true.
Proof.
  intros Hp. apply list_elem_of_lookup in Hp as [k Hk].
  rewrite clusters_lookup in Hk.
  destruct (_ !! k) as [pf|] eqn:Ek; [| discriminate]. injection Hk as <-.
  apply list_elem_of_lookup_2 in Ek.
  destruct (cluster_groups_seed _ _ _ _ _ Ek) as (seed & rest & -> & Hs & H).
  exists seed, rest. split; [reflexivity |]. split; [exact Hs |]. split; [reflexivity | exact H].
Qed.

Lemma cluster_members_close_to_seed_witness :
  exists seed rest,
    Person.faces (make_person 1730000000002 0 [SampleFaces.a; SampleFaces.b])
    = seed :: rest /\
    seed ∈ SampleFaces.all /\
    Person.thumbnail (make_person 1730000000002 0 [SampleFaces.a; SampleFaces.b])
    = Face.thumbnail seed /\
    forall f, f ∈ rest -> f ∈ SampleFaces.all /\ close_to default_threshold seed f = true.
Proof.
  apply (cluster_members_close_to_seed (Sample.still 1730000000002) default_threshold
           SampleFaces.all
           (make_person 1730000000002 0 [SampleFaces.a; SampleFaces.b])).
  vm_compute. left.
Defined.

Lemma distance_lt_nonpos (d : Distance) (threshold : Q) :
  (threshold <= 0)%Q -> distance_lt d threshold = false.
Proof.
  intros Ht. destruct d; [| reflexivity..]. cbn [distance_lt].
  rewrite (proj2 (lt_false_iff 0 threshold) Ht). reflexivity.
Qed.

Lemma cluster_inner_nonpos (threshold : Q) (face : Face.t) (others : list Face.t) :
  (threshold <= 0)%Q ->
  forall personFaces assigned,
    cluster_inner threshold face others personFaces assigned = (personFaces, assigned).
Proof.
  intros Ht. induction others as [|o rest IH]; intros pf A; [reflexivity |].
  cbn [cluster_inner]. destruct (decide _); [apply IH |].
  rewrite distance_lt_nonpos by exact Ht. apply IH.
Qed.

Lemma cluster_groups_nonpos (threshold : Q) (faces todo : list Face.t) :
  (threshold <= 0)%Q ->
  forall assigned,
    NoDup (Face.id <$> todo) ->
    (forall f, f ∈ todo -> Face.id f ∉ assigned) ->
    cluster_groups threshold faces todo assigned = (fun f => [f]) <$> todo.
Proof.
  intros Ht. induction todo as [|face rest IH]; intros A ND HA; [reflexivity |].
  cbn [cluster_groups fmap list_fmap]. cbn [fmap list_fmap] in ND.
  apply NoDup_cons in ND as [Hnew ND].
  rewrite decide_False by (apply HA; apply list_elem_of_here).
  rewrite cluster_inner_nonpos by exact Ht. f_equal.
  apply IH; [exact ND |].
  intros f Hf. rewrite elem_of_union, elem_of_singleton. intros [E | Hin].
  - apply Hnew. rewrite <- E. apply list_elem_of_fmap. eauto.
  - apply (HA f); [by apply list_elem_of_further | exact Hin].
Qed.

(** X7: with a threshold of 0 or less no two faces are merged, not even
    faces with equal descriptors: faces with pairwise different ids give
    one cluster per face, in input order. *)
Theorem nonpositive_threshold_never_merges (now : nat -> Z) (threshold : Q)
    (faces : list Face.t) :
  (threshold <= 0)%Q ->
  NoDup (Face.id <$> faces) ->
  let ps := clusterFacesByPerson now faces threshold in
  Person.faces <$> ps = (fun f => [f]) <$> faces /\
  length ps = length faces /\
  Person.isChild <$> ps = Face.isChild <$> faces /\
  Person.selected <$> ps = Face.selected <$> faces.
Proof.
  intros Ht ND. cbn zeta.
  assert (EG : cluster_groups threshold faces faces ∅ = (fun f => [f]) <$> faces)
    by (apply cluster_groups_nonpos; [exact Ht | exact ND | set_solver]).
  assert (EL : forall k,
            clusterFacesByPerson now faces threshold !! k
            = (fun f => make_person (now k) k [f]) <$> faces !! k).
  { intros k. rewrite clusters_lookup, EG, list_lookup_fmap.
    destruct (faces !! k); reflexivity. }
  repeat split.
  - apply list_eq. intros k. rewrite !list_lookup_fmap, EL.
    destruct (faces !! k); reflexivity.
  - rewrite clusterFacesByPerson_groups, length_imap, EG, length_fmap. reflexivity.
  - apply list_eq. intros k. rewrite !list_lookup_fmap, EL.
    destruct (faces !! k) as [f|]; [| reflexivity]. cbn [fmap option_fmap option_map].
    f_equal. unfold make_person. cbn [Person.isChild length]. rewrite filter_cons.
    destruct (decide (Face.isChild f = true)) as [E | E].
    + rewrite E. reflexivity.
    + apply not_true_is_false in E. rewrite E. reflexivity.
  - apply list_eq. intros k. rewrite !list_lookup_fmap, EL.
    destruct (faces !! k) as [f|]; [| reflexivity]. cbn. rewrite orb_false_r. reflexivity.
Qed.

Lemma nonpositive_threshold_never_merges_witness :
  let ps := clusterFacesByPerson (Sample.still 1730000000002) SampleFaces.all 0 in
  Person.faces <$> ps = (fun f => [f]) <$> SampleFaces.all /\
  length ps = length SampleFaces.all /\
  Person.isChild <$> ps = Face.isChild <$> SampleFaces.all /\
  Person.selected <$> ps = Face.selected <$> SampleFaces.all.
Proof.
  apply (nonpositive_threshold_never_merges (Sample.still 1730000000002) 0 SampleFaces.all).
  - vm_compute. discriminate.
  - cbn. repeat (apply NoDup_cons; split; [set_solver |]). apply NoDup_nil_2.
Defined.

(** ** The clustering as a greedy partition *)

Lemma filter_ext_in {A} (P Q : A -> Prop) `{forall x, Decision (P x)}
    `{forall x, Decision (Q x)} (l : list A) :
  (forall x, x ∈ l -> P x <-> Q x) -> filter P l = filter Q l.
Proof.
  induction l as [|a l IH]; intros HPQ; [reflexivity |].
  rewrite !filter_cons.
  assert (IH' : filter P l = filter Q l)
    by (apply IH; intros x Hx; apply HPQ; by apply list_elem_of_further).
  destruct (decide (P a)) as [p | np], (decide (Q a)) as [q | nq].
  - by rewrite IH'.
  - exfalso. apply nq, (HPQ a); [apply list_elem_of_here | exact p].
  - exfalso. apply np, (HPQ a); [apply list_elem_of_here | exact q].
  - exact IH'.
Qed.

Lemma NoDup_key_eq {A} (key : A -> string) (l : list A) (x y : A) :
  NoDup (key <$> l) -> x ∈ l -> y ∈ l -> key x = key y -> x = y.
Proof.
  intros ND Hx Hy E.
  apply list_elem_of_lookup in Hx as [i Hi]. apply list_elem_of_lookup in Hy as [j Hj].
  assert (i = j).
  { apply (proj1 (NoDup_alt _) ND i j (key x)); rewrite list_lookup_fmap.
    - rewrite Hi. reflexivity.
    - rewrite Hj, E. reflexivity. }
  subst j. congruence.
Qed.

(** Over a list with pairwise different ids the inner scan is a filter. *)
Lemma cluster_inner_filter (threshold : Q) (face : Face.t) (others : list Face.t) :
  NoDup (Face.id <$> others) ->
  forall personFaces assigned,
    let added :=
      filter (fun f => (Face.id f ∉ assigned) /\ close_to threshold face f = true) others in
    cluster_inner threshold face others personFaces assigned
    = (personFaces ++ added, list_to_set (Face.id <$> added) ∪ assigned).
Proof.
  induction others as [|o rest IH]; intros ND pf A; cbn zeta.
  - cbn. rewrite app_nil_r. f_equal. set_solver.
  - cbn [fmap list_fmap] in ND. apply NoDup_cons in ND as [Ho ND].
    cbn [cluster_inner]. rewrite filter_cons.
    destruct (decide (Face.id o ∈ A)) as [Hin | Hout].
    { rewrite decide_False by (intros [? _]; contradiction). apply (IH ND). }
    fold (close_to threshold face o).
    destruct (close_to threshold face o) eqn:Ec.
    + rewrite decide_True by (split; [exact Hout | reflexivity]).
      rewrite (IH ND). cbn zeta.
      assert (EF : filter (fun f => (Face.id f ∉ {[Face.id o]} ∪ A)
                                    /\ close_to threshold face f = true) rest
                   = filter (fun f => (Face.id f ∉ A) /\ close_to threshold face f = true) rest).
      { apply filter_ext_in. intros f Hf.
        assert (Face.id f <> Face.id o).
        { intros E. apply Ho. rewrite <- E. apply list_elem_of_fmap. eauto. }
        set_solver. }
      rewrite EF, <- app_assoc. cbn [app fmap list_fmap]. f_equal. set_solver.
    + rewrite decide_False by (intros [_ ?]; discriminate). apply (IH ND).
Qed.

(** Ids that are assigned already can as well be filtered out of the
    lists first. *)
Lemma cluster_inner_split (threshold : Q) (face : Face.t) (others : list Face.t)
    (A : gset string) :
  forall personFaces B,
    cluster_inner threshold face others personFaces (A ∪ B)
    = ((cluster_inner threshold face (filter (fun f => Face.id f ∉ A) others)
          personFaces B).1,
       A ∪ (cluster_inner threshold face (filter (fun f => Face.id f ∉ A) others)
              personFaces B).2).
Proof.
  induction others as [|o rest IH]; intros pf B; [reflexivity |].
  cbn [cluster_inner]. rewrite filter_cons.
  destruct (decide (Face.id o ∈ A ∪ B)) as [Hin | Hout].
  - destruct (decide (Face.id o ∉ A)) as [HA | HA]; [| apply IH].
    cbn [cluster_inner]. rewrite decide_True by set_solver. apply IH.
  - rewrite decide_True by set_solver. cbn [cluster_inner].
    rewrite decide_False by set_solver.
    destruct (distance_lt _ _); [| apply IH].
    replace ({[Face.id o]} ∪ (A ∪ B)) with (A ∪ ({[Face.id o]} ∪ B)) by set_solver.
    apply IH.
Qed.

Lemma cluster_groups_split (threshold : Q) (faces todo : list Face.t) (A : gset string) :
  forall B,
    cluster_groups threshold faces todo (A ∪ B)
    = cluster_groups threshold (filter (fun f => Face.id f ∉ A) faces)
        (filter (fun f => Face.id f ∉ A) todo) B.
Proof.
  induction todo as [|face rest IH]; intros B; [reflexivity |].
  cbn [cluster_groups]. rewrite filter_cons.
  destruct (decide (Face.id face ∈ A ∪ B)) as [Hin | Hout].
  - destruct (decide (Face.id face ∉ A)) as [HA | HA]; [| apply IH].
    cbn [cluster_groups]. rewrite decide_True by set_solver. apply IH.
  - rewrite decide_True by set_solver. cbn [cluster_groups].
    rewrite decide_False by set_solver.
    replace ({[Face.id face]} ∪ (A ∪ B)) with (A ∪ ({[Face.id face]} ∪ B)) by set_solver.
    rewrite cluster_inner_split.
    destruct (cluster_inner threshold face _ [face] _) as [pf B'].
    cbn [fst snd]. f_equal. apply IH.
Qed.

Lemma clusters_faces (now : nat -> Z) (threshold : Q) (faces : list Face.t) :
  Person.faces <$> clusterFacesByPerson now faces threshold
  = cluster_groups threshold faces faces ∅.
Proof.
  apply list_eq. intros k. rewrite list_lookup_fmap, clusters_lookup.
  destruct (_ !! k); reflexivity.
Qed.

(** X8: for faces with pairwise different ids the clustering is the
    greedy partition: the first cluster is the first face together with
    every later face within the threshold of it, in input order, and the
    other clusters are the clusters of the faces that remain. *)
Theorem clusters_greedy (now : nat -> Z) (threshold : Q) (f : Face.t) (rest : list Face.t) :
  NoDup (Face.id <$> f :: rest) ->
  Person.faces <$> clusterFacesByPerson now (f :: rest) threshold
  = (f :: filter (fun g => close_to threshold f g = true) rest)
    :: (Person.faces <$>
          clusterFacesByPerson now
            (filter (fun g => close_to threshold f g = false) rest) threshold).
Proof.
  intros ND. rewrite !clusters_faces.
  pose proof ND as ND'. cbn [fmap list_fmap] in ND'. apply NoDup_cons in ND' as [Hf NDr].
  assert (Hne : forall g, g ∈ rest -> Face.id g <> Face.id f).
  { intros g Hg E. apply Hf. rewrite <- E. apply list_elem_of_fmap. eauto. }
  cbn [cluster_groups]. rewrite decide_False by set_solver.
  rewrite (cluster_inner_filter threshold f (f :: rest) ND). cbn zeta.
  rewrite filter_cons, decide_False by set_solver.
  assert (EF : filter (fun g => (Face.id g ∉ ({[Face.id f]} ∪ ∅ : gset string))
                                /\ close_to threshold f g = true) rest
               = filter (fun g => close_to threshold f g = true) rest).
  { apply filter_ext_in. intros g Hg. specialize (Hne g Hg). set_solver. }
  rewrite EF. cbn [app]. f_equal.
  set (close := filter (fun g => close_to threshold f g = true) rest).
  set (A := (list_to_set (Face.id <$> close) ∪ ({[Face.id f]} ∪ ∅) : gset string)).
  replace A with (A ∪ ∅) by set_solver.
  rewrite cluster_groups_split.
  rewrite filter_cons, decide_False by (unfold A; set_solver).
  assert (ER : filter (fun g => Face.id g ∉ A) rest
               = filter (fun g => close_to threshold f g = false) rest).
  { apply filter_ext_in. intros g Hg. specialize (Hne g Hg). unfold A. split.
    - intros Hout. apply not_true_is_false. intros Ec. apply Hout.
      apply elem_of_union_l, elem_of_list_to_set, list_elem_of_fmap.
      exists g. split; [reflexivity |]. apply list_elem_of_filter. auto.
    - intros Ec Hin. apply elem_of_union in Hin as [Hin | Hin]; [| set_solver].
      apply elem_of_list_to_set, list_elem_of_fmap in Hin as (g' & E & Hg').
      apply list_elem_of_filter in Hg' as [Ec' Hg'].
      assert (g = g') by (apply (NoDup_key_eq Face.id rest); assumption).
      subst g'. congruence. }
  rewrite ER. reflexivity.
Qed.

Lemma clusters_greedy_witness :
  Person.faces <$> clusterFacesByPerson (Sample.still 1730000000002)
                     (SampleFaces.a :: [SampleFaces.b; SampleFaces.c]) default_threshold
  = (SampleFaces.a
       :: filter (fun g => close_to default_threshold SampleFaces.a g = true)
            [SampleFaces.b; SampleFaces.c])
    :: (Person.faces <$>
          clusterFacesByPerson (Sample.still 1730000000002)
            (filter (fun g => close_to default_threshold SampleFaces.a g = false)
               [SampleFaces.b; SampleFaces.c]) default_threshold).
Proof.
  apply (clusters_greedy (Sample.still 1730000000002) default_threshold SampleFaces.a
           [SampleFaces.b; SampleFaces.c]).
  cbn. repeat (apply NoDup_cons; split; [set_solver |]). apply NoDup_nil_2.
Defined.

(** ** Distances, ages and ids *)

Lemma sum_sq_sym (d1 d2 : list Q) :
  length d1 = length d2 ->
  forall s s', (s == s')%Q ->
    exists v v', sum_sq s d1 d2 = Some v /\ sum_sq s' d2 d1 = Some v' /\ (v == v')%Q.
Proof.
  revert d2. induction d1 as [|a d1 IH]; intros [|b d2] Hlen s s' Es; try discriminate.
  - exists s, s'. auto.
  - cbn [sum_sq]. apply IH; [cbn in Hlen; lia |]. rewrite Es. ring.
Qed.

Lemma sum_sq_self (d : list Q) :
  forall s, exists v, sum_sq s d d = Some v /\ (v == s)%Q.
Proof.
  induction d as [|a d IH]; intros s; cbn [sum_sq].
  - exists s. split; reflexivity.
  - destruct (IH (s + (a - a) * (a - a))%Q) as (v & E & Ev).
    exists v. split; [exact E |]. rewrite Ev. ring.
Qed.

Lemma lt_comp (a a' b b' : Q) : (a == a')%Q -> (b == b')%Q -> JS.lt a b = JS.lt a' b'.
Proof.
  intros Ea Eb. destruct (JS.lt a' b') eqn:E.
  - apply lt_true_iff. apply lt_true_iff in E. rewrite Ea, Eb. exact E.
  - apply lt_false_iff. apply lt_false_iff in E. rewrite Ea, Eb. exact E.
Qed.

(** X9: the distance test does not depend on the order of two
    descriptors of the same length, and a descriptor is within every
    positive threshold of itself (and within no other). *)
Theorem distance_test_symmetric (d1 d2 : list Q) (threshold : Q) :
  length d1 = length d2 ->
  distance_lt (faceDistance (Some d1) (Some d2)) threshold
  = distance_lt (faceDistance (Some d2) (Some d1)) threshold /\
  distance_lt (faceDistance (Some d1) (Some d1)) threshold = JS.lt 0 threshold.
Proof.
  intros Hlen. split.
  - destruct (sum_sq_sym d1 d2 Hlen 0 0 ltac:(reflexivity)) as (v & v' & E & E' & Ev).
    unfold faceDistance. rewrite E, E'. cbn [distance_lt]. f_equal.
    apply lt_comp; [exact Ev | reflexivity].
  - destruct (sum_sq_self d1 0) as (v & E & Ev).
    unfold faceDistance. rewrite E. cbn [distance_lt].
    destruct (JS.lt 0 threshold) eqn:Et; [| reflexivity]. cbn.
    apply lt_true_iff. apply lt_true_iff in Et. rewrite Ev. nra.
Qed.

Lemma distance_test_symmetric_witness :
  distance_lt (faceDistance (Some [0; 0]%Q) (Some [3 # 10; 0]%Q)) default_threshold
  = distance_lt (faceDistance (Some [3 # 10; 0]%Q) (Some [0; 0]%Q)) default_threshold /\
  distance_lt (faceDistance (Some [0; 0]%Q) (Some [0; 0]%Q)) default_threshold
  = JS.lt 0 default_threshold.
Proof.
  apply (distance_test_symmetric [0; 0]%Q [3 # 10; 0]%Q default_threshold).
  reflexivity.
Defined.

Lemma age_sum_sumZ (fs : list Face.t) :
  forall acc,
    foldl (fun sum f => (sum + Face.age f)%Z) acc fs = (acc + sumZ (Face.age <$> fs))%Z.
Proof.
  induction fs as [|f fs IH]; intros acc; cbn [foldl fmap list_fmap].
  - cbn. lia.
  - rewrite IH, sumZ_cons. lia.
Qed.

(** X10: the average age shown for a cluster lies between the ages of
    its youngest and its oldest member. *)
Theorem cluster_avgAge_between (now : nat -> Z) (threshold : Q) (faces : list Face.t)
    (p : Person.t) (lo hi : Z) :
  p ∈ clusterFacesByPerson now faces threshold ->
  (forall f, f ∈ Person.faces p -> (lo <= Face.age f <= hi)%Z) ->
  (lo <= Person.avgAge p <= hi)%Z.
Proof.
  intros Hp Hage. apply list_elem_of_lookup in Hp as [k Hk].
  rewrite clusters_lookup in Hk.
  destruct (_ !! k) as [pf|] eqn:Ek; [| discriminate]. injection Hk as <-.
  destruct (cluster_groups_members threshold faces) as (NE & _). cbn zeta in NE.
  specialize (NE _ _ Ek). cbn [Person.faces make_person] in Hage.
  unfold make_person. cbn [Person.avgAge].
  rewrite age_sum_sumZ, Z.add_0_l.
  fold (rounded_mean (sumZ (Face.age <$> pf)) (Z.of_nat (length pf))).
  assert (Hn : (0 < Z.of_nat (length pf))%Z) by (destruct pf; [congruence | cbn; lia]).
  rewrite rounded_mean_formula by exact Hn.
  pose proof (sumZ_bounds Face.age pf lo hi Hage) as [Hlo Hhi].
  split.
  - apply Z.div_le_lower_bound; nia.
  - apply Z.lt_succ_r. apply Z.div_lt_upper_bound; nia.
Qed.

Lemma cluster_avgAge_between_witness :
  (12 <= Person.avgAge (make_person 1730000000002 0 [SampleFaces.a; SampleFaces.b]) <= 19)%Z.
Proof.
  apply (cluster_avgAge_between (Sample.still 1730000000002) default_threshold SampleFaces.all
           (make_person 1730000000002 0 [SampleFaces.a; SampleFaces.b]) 12 19).
  - vm_compute. left.
  - intros f Hf. cbn in Hf.
    apply elem_of_cons in Hf as [-> | Hf]; [cbn; lia |].
    apply elem_of_cons in Hf as [-> | Hf]; [cbn; lia |].
    inversion Hf.
Defined.

(** ** Image utilities *)

Lemma Math_round_bounds (q : Q) :
  (inject_Z (JS.Math_round q) <= q + (1 # 2) /\
   q + (1 # 2) < inject_Z (JS.Math_round q) + 1)%Q.
Proof.
  unfold JS.Math_round. split.
  - apply Qfloor_le.
  - pose proof (Qlt_floor (q + (1 # 2))) as H.
    rewrite inject_Z_plus in H. exact H.
Qed.


Lemma Math_round_ge (q : Q) (z : Z) : (inject_Z z <= q)%Q -> (z <= JS.Math_round q)%Z.
Proof.
  intros H. destruct (Math_round_bounds q) as [_ Hhi].
  assert (Hq : (inject_Z z < inject_Z (JS.Math_round q + 1))%Q)
    by (rewrite inject_Z_plus; change (inject_Z 1) with 1%Q; lra).
  rewrite <- Zlt_Qlt in Hq. lia.
Qed.




(** X13: the crop of a face thumbnail lies within the canvas, and for a
    face box inside the canvas and a padding of at least one pixel it is
    not empty-sided and covers the whole box. *)
Theorem extractFaceThumbnail_covers_box (canvas : Canvas) (box : Box) (padding : Q) :
  within_bounds box (inject_Z (cv_width canvas)) (inject_Z (cv_height canvas)) ->
  (0 <= box_width box)%Q -> (0 <= box_height box)%Q -> (1 <= padding)%Q ->
  let t := extractFaceThumbnail canvas box padding in
  (0 <= thumb_x t)%Z /\ (0 <= thumb_y t)%Z /\
  (0 <= thumb_width t)%Z /\ (0 <= thumb_height t)%Z /\
  (thumb_x t + thumb_width t <= cv_width canvas)%Z /\
  (thumb_y t + thumb_height t <= cv_height canvas)%Z /\
  (inject_Z (thumb_x t) <= box_x box)%Q /\
  (box_x box + box_width box <= inject_Z (thumb_x t + thumb_width t))%Q /\
  (inject_Z (thumb_y t) <= box_y box)%Q /\
  (box_y box + box_height box <= inject_Z (thumb_y t + thumb_height t))%Q.
Proof.
  intros (Hx & Hy & HW & HH) Hw Hh Hp. cbn zeta. unfold extractFaceThumbnail.
  cbn [thumb_x thumb_y thumb_width thumb_height].
  assert (axis : forall (b s : Q) (C : Z),
    (0 <= b)%Q -> (0 <= s)%Q -> (b + s <= inject_Z C)%Q ->
    let x := Z.max 0 (JS.Math_round (b - padding)) in
    let w := Z.min (JS.Math_round (s + padding * 2)) (C - x) in
    (0 <= x)%Z /\ (0 <= w)%Z /\ (x + w <= C)%Z /\
    (inject_Z x <= b)%Q /\ (b + s <= inject_Z (x + w))%Q).
  { intros b s C Hb Hs HC x w.
    destruct (Math_round_bounds (b - padding)) as [R1 R2].
    destruct (Math_round_bounds (s + padding * 2)) as [S1 S2].
    assert (Hx0 : (0 <= x)%Z) by (unfold x; lia).
    assert (HxQ : (inject_Z x <= b)%Q).
    { unfold x. destruct (Z.max_spec 0 (JS.Math_round (b - padding))) as [[_ ->] | [_ ->]].
      - lra.
      - change (inject_Z 0) with 0%Q. exact Hb. }
    assert (HxC : (x <= C)%Z) by (rewrite Zle_Qle; lra).
    assert (Hr0 : (0 <= JS.Math_round (s + padding * 2))%Z)
      by (apply Math_round_ge; change (inject_Z 0) with 0%Q; lra).
    assert (HxR : (inject_Z (JS.Math_round (b - padding)) <= inject_Z x)%Q)
      by (rewrite <- Zle_Qle; unfold x; lia).
    repeat split; try exact Hx0; try exact HxQ; try (unfold w; lia).
    unfold w.
    destruct (Z.min_spec (JS.Math_round (s + padding * 2)) (C - x)) as [[_ ->] | [_ ->]].
    - rewrite inject_Z_plus. lra.
    - replace (x + (C - x))%Z with C by lia. exact HC. }
  destruct (axis (box_x box) (box_width box) (cv_width canvas) Hx Hw HW)
    as (X1 & X2 & X3 & X4 & X5).
  destruct (axis (box_y box) (box_height box) (cv_height canvas) Hy Hh HH)
    as (Y1 & Y2 & Y3 & Y4 & Y5).
  cbn zeta in *. repeat split; assumption.
Qed.

Lemma extractFaceThumbnail_covers_box_witness :
  let t := extractFaceThumbnail SampleDetection.blank Sample.box40 20 in
  (0 <= thumb_x t)%Z /\ (0 <= thumb_y t)%Z /\
  (0 <= thumb_width t)%Z /\ (0 <= thumb_height t)%Z /\
  (thumb_x t + thumb_width t <= cv_width SampleDetection.blank)%Z /\
  (thumb_y t + thumb_height t <= cv_height SampleDetection.blank)%Z /\
  (inject_Z (thumb_x t) <= box_x Sample.box40)%Q /\
  (box_x Sample.box40 + box_width Sample.box40 <= inject_Z (thumb_x t + thumb_width t))%Q /\
  (inject_Z (thumb_y t) <= box_y Sample.box40)%Q /\
  (box_y Sample.box40 + box_height Sample.box40 <= inject_Z (thumb_y t + thumb_height t))%Q.
Proof.
  apply (extractFaceThumbnail_covers_box SampleDetection.blank Sample.box40 20).
  - unfold within_bounds. repeat split; vm_compute; discriminate.
  - vm_compute. discriminate.
  - vm_compute. discriminate.
  - vm_compute. discriminate.
Defined.

(** ** The working set: removal, upload and selection *)

Lemma find_some_elem {A} (f : A -> bool) (l : list A) (x : A) :
  List.find f l = Some x -> x ∈ l /\ f x = true.
Proof. intros H. apply find_some in H as [H ?]. split; [by apply list_elem_of_In | done]. Qed.

Lemma find_none_elem {A} (f : A -> bool) (l : list A) :
  List.find f l = None -> forall x, x ∈ l -> f x = false.
Proof. intros H x Hx. apply (find_none f l H). by apply list_elem_of_In. Qed.

(** X14: removing an image drops every entry with that id and nothing
    else.  A selection that names an image of the set keeps doing so: a
    selection on another image stays, a selection on the removed image
    moves to an image that is left, and it is dropped only when no image
    is left. *)
Theorem removeImage_selection (st : AppState) (imageId : string) :
  selection_valid st ->
  let st' := removeImage st imageId in
  (forall img, img ∈ images st' <-> img ∈ images st /\ Image.id img <> imageId) /\
  selection_valid st' /\
  (selectedImageId st <> Some imageId -> selectedImageId st' = selectedImageId st) /\
  (selectedImageId st <> None -> images st' <> [] -> selectedImageId st' <> None).
Proof.
  intros Hv. cbn zeta. unfold removeImage. cbn [images selectedImageId].
  assert (Hmem : forall img,
            img ∈ filter (fun img => Image.id img <> imageId) (images st)
            <-> img ∈ images st /\ Image.id img <> imageId).
  { intros img. rewrite list_elem_of_filter. tauto. }
  split; [exact Hmem |].
  unfold selection_valid in *. cbn [images selectedImageId].
  destruct (decide (selectedImageId st = Some imageId)) as [Esel | Nsel].
  - rewrite Esel in Hv. repeat split.
    + destruct (1 <? length (images st))%nat; [| exact I].
      destruct (List.find _ _) as [img|] eqn:Ef; [| exact I]. cbn.
      apply find_some_elem in Ef as [Hin Hid].
      apply list_elem_of_fmap. exists img. split; [reflexivity |].
      apply Hmem. split; [exact Hin |].
      apply negb_true_iff in Hid. by apply String.eqb_neq.
    + intros H. contradiction.
    + intros _ Hne.
      destruct (filter _ (images st)) as [|img1 l] eqn:Efl; [congruence |].
      assert (H1 : img1 ∈ images st /\ Image.id img1 <> imageId)
        by (apply Hmem; apply list_elem_of_here).
      destruct H1 as [H1 N1].
      apply list_elem_of_fmap in Hv as (img0 & E0 & H0).
      assert (Hlen : (1 < length (images st))%nat).
      { destruct (images st) as [|a [|b l']]; cbn; try lia.
        - inversion H1.
        - apply list_elem_of_singleton in H0, H1. congruence. }
      apply Nat.ltb_lt in Hlen. rewrite Hlen.
      destruct (List.find _ _) as [img|] eqn:Ef; [discriminate |].
      pose proof (find_none_elem _ _ Ef img1 H1) as Hf.
      apply negb_false_iff, String.eqb_eq in Hf. contradiction.
  - repeat split; try tauto.
    destruct (selectedImageId st) as [sid|]; [| exact I].
    apply list_elem_of_fmap in Hv as (img & E & Hin).
    apply list_elem_of_fmap. exists img. split; [exact E |].
    apply Hmem. split; [exact Hin | congruence].
Qed.

Lemma removeImage_selection_witness :
  let st' := removeImage SampleState.idle "img-1730000000000-0" in
  (forall img, img ∈ images st'
     <-> img ∈ images SampleState.idle /\ Image.id img <> "img-1730000000000-0") /\
  selection_valid st' /\
  (selectedImageId SampleState.idle <> Some "img-1730000000000-0" ->
     selectedImageId st' = selectedImageId SampleState.idle) /\
  (selectedImageId SampleState.idle <> None -> images st' <> [] ->
     selectedImageId st' <> None).
Proof.
  apply (removeImage_selection SampleState.idle "img-1730000000000-0").
  cbn. left.
Defined.

(** X15: an upload keeps a valid selection valid.  A selection made
    before stays; with none, the first image of the batch whose
    processing completed is selected (not the first file), and nothing is
    selected when no image of the batch completed.  In every case the
    tool is no longer marked busy. *)
Theorem handleFilesSelected_selection (w : World) (st : AppState) (files : list File) :
  modelsLoaded st = true ->
  selection_valid st ->
  let st' := handleFilesSelected w st files in
  selection_valid st' /\
  (selectedImageId st <> None -> selectedImageId st' = selectedImageId st) /\
  (selectedImageId st = None ->
     selectedImageId st' = Image.id <$> head (completed_entries w true 0 files)) /\
  isProcessing st' = false.
Proof.
  intros Hm Hv. cbn zeta. unfold handleFilesSelected. rewrite Hm. cbn [negb].
  rewrite files_loop_spec. cbn [app].
  unfold selection_valid in *. cbn [images selectedImageId isProcessing].
  destruct (completed_entries w true 0 files) as [|first rest] eqn:Ec;
    destruct (selectedImageId st) as [sid|] eqn:Es; cbn [head fmap option_fmap option_map];
    repeat split; try congruence; try exact I.
  - rewrite app_nil_r. exact Hv.
  - rewrite fmap_app. apply elem_of_app. left. exact Hv.
  - rewrite fmap_app. apply elem_of_app. right. cbn. left.
Qed.

Lemma handleFilesSelected_selection_witness :
  let files := [SampleBatch.first; SampleBatch.second] in
  let st' := handleFilesSelected SampleBatch.world SampleBatch.empty files in
  selection_valid st' /\
  (selectedImageId SampleBatch.empty <> None ->
     selectedImageId st' = selectedImageId SampleBatch.empty) /\
  (selectedImageId SampleBatch.empty = None ->
     selectedImageId st'
     = Image.id <$> head (completed_entries SampleBatch.world true 0 files)) /\
  isProcessing st' = false.
Proof.
  apply (handleFilesSelected_selection SampleBatch.world SampleBatch.empty
           [SampleBatch.first; SampleBatch.second]).
  - reflexivity.
  - exact I.
Defined.

Lemma filter_all {A} (P : A -> Prop) `{forall x, Decision (P x)} (l : list A) :
  (forall x, x ∈ l -> P x) -> filter P l = l.
Proof.
  induction l as [|a l IH]; intros HP; [reflexivity |].
  rewrite filter_cons, decide_True by (apply HP; apply list_elem_of_here).
  f_equal. apply IH. intros x Hx. apply HP. by apply list_elem_of_further.
Qed.

Lemma totalManualRegions_sum (imgs : list Image.t) :
  forall acc,
    foldl (fun sum img => sum + length (Image.manualRegions img)) acc imgs
    = acc + sum_list ((fun img => length (Image.manualRegions img)) <$> imgs).
Proof.
  induction imgs as [|img imgs IH]; intros acc; cbn [foldl fmap list_fmap sum_list].
  - lia.
  - rewrite IH. cbn. lia.
Qed.

(** X16: drawing a region and deleting it again is a round trip on the
    regions: if no region carries the id the new region gets, then after
    the pointer-up that ends a drawing and the removal of that id from
    the selected image every image has the faces and the manual regions
    it had, in the same order; images other than the selected one are
    untouched, and the count of manual regions is what it was. *)
Theorem draw_then_remove_restores (now : Z) (st : AppState) (sel : Image.t) :
  selectedImage st = Some sel ->
  (forall img m, img ∈ images st -> m ∈ Image.manualRegions img ->
     Manual.id m <> "manual-" +:+ pretty now) ->
  let st' := handleCanvasMouseUp now st in
  let imgs' := removeManualRegion (images st') (Image.id sel) ("manual-" +:+ pretty now) in
  length imgs' = length (images st) /\
  (forall k img, images st !! k = Some img ->
     exists img',
       imgs' !! k = Some img' /\
       Image.id img' = Image.id img /\ Image.file img' = Image.file img /\
       Image.img img' = Image.img img /\ Image.faces img' = Image.faces img /\
       Image.manualRegions img' = Image.manualRegions img /\
       (Image.id img <> Image.id sel -> img' = img)) /\
  totalManualRegions imgs' = totalManualRegions (images st).
Proof.
  intros Hsel Hfresh. cbn zeta.
  assert (Hgen : forall imgs1,
    length imgs1 = length (images st) ->
    (forall k img, images st !! k = Some img ->
       exists img1, imgs1 !! k = Some img1 /\
         Image.id img1 = Image.id img /\ Image.file img1 = Image.file img /\
         Image.img img1 = Image.img img /\ Image.faces img1 = Image.faces img /\
         (Image.id img <> Image.id sel -> img1 = img) /\
         (Image.manualRegions img1 = Image.manualRegions img \/
          exists r, Image.manualRegions img1
                    = Image.manualRegions img
                        ++ [Manual.mk ("manual-" +:+ pretty now) r true true])) ->
    let imgs' := removeManualRegion imgs1 (Image.id sel) ("manual-" +:+ pretty now) in
    length imgs' = length (images st) /\
    (forall k img, images st !! k = Some img ->
       exists img',
         imgs' !! k = Some img' /\
         Image.id img' = Image.id img /\ Image.file img' = Image.file img /\
         Image.img img' = Image.img img /\ Image.faces img' = Image.faces img /\
         Image.manualRegions img' = Image.manualRegions img /\
         (Image.id img <> Image.id sel -> img' = img))).
  { intros imgs1 Hlen H1. cbn zeta. unfold removeManualRegion.
    split; [rewrite length_fmap; exact Hlen |].
    intros k img Hk. destruct (H1 k img Hk) as (img1 & Hk1 & Eid & Efile & Eimg & Ef & Eo & Em).
    rewrite list_lookup_fmap, Hk1. cbn [fmap option_fmap option_map].
    eexists. split; [reflexivity |].
    assert (Hin : img ∈ images st) by (eapply list_elem_of_lookup_2; exact Hk).
    destruct (String.eqb_spec (Image.id img1) (Image.id sel)) as [E | NE]; cbn [negb].
    - cbn. repeat split; try assumption; [| intros N; congruence].
      destruct Em as [-> | [r ->]].
      + apply filter_all. intros m Hm. exact (Hfresh img m Hin Hm).
      + rewrite filter_app, filter_cons, decide_False by (cbn; congruence).
        rewrite filter_nil, app_nil_r.
        apply filter_all. intros m Hm. exact (Hfresh img m Hin Hm).
    - assert (img1 = img) by (apply Eo; congruence). subst img1.
      repeat split. }
  assert (Hmid : length (images (handleCanvasMouseUp now st)) = length (images st) /\
    forall k img, images st !! k = Some img ->
       exists img1, images (handleCanvasMouseUp now st) !! k = Some img1 /\
         Image.id img1 = Image.id img /\ Image.file img1 = Image.file img /\
         Image.img img1 = Image.img img /\ Image.faces img1 = Image.faces img /\
         (Image.id img <> Image.id sel -> img1 = img) /\
         (Image.manualRegions img1 = Image.manualRegions img \/
          exists r, Image.manualRegions img1
                    = Image.manualRegions img
                        ++ [Manual.mk ("manual-" +:+ pretty now) r true true])).
  { assert (Hsame : forall k img, images st !! k = Some img ->
       exists img1, images st !! k = Some img1 /\
         Image.id img1 = Image.id img /\ Image.file img1 = Image.file img /\
         Image.img img1 = Image.img img /\ Image.faces img1 = Image.faces img /\
         (Image.id img <> Image.id sel -> img1 = img) /\
         (Image.manualRegions img1 = Image.manualRegions img \/
          exists r, Image.manualRegions img1
                    = Image.manualRegions img
                        ++ [Manual.mk ("manual-" +:+ pretty now) r true true]))
      by (intros k img Hk; exists img; repeat split; auto).
    unfold handleCanvasMouseUp. rewrite Hsel.
    destruct (isDrawing st); [| split; [reflexivity | exact Hsame]].
    destruct (currentRect st) as [r|]; [| split; [reflexivity | exact Hsame]].
    destruct (JS.lt 20 (box_width r) && JS.lt 20 (box_height r));
      [| split; [reflexivity | exact Hsame]].
    cbn [with_drawing with_images images]. split; [apply length_fmap |].
    intros k img Hk. rewrite list_lookup_fmap, Hk. cbn [fmap option_fmap option_map].
    eexists. split; [reflexivity |].
    destruct (String.eqb_spec (Image.id img) (Image.id sel)) as [E | NE]; cbn [negb].
    - cbn. repeat split; try (intros; congruence). right. exists r. reflexivity.
    - repeat split; auto. }
  destruct Hmid as [Hlen Hmid].
  destruct (Hgen _ Hlen Hmid) as [L H]. cbn zeta in L, H.
  split; [exact L |]. split; [exact H |].
  unfold totalManualRegions. rewrite !totalManualRegions_sum. f_equal. f_equal.
  apply list_eq. intros k. rewrite !list_lookup_fmap.
  destruct (images st !! k) as [img|] eqn:Ek.
  - destruct (H k img Ek) as (img' & E1 & _ & _ & _ & _ & E2 & _).
    rewrite E1. cbn. rewrite E2. reflexivity.
  - apply lookup_ge_None in Ek. rewrite <- L in Ek. apply lookup_ge_None in Ek.
    rewrite Ek. reflexivity.
Qed.

Lemma draw_then_remove_restores_witness :
  let st :=
    handleCanvasMouseMove JS.binary64 (SampleState.drawing_from 10 10)
      (Sample.pointer 50 60) in
  let st' := handleCanvasMouseUp 1730000000001 st in
  let imgs' := removeManualRegion (images st') (Image.id SampleState.entry)
                 ("manual-" +:+ pretty 1730000000001%Z) in
  length imgs' = length (images st) /\
  (forall k img, images st !! k = Some img ->
     exists img',
       imgs' !! k = Some img' /\
       Image.id img' = Image.id img /\ Image.file img' = Image.file img /\
       Image.img img' = Image.img img /\ Image.faces img' = Image.faces img /\
       Image.manualRegions img' = Image.manualRegions img /\
       (Image.id img <> Image.id SampleState.entry -> img' = img)) /\
  totalManualRegions imgs' = totalManualRegions (images st).
Proof.
  apply (draw_then_remove_restores 1730000000001
           (handleCanvasMouseMove JS.binary64 (SampleState.drawing_from 10 10)
              (Sample.pointer 50 60))
           SampleState.entry).
  - reflexivity.
  - intros img m Hin Hm. cbn in Hin. apply list_elem_of_singleton in Hin. subst img.
    cbn in Hm. inversion Hm.
Defined.

(** ** Whole drag sessions *)

Section DragSessions.
Local Open Scope Q_scope.




End DragSessions.


(** What the pointer-down on a region leaves. *)
Lemma down_spec (st : AppState) (e : MouseEvent) (ty : RegionType) (id : string)
    (act : Action) :
  let st1 := handleRegionMouseDown st e ty id act in
  images st1 = images st /\ selectedImageId st1 = selectedImageId st /\
  canvasRef st1 = canvasRef st /\
  (st1 = st \/
   exists sel rect b,
     selectedImage st = Some sel /\ canvasRef st = Some rect /\
     find_region sel ty id = Some b /\
     draggingRef st1
     = Some {| drag_type := ty; drag_id := id; action := act;
               offset :=
                 {| pt_x := (pt_x (pointer_coords e rect
                                     (inject_Z (img_width (Image.img sel)))
                                     (inject_Z (img_height (Image.img sel))))
                             - box_x b)%Q;
                    pt_y := (pt_y (pointer_coords e rect
                                     (inject_Z (img_width (Image.img sel)))
                                     (inject_Z (img_height (Image.img sel))))
                             - box_y b)%Q |};
               initialBox := b; currentBox := b;
               imgWidth := inject_Z (img_width (Image.img sel));
               imgHeight := inject_Z (img_height (Image.img sel)) |}).
Proof.
  cbn zeta. unfold handleRegionMouseDown.
  destruct (selectedImage st) as [sel|] eqn:Es; [| auto].
  destruct (canvasRef st) as [rect|] eqn:Ec; [| rewrite Ec; auto].
  destruct (find_region sel ty id) as [b|] eqn:Er; [| rewrite Ec; auto].
  cbn [with_dragging images selectedImageId canvasRef draggingRef].
  conj_split; try reflexivity; try assumption. right. exists sel, rect, b. auto.
Qed.




(** A box is not changed with respect to itself. *)
Lemma box_changed_same (b : Box) : box_changed b b = false.
Proof.
  unfold box_changed. rewrite !(proj2 (Qeq_bool_iff _ _) (Qeq_refl _)). reflexivity.
Qed.

(** X18: a press on a handle of a region (the move handle or any resize
    handle) that is released before any pointer move arrives changes no
    image: no box is rewritten and no processed output is invalidated;
    the session is over and the selection is kept.  The same holds for a
    press that starts no session. *)
Theorem press_and_release_changes_nothing (st : AppState) (e : MouseEvent)
    (ty : RegionType) (id : string) (act : Action) :
  draggingRef st = None ->
  let st' := drag_session st e ty id act [] in
  images st' = images st /\ draggingRef st' = None /\
  selectedImageId st' = selectedImageId st.
Proof.
  intros Hidle. cbn zeta. unfold drag_session. cbn [foldl].
  destruct (down_spec st e ty id act) as (D1 & D2 & D3 & [Efail | Hok]); cbn zeta in *.
  { rewrite Efail. unfold handleGlobalMouseUp. rewrite Hidle. auto. }
  destruct Hok as (sel & rect & b & Es & Ec & Eb & Ed).
  unfold handleGlobalMouseUp. rewrite Ed.
  cbn [currentBox initialBox images draggingRef selectedImageId].
  rewrite box_changed_same. auto.
Qed.

Lemma press_and_release_changes_nothing_witness :
  let st' := drag_session SampleDrag.ready (Sample.pointer 20 20) face_region "face-1-1"
               (resize "se") [] in
  images st' = images SampleDrag.ready /\ draggingRef st' = None /\
  selectedImageId st' = selectedImageId SampleDrag.ready.
Proof.
  apply (press_and_release_changes_nothing SampleDrag.ready (Sample.pointer 20 20)
           face_region "face-1-1" (resize "se")).
  reflexivity.
Defined.

(** ** Pixelation twice *)









(** ** Processing *)

Lemma blur_step_completes (render : Renderer) (blurType : BlurType) (c : Canvas)
    (box : Box) :
  (1 <= box_width box)%Q -> (1 <= box_height box)%Q ->
  (match blurType with
   | gaussian => applyGaussianBlur render c box
   | pixel => applyPixelation c box
   end).2 = None.
Proof.
  intros Hw Hh.
  assert (Hrw : (1 <= JS.Math_round (box_width box))%Z)
    by (apply Math_round_ge; exact Hw).
  assert (Hrh : (1 <= JS.Math_round (box_height box))%Z)
    by (apply Math_round_ge; exact Hh).
  destruct blurType.
  - unfold applyGaussianBlur, rounded_box.
    set (w := JS.Math_round (box_width box)) in *.
    set (h := JS.Math_round (box_height box)) in *.
    assert (Hqw : (1 <= inject_Z w)%Q) by (rewrite <- (Zle_Qle 1); exact Hrw).
    assert (Hqh : (1 <= inject_Z h)%Q) by (rewrite <- (Zle_Qle 1); exact Hrh).
    replace (JS.lt (inject_Z w / 2 + 10) 0) with false.
    2:{ symmetry. apply lt_false_iff.
        change (inject_Z w / 2)%Q with (inject_Z w * (1 # 2))%Q. lra. }
    replace (JS.lt (inject_Z h / 2 + 10) 0) with false.
    2:{ symmetry. apply lt_false_iff.
        change (inject_Z h / 2)%Q with (inject_Z h * (1 # 2))%Q. lra. }
    reflexivity.
  - unfold applyPixelation, rounded_box.
    assert (Hw0 : (0 < JS.Math_round (box_width box))%Z) by lia.
    assert (Hh0 : (0 < JS.Math_round (box_height box))%Z) by lia.
    destruct (getImageData_spec c (JS.Math_round (box_x box)) (JS.Math_round (box_y box))
                _ _ Hw0 Hh0) as (d & -> & _).
    reflexivity.
Qed.

Lemma blur_loop_completes (render : Renderer) (blurType : BlurType)
    (selectedFaces : list Region) :
  (forall f, f ∈ selectedFaces ->
     (1 <= box_width (region_box f))%Q /\ (1 <= box_height (region_box f))%Q) ->
  forall c, (blur_loop render blurType selectedFaces c).2 = None.
Proof.
  induction selectedFaces as [|face rest IH]; intros Hbox c; [reflexivity |].
  cbn [blur_loop].
  destruct (Hbox face (list_elem_of_here _ _)) as [Hw Hh].
  match goal with
  | |- (let '(c', thrown) := ?o in _).2 = _ => set (out := o)
  end.
  assert (Hstep : out.2 = None)
    by (subst out; apply blur_step_completes; assumption).
  clearbody out. destruct out as [c' thrown]. cbn [snd] in Hstep. subst thrown.
  apply IH. intros f Hf. apply Hbox. by apply list_elem_of_further.
Qed.

(** The loop over the images when no call throws. *)
Lemma process_loop_completes (render : Renderer) (toDataURL : Canvas -> string)
    (blurType : BlurType) (n : nat) (todo : list Image.t) :
  (forall img f, img ∈ todo -> f ∈ allRegions img -> region_selected f = true ->
     (1 <= box_width (region_box f))%Q /\ (1 <= box_height (region_box f))%Q) ->
  forall i processedImages status,
  exists status',
    process_loop render toDataURL blurType n i todo processedImages status
    = (processedImages ++
         (((fun imgData =>
            {| Image.id := Image.id imgData; Image.file := Image.file imgData;
               Image.img := Image.img imgData; Image.faces := Image.faces imgData;
               Image.manualRegions := Image.manualRegions imgData;
               Image.processed :=
                 Some (toDataURL
                         (applyBlurToFaces render (imageToCanvas (Image.img imgData))
                            (allRegions imgData) blurType).1) |}) : Image.t -> Image.t)
            <$> todo),
       status', None).
Proof.
  induction todo as [|imgData rest IH]; intros Hbox i acc status.
  - exists status. cbn. rewrite app_nil_r. reflexivity.
  - cbn [process_loop fmap list_fmap].
    assert (Hnone : (applyBlurToFaces render (imageToCanvas (Image.img imgData))
                       (allRegions imgData) blurType).2 = None).
    { unfold applyBlurToFaces. apply blur_loop_completes.
      intros f Hf. apply list_elem_of_filter in Hf as [Hs Hf].
      apply (Hbox imgData f); [apply list_elem_of_here | exact Hf | exact Hs]. }
    destruct (applyBlurToFaces render (imageToCanvas (Image.img imgData))
                (allRegions imgData) blurType) as [canvas' thrown].
    cbn [fst snd] in *. subst thrown.
    destruct (IH (fun img f Hi => Hbox img f (list_elem_of_further _ _ _ Hi)) (S i)
                (acc ++ [{| Image.id := Image.id imgData; Image.file := Image.file imgData;
                            Image.img := Image.img imgData;
                            Image.faces := Image.faces imgData;
                            Image.manualRegions := Image.manualRegions imgData;
                            Image.processed := Some (toDataURL canvas') |}])
                (processing_status (file_name (Image.file imgData)) i n))
      as (status' & ->).
    exists status'. rewrite <- app_assoc. reflexivity.
Qed.

(** X20: when every selected region is at least one pixel wide and
    high, processing completes: the tool is no longer busy, every image
    keeps its id, file, faces and regions and gets an output, and the
    output of an image is the encoding of a canvas that equals the source
    image at every pixel outside the footprints of that image's selected
    regions (an image with nothing selected is output as it is).  With an
    encoder that never answers the empty string, every image of a
    non-empty working set then counts as processed. *)
Theorem processImages_completes (render : Renderer) (toDataURL : Canvas -> string)
    (st : AppState) :
  (forall img f, img ∈ images st -> f ∈ allRegions img -> region_selected f = true ->
     (1 <= box_width (region_box f))%Q /\ (1 <= box_height (region_box f))%Q) ->
  let r := processImages render toDataURL st in
  r.2 = None /\
  isProcessing r.1 = false /\ processingStatus r.1 = EmptyString /\
  selectedImageId r.1 = selectedImageId st /\
  length (images r.1) = length (images st) /\
  (forall k img, images st !! k = Some img ->
     exists img' canvas,
       images r.1 !! k = Some img' /\
       Image.id img' = Image.id img /\ Image.file img' = Image.file img /\
       Image.img img' = Image.img img /\ Image.faces img' = Image.faces img /\
       Image.manualRegions img' = Image.manualRegions img /\
       Image.processed img' = Some (toDataURL canvas) /\
       forall i j,
         (forall f, f ∈ allRegions img -> region_selected f = true ->
            ~ footprint (blurType st) (region_box f) i j) ->
         cv_pixel canvas i j = img_pixel (Image.img img) i j) /\
  ((forall c, toDataURL c <> EmptyString) -> images st <> [] ->
     allProcessed (images r.1) = true).
Proof.
  intros Hbox. cbn zeta. unfold processImages.
  destruct (process_loop_completes render toDataURL (blurType st) (length (images st))
              (images st) Hbox 0 [] (processingStatus st)) as (status' & ->).
  cbn [app fst snd images isProcessing processingStatus selectedImageId].
  conj_split; try reflexivity.
  - apply length_fmap.
  - intros k img Hk. rewrite list_lookup_fmap, Hk. cbn [fmap option_fmap option_map].
    eexists. eexists. conj_split; try reflexivity.
    intros i j Hout. unfold applyBlurToFaces.
    rewrite blur_loop_frame; [reflexivity | |].
    + intros f Hf. apply list_elem_of_filter in Hf as [Hs Hf].
      assert (Hin : img ∈ images st) by (eapply list_elem_of_lookup_2; exact Hk).
      destruct (Hbox img f Hin Hf Hs). split; lra.
    + intros f Hf. apply list_elem_of_filter in Hf as [Hs Hf]. apply Hout; assumption.
  - intros Henc Hne. unfold allProcessed. rewrite length_fmap.
    apply andb_true_intro. split.
    + destruct (images st); [congruence | reflexivity].
    + apply forallb_forall. intros img' Hin'. apply list_elem_of_In in Hin'.
      apply list_elem_of_fmap in Hin' as (img & -> & _). cbn.
      apply negb_true_iff, String.eqb_neq, Henc.
Qed.

Lemma processImages_completes_witness :
  let st := SampleProcess.state [SampleProcess.wide] in
  let r := processImages SamplePixels.white SampleProcess.encoder st in
  r.2 = None /\
  isProcessing r.1 = false /\ processingStatus r.1 = EmptyString /\
  selectedImageId r.1 = selectedImageId st /\
  length (images r.1) = length (images st) /\
  (forall k img, images st !! k = Some img ->
     exists img' canvas,
       images r.1 !! k = Some img' /\
       Image.id img' = Image.id img /\ Image.file img' = Image.file img /\
       Image.img img' = Image.img img /\ Image.faces img' = Image.faces img /\
       Image.manualRegions img' = Image.manualRegions img /\
       Image.processed img' = Some (SampleProcess.encoder canvas) /\
       forall i j,
         (forall f, f ∈ allRegions img -> region_selected f = true ->
            ~ footprint (blurType st) (region_box f) i j) ->
         cv_pixel canvas i j = img_pixel (Image.img img) i j) /\
  ((forall c, SampleProcess.encoder c <> EmptyString) -> images st <> [] ->
     allProcessed (images r.1) = true).
Proof.
  apply (processImages_completes SamplePixels.white SampleProcess.encoder
           (SampleProcess.state [SampleProcess.wide])).
  intros img f Hin Hf Hs. cbn in Hin. apply list_elem_of_singleton in Hin. subst img.
  cbn in Hf. apply list_elem_of_singleton in Hf. subst f.
  split; vm_compute; discriminate.
Defined.

Lemma applyPixelation_thrown (c : Canvas) (box : Box) :
  ((applyPixelation c box).2 = None /\
   JS.Math_round (box_width box) <> 0%Z /\ JS.Math_round (box_height box) <> 0%Z) \/
  ((applyPixelation c box).2 = Some "IndexSizeError"%string /\
   (JS.Math_round (box_width box) = 0%Z \/ JS.Math_round (box_height box) = 0%Z)).
Proof.
  unfold applyPixelation, rounded_box, getImageData.
  destruct (Z.eqb_spec (JS.Math_round (box_width box)) 0) as [Ew | Ew];
    destruct (Z.eqb_spec (JS.Math_round (box_height box)) 0) as [Eh | Eh];
    cbn [orb snd]; auto.
Qed.

Lemma blur_loop_pixel_throws (render : Renderer) (selectedFaces : list Region) :
  forall c,
    ((blur_loop render pixel selectedFaces c).2 = None /\
     forall f, f ∈ selectedFaces ->
       JS.Math_round (box_width (region_box f)) <> 0%Z /\
       JS.Math_round (box_height (region_box f)) <> 0%Z) \/
    (blur_loop render pixel selectedFaces c).2 = Some "IndexSizeError"%string.
Proof.
  induction selectedFaces as [|face rest IH]; intros c; cbn [blur_loop].
  - left. split; [reflexivity | intros f Hf; inversion Hf].
  - destruct (applyPixelation_thrown c (region_box face)) as [(E & Hw & Hh) | (E & _)];
      destruct (applyPixelation c (region_box face)) as [c' thrown];
      cbn [snd] in E; subst thrown; [| right; reflexivity].
    destruct (IH c') as [(E' & H') | E']; [left | right; exact E'].
    split; [exact E' |]. intros f Hf. apply elem_of_cons in Hf as [-> | Hf]; auto.
Qed.

Lemma process_loop_pixel_throws (render : Renderer) (toDataURL : Canvas -> string)
    (n : nat) (todo : list Image.t) (img : Image.t) (f : Region) :
  img ∈ todo -> f ∈ allRegions img -> region_selected f = true ->
  (JS.Math_round (box_width (region_box f)) = 0%Z \/
   JS.Math_round (box_height (region_box f)) = 0%Z) ->
  forall i processedImages status,
    (process_loop render toDataURL pixel n i todo processedImages status).2
    = Some "IndexSizeError"%string.
Proof.
  intros Himg Hf Hs Hzero. induction todo as [|imgData rest IH]; intros i acc status.
  - inversion Himg.
  - cbn [process_loop]. unfold applyBlurToFaces.
    destruct (blur_loop_pixel_throws render
                (filter (fun f => region_selected f = true) (allRegions imgData))
                (imageToCanvas (Image.img imgData))) as [(E & H) | E];
      destruct (blur_loop render pixel _ _) as [canvas' thrown];
      cbn [snd] in E; subst thrown; [| reflexivity].
    apply elem_of_cons in Himg as [-> | Himg].
    + exfalso. destruct (H f) as [Hw Hh]; [apply list_elem_of_filter; auto |].
      destruct Hzero; contradiction.
    + apply IH. exact Himg.
Qed.

(** X21: in the pixel style a selected region whose width or height
    rounds to 0 makes processing fail: the call throws, no image gets an
    output and the working set is as before, and the tool stays marked
    busy, since nothing resets the flag after the exception. *)
Theorem processImages_stuck_after_exception (render : Renderer)
    (toDataURL : Canvas -> string) (st : AppState) (img : Image.t) (f : Region) :
  blurType st = pixel ->
  img ∈ images st -> f ∈ allRegions img -> region_selected f = true ->
  (JS.Math_round (box_width (region_box f)) = 0%Z \/
   JS.Math_round (box_height (region_box f)) = 0%Z) ->
  let r := processImages render toDataURL st in
  r.2 = Some "IndexSizeError"%string /\
  isProcessing r.1 = true /\
  images r.1 = images st.
Proof.
  intros Hbt Himg Hf Hs Hzero. cbn zeta. unfold processImages. rewrite Hbt.
  pose proof (process_loop_pixel_throws render toDataURL (length (images st)) (images st)
                img f Himg Hf Hs Hzero 0 [] (processingStatus st)) as E.
  destruct (process_loop _ _ _ _ _ _ _ _) as [[processedImages status] thrown].
  cbn [snd] in E. subst thrown. auto.
Qed.

Lemma processImages_stuck_after_exception_witness :
  let st := SampleProcess.state [SampleProcess.wide; SampleProcess.thin] in
  let r := processImages SamplePixels.white SampleProcess.encoder st in
  r.2 = Some "IndexSizeError"%string /\
  isProcessing r.1 = true /\
  images r.1 = images st.
Proof.
  apply (processImages_stuck_after_exception SamplePixels.white SampleProcess.encoder
           (SampleProcess.state [SampleProcess.wide; SampleProcess.thin])
           (SampleProcess.entry [SampleProcess.wide; SampleProcess.thin])
           (ManualRegion SampleProcess.thin)).
  - reflexivity.
  - cbn. left.
  - cbn. right. left.
  - reflexivity.
  - left. vm_compute. reflexivity.
Defined.

(** ** Outputs and edits *)





(** ** Download names *)

Lemma split_dot_nonempty (s : string) : split_dot s <> [].
Proof.
  destruct s as [|c s]; cbn [split_dot]; [discriminate |].
  destruct (Ascii.eqb c "."); [discriminate |].
  destruct (split_dot s); discriminate.
Qed.

Lemma plain_chars_no_dot (s : string) : plain_chars s = true -> JS.includes "." s = false.
Proof.
  induction s as [|c s IH]; [reflexivity |]. cbn [plain_chars JS.includes].
  intros H. apply andb_true_iff in H as [H Hs]. apply andb_true_iff in H as [_ Hd].
  apply negb_true_iff in Hd. rewrite Ascii.eqb_sym, Hd. apply IH, Hs.
Qed.

Lemma split_dot_no_dot (s : string) : JS.includes "." s = false -> split_dot s = [s].
Proof.
  induction s as [|c s IH]; [reflexivity |]. cbn [JS.includes split_dot].
  rewrite (Ascii.eqb_sym "."%char c).
  destruct (Ascii.eqb c "."); [discriminate |]. intros H. rewrite (IH H). reflexivity.
Qed.

Lemma split_dot_snoc (base ext : string) :
  JS.includes "." ext = false ->
  exists pieces, pieces <> [] /\ split_dot (base +:+ "." +:+ ext) = pieces ++ [ext].
Proof.
  intros Hext. induction base as [|c base IH].
  - exists [EmptyString]. split; [discriminate |].
    change (EmptyString +:+ "." +:+ ext) with (String "." ext).
    cbn [split_dot]. rewrite Ascii.eqb_refl, (split_dot_no_dot ext Hext). reflexivity.
  - destruct IH as (pieces & Hne & E).
    change (String c base +:+ "." +:+ ext) with (String c (base +:+ "." +:+ ext)).
    cbn [split_dot]. rewrite E. destruct (Ascii.eqb c ".").
    + exists (EmptyString :: pieces). split; [discriminate | reflexivity].
    + destruct pieces as [|p ps]; [congruence |].
      exists (String c p :: ps). split; [discriminate | reflexivity].
Qed.

Lemma last_split_dot (base ext : string) :
  JS.includes "." ext = false ->
  last (split_dot (base +:+ "." +:+ ext)) = Some ext.
Proof.
  intros Hext. destruct (split_dot_snoc base ext Hext) as (pieces & _ & ->).
  apply last_snoc.
Qed.

Lemma extension_match_inner (rest ext : string) :
  extension_match ("." +:+ rest +:+ "." +:+ ext) = false.
Proof.
  assert (Hp : forall r, plain_chars (r +:+ "." +:+ ext) = false).
  { induction r as [|c r IH]; [reflexivity |].
    change (String c r +:+ "." +:+ ext) with (String c (r +:+ "." +:+ ext)).
    cbn [plain_chars]. rewrite IH. apply andb_false_r. }
  destruct rest as [|d rest]; [reflexivity |].
  change ("." +:+ String d rest +:+ "." +:+ ext)
    with (String "." (String d (rest +:+ "." +:+ ext))).
  cbn [extension_match]. change (String d (rest +:+ "." +:+ ext))
    with (String d rest +:+ "." +:+ ext). rewrite Hp. reflexivity.
Qed.

Lemma strip_extension_spec (base ext : string) :
  plain_chars ext = true -> ext <> EmptyString ->
  strip_extension (base +:+ "." +:+ ext) = base.
Proof.
  intros Hext Hne. induction base as [|c base IH].
  - destruct ext as [|d ext]; [congruence |].
    change (EmptyString +:+ "." +:+ String d ext) with (String "." (String d ext)).
    cbn [strip_extension].
    assert (E : extension_match (String "." (String d ext)) = true) by exact Hext.
    rewrite E. reflexivity.
  - change (String c base +:+ "." +:+ ext) with (String c (base +:+ "." +:+ ext)).
    cbn [strip_extension].
    replace (extension_match (String c (base +:+ "." +:+ ext))) with false;
      [rewrite IH; reflexivity |].
    symmetry. destruct (Ascii.eqb_spec c ".") as [-> | Hc].
    + apply (extension_match_inner base ext).
    + destruct (base +:+ "." +:+ ext); [reflexivity |]. cbn [extension_match].
      apply Ascii.eqb_neq in Hc. rewrite Hc. reflexivity.
Qed.

(** X23: the download of an image whose file name ends in a dot and an
    extension (one or more characters other than [.] and [/]) is named
    after the file with [-blurred] put before the extension, whatever
    dots the base name holds. *)
Theorem download_name_with_extension (base ext : string) :
  plain_chars ext = true -> ext <> EmptyString ->
  download_name (base +:+ "." +:+ ext) = base +:+ "-blurred." +:+ ext.
Proof.
  intros Hext Hne. unfold download_name.
  rewrite (last_split_dot base ext (plain_chars_no_dot ext Hext)).
  rewrite (strip_extension_spec base ext Hext Hne). reflexivity.
Qed.

Lemma download_name_with_extension_witness :
  download_name ("family.2024" +:+ "." +:+ "jpg") = "family.2024" +:+ "-blurred." +:+ "jpg".
Proof.
  apply (download_name_with_extension "family.2024" "jpg").
  - reflexivity.
  - discriminate.
Defined.

Lemma strip_extension_no_dot (s : string) :
  JS.includes "." s = false -> strip_extension s = s.
Proof.
  induction s as [|c s IH]; [reflexivity |]. cbn [JS.includes]. intros H.
  destruct (Ascii.eqb "." c) eqn:Ec; [discriminate |].
  cbn [strip_extension].
  replace (extension_match (String c s)) with false.
  - rewrite (IH H). reflexivity.
  - symmetry. destruct s; [reflexivity |]. cbn [extension_match].
    rewrite Ascii.eqb_sym, Ec. reflexivity.
Qed.

(** X24: for a file name without a dot the whole name is taken for the
    extension as well: the download is named [name-blurred.name]. *)
Theorem download_name_without_dot (name : string) :
  JS.includes "." name = false ->
  download_name name = name +:+ "-blurred." +:+ name.
Proof.
  intros H. unfold download_name.
  rewrite (split_dot_no_dot name H), (strip_extension_no_dot name H). reflexivity.
Qed.

Lemma download_name_without_dot_witness :
  download_name "portrait" = "portrait" +:+ "-blurred." +:+ "portrait".
Proof.
  apply (download_name_without_dot "portrait"). reflexivity.
Defined.

(** ** The projection of the calculator *)

Lemma projection_loop_spec (params : Fire.Params) (ages : list Z) :
  forall portfolio data,
    Fire.projection_loop params ages portfolio data
    = data ++ rows_from params ages portfolio.
Proof.
  induction ages as [|a ages IH]; intros p data; cbn [Fire.projection_loop rows_from].
  - by rewrite app_nil_r.
  - destruct (Fire.projection_year params a p) as [p' row] eqn:E.
    rewrite IH, <- app_assoc. reflexivity.
Qed.

Lemma rows_from_length (params : Fire.Params) (ages : list Z) :
  forall portfolio, length (rows_from params ages portfolio) = length ages.
Proof.
  induction ages as [|a ages IH]; intros p; [reflexivity |].
  cbn [rows_from length]. by rewrite IH.
Qed.

(** The row of the [k]-th age is made from the portfolio the loop holds
    after the ages before it. *)
Lemma rows_from_lookup (params : Fire.Params) (ages : list Z) :
  forall portfolio k,
    rows_from params ages portfolio !! k
    = (fun a => (Fire.projection_year params a
                   (portfolio_after params (take k ages) portfolio)).2) <$> ages !! k.
Proof.
  induction ages as [|a ages IH]; intros p k; [by destruct k |].
  destruct k as [|k]; [reflexivity |]. cbn [rows_from lookup list_lookup take].
  rewrite IH. reflexivity.
Qed.

Lemma portfolio_after_snoc (params : Fire.Params) (ages : list Z) (a : Z) (p : Q) :
  portfolio_after params (ages ++ [a]) p
  = (Fire.projection_year params a (portfolio_after params ages p)).1.
Proof. unfold portfolio_after. rewrite foldl_app. reflexivity. Qed.

Lemma row_portfolio (params : Fire.Params) (a : Z) (p : Q) :
  Fire.portfolio (Fire.projection_year params a p).2
  = JS.Math_round (Fire.projection_year params a p).1.
Proof.
  unfold Fire.projection_year. destruct (a <? Fire.retirementAge params)%Z; reflexivity.
Qed.

(** The rounded portfolio of the row at position [k]. *)
Lemma projection_portfolio (params : Fire.Params) (k : nat) (pk : Z) :
  (Fire.portfolio <$> Fire.calculateProjection params) !! k = Some pk ->
  let ages := seqZ (Fire.currentAge params)
                (Fire.lifeExpectancy params - Fire.currentAge params + 1) in
  pk = JS.Math_round (portfolio_after params (take (S k) ages)
                        (Fire.currentPortfolio params)) /\
  ages !! k = Some (Fire.currentAge params + Z.of_nat k)%Z.
Proof.
  intros Hk. cbn zeta. unfold Fire.calculateProjection in Hk.
  rewrite projection_loop_spec in Hk. cbn [app] in Hk.
  rewrite list_lookup_fmap, rows_from_lookup in Hk.
  destruct (seqZ _ _ !! k) as [a|] eqn:Ea; [| discriminate].
  cbn in Hk. injection Hk as <-.
  rewrite (take_S_r _ _ _ Ea), portfolio_after_snoc, row_portfolio.
  split; [reflexivity |]. f_equal. apply lookup_seqZ in Ea. lia.
Qed.

Lemma Math_round_mono (p q : Q) : (p <= q)%Q -> (JS.Math_round p <= JS.Math_round q)%Z.
Proof. intros H. unfold JS.Math_round. apply Qfloor_resp_le. lra. Qed.

Lemma Math_round_negative (q : Q) : (JS.Math_round q < 0)%Z -> (q < 0)%Q.
Proof.
  intros H. destruct (Math_round_bounds q) as [_ Hhi].
  assert (Hq : (inject_Z (JS.Math_round q) + 1 <= 0)%Q).
  { change 1%Q with (inject_Z 1). rewrite <- inject_Z_plus.
    change 0%Q with (inject_Z 0). rewrite <- Zle_Qle. lia. }
  lra.
Qed.

(** A year of retirement on a negative portfolio, at a return rate that
    is not negative, leaves no more than it found. *)
Lemma retirement_year_negative (params : Fire.Params) (a : Z) (p : Q) :
  (0 <= Fire.postReturnRate params)%Q ->
  (Fire.retirementAge params <= a)%Z -> (p < 0)%Q ->
  ((Fire.projection_year params a p).1 <= p)%Q.
Proof.
  intros Hr Ha Hp. unfold Fire.projection_year.
  replace (a <? Fire.retirementAge params)%Z with false
    by (symmetry; apply Z.ltb_ge; exact Ha).
  cbn [fst]. unfold JS.Math_max.
  match goal with |- context [Qmax 0 ?x] => pose proof (Q.le_max_l 0 x); set (w := Qmax 0 x) in * end.
  clearbody w. nra.
Qed.

(** A year of accumulation with savings and a return rate that are not
    negative, on a portfolio that is not negative, leaves no less than
    it found. *)
Lemma accumulation_year_grows (params : Fire.Params) (a : Z) (p : Q) :
  (0 <= Fire.preReturnRate params)%Q -> (0 <= Fire.annualSavings params)%Q ->
  (a < Fire.retirementAge params)%Z -> (0 <= p)%Q ->
  (p <= (Fire.projection_year params a p).1)%Q.
Proof.
  intros Hr Hs Ha Hp. unfold Fire.projection_year.
  replace (a <? Fire.retirementAge params)%Z with true
    by (symmetry; apply Z.ltb_lt; exact Ha).
  cbn [fst]. nra.
Qed.

(** X25: the projection has one row per year from the current age to
    the life expectancy, both included (none if the life expectancy lies
    below the current age), in order of age.  The rows before the
    retirement age are the accumulation rows: no spending, no giving, the
    savings as income and no withdrawal; every later row has a withdrawal,
    which is never negative: income beyond the spending is not added to
    the portfolio. *)
Theorem projection_rows_by_year (params : Fire.Params) :
  let rows := Fire.calculateProjection params in
  length rows
  = Z.to_nat (Fire.lifeExpectancy params - Fire.currentAge params + 1) /\
  forall k row, rows !! k = Some row ->
    Fire.age row = (Fire.currentAge params + Z.of_nat k)%Z /\
    (Fire.phase row = "Accumulation"%string
     <-> (Fire.age row < Fire.retirementAge params)%Z) /\
    ((Fire.age row < Fire.retirementAge params)%Z ->
       Fire.spending row = 0%Z /\ Fire.giving row = 0%Z /\
       Fire.income row = Fire.annualSavings params /\ Fire.withdrawal row = None) /\
    ((Fire.retirementAge params <= Fire.age row)%Z ->
       exists wd, Fire.withdrawal row = Some wd /\ (0 <= wd)%Z).
Proof.
  cbn zeta. unfold Fire.calculateProjection. rewrite projection_loop_spec. cbn [app].
  split; [rewrite rows_from_length; apply length_seqZ |].
  intros k row Hk. rewrite rows_from_lookup in Hk.
  destruct (seqZ _ _ !! k) as [a|] eqn:Ea; [| discriminate].
  cbn in Hk. injection Hk as <-. apply lookup_seqZ in Ea as [-> _].
  set (a := (Fire.currentAge params + Z.of_nat k)%Z).
  set (p := portfolio_after params _ _). clearbody p.
  unfold Fire.projection_year.
  destruct (Z.ltb_spec a (Fire.retirementAge params)) as [Ha | Ha];
    cbn [snd Fire.age Fire.phase Fire.spending Fire.giving Fire.income Fire.withdrawal].
  - conj_split; try reflexivity; try tauto. intros; lia.
  - conj_split; try reflexivity.
    + split; [| lia]. destruct (a <? 55)%Z; [discriminate |].
      destruct (a <? 70)%Z; [discriminate |]. destruct (a <? 80)%Z; discriminate.
    + intros; lia.
    + intros _. eexists. split; [reflexivity |].
      apply Math_round_nonneg. unfold JS.Math_max. apply Q.le_max_l.
Qed.

Lemma projection_age (params : Fire.Params) (k : nat) (ak : Z) :
  (Fire.age <$> Fire.calculateProjection params) !! k = Some ak ->
  ak = (Fire.currentAge params + Z.of_nat k)%Z.
Proof.
  intros Hk. unfold Fire.calculateProjection in Hk.
  rewrite projection_loop_spec in Hk. cbn [app] in Hk.
  rewrite list_lookup_fmap, rows_from_lookup in Hk.
  destruct (seqZ _ _ !! k) as [a|] eqn:Ea; [| discriminate].
  cbn in Hk. injection Hk as <-. apply lookup_seqZ in Ea as [-> _].
  unfold Fire.projection_year. destruct (_ <? _)%Z; reflexivity.
Qed.

(** X26: with a return rate in retirement that is not negative, a
    portfolio that a row of the retirement shows below zero never
    recovers: every later row shows the same amount or less. *)
Theorem depletion_is_permanent (params : Fire.Params) (i j : nat) (ai pi pj : Z) :
  (0 <= Fire.postReturnRate params)%Q ->
  (Fire.age <$> Fire.calculateProjection params) !! i = Some ai ->
  (Fire.portfolio <$> Fire.calculateProjection params) !! i = Some pi ->
  (Fire.portfolio <$> Fire.calculateProjection params) !! j = Some pj ->
  i <= j ->
  (Fire.retirementAge params <= ai)%Z ->
  (pi < 0)%Z ->
  (pj <= pi)%Z.
Proof.
  intros Hr Hai Hpi Hpj Hij Hret Hneg.
  pose proof (projection_age params i ai Hai) as Eai.
  destruct (projection_portfolio params i pi Hpi) as [Epi _].
  destruct (projection_portfolio params j pj Hpj) as [Epj Haj].
  cbn zeta in *.
  set (ages := seqZ (Fire.currentAge params)
                 (Fire.lifeExpectancy params - Fire.currentAge params + 1)) in *.
  set (p0 := Fire.currentPortfolio params) in *.
  assert (Hlen : S j <= length ages) by (apply lookup_lt_Some in Haj; lia).
  assert (Hq : (portfolio_after params (take (S i) ages) p0 < 0)%Q)
    by (apply Math_round_negative; lia).
  assert (Hstep : forall d, S i + d <= length ages ->
            (portfolio_after params (take (S i + d) ages) p0
             <= portfolio_after params (take (S i) ages) p0)%Q).
  { induction d as [|d IH]; intros Hd.
    - rewrite Nat.add_0_r. lra.
    - specialize (IH ltac:(lia)).
      destruct (lookup_lt_is_Some_2 ages (S i + d) ltac:(lia)) as [a Ea].
      replace (S i + S d) with (S (S i + d)) by lia.
      rewrite (take_S_r _ _ _ Ea), portfolio_after_snoc.
      apply lookup_seqZ in Ea as [Ea _].
      pose proof (retirement_year_negative params a
                    (portfolio_after params (take (S i + d) ages) p0) Hr
                    ltac:(lia) ltac:(lra)).
      lra. }
  rewrite Epi, Epj. apply Math_round_mono.
  replace (S j) with (S i + (j - i)) by lia. apply Hstep. lia.
Qed.

Lemma depletion_is_permanent_witness :
  (Fire.portfolio <$> Fire.calculateProjection SampleFire.retiree) !! 1
  = Some (-35000)%Z /\
  (Fire.portfolio <$> Fire.calculateProjection SampleFire.retiree) !! 3
  = Some (-191191)%Z /\
  (-191191 <= -35000)%Z.
Proof.
  split; [vm_compute; reflexivity |]. split; [vm_compute; reflexivity |].
  apply (depletion_is_permanent SampleFire.retiree 1 3 61 (-35000) (-191191)).
  - vm_compute. discriminate.
  - vm_compute. reflexivity.
  - vm_compute. reflexivity.
  - vm_compute. reflexivity.
  - lia.
  - vm_compute. discriminate.
  - lia.
Defined.

(** X27: with savings, a return rate before retirement and a starting
    portfolio that are not negative, the rows of the accumulation never
    show less than the starting portfolio and never fall from one year
    to the next. *)
Theorem accumulation_never_falls (params : Fire.Params) (i j : nat) (aj pi pj : Z) :
  (0 <= Fire.preReturnRate params)%Q ->
  (0 <= Fire.annualSavings params)%Q ->
  (0 <= Fire.currentPortfolio params)%Q ->
  (Fire.portfolio <$> Fire.calculateProjection params) !! i = Some pi ->
  (Fire.portfolio <$> Fire.calculateProjection params) !! j = Some pj ->
  (Fire.age <$> Fire.calculateProjection params) !! j = Some aj ->
  i <= j ->
  (aj < Fire.retirementAge params)%Z ->
  (JS.Math_round (Fire.currentPortfolio params) <= pi)%Z /\ (pi <= pj)%Z.
Proof.
  intros Hr Hs Hp0 Hpi Hpj Haj Hij Hacc.
  pose proof (projection_age params j aj Haj) as Eaj.
  destruct (projection_portfolio params i pi Hpi) as [Epi _].
  destruct (projection_portfolio params j pj Hpj) as [Epj Hj].
  cbn zeta in *.
  set (ages := seqZ (Fire.currentAge params)
                 (Fire.lifeExpectancy params - Fire.currentAge params + 1)) in *.
  set (p0 := Fire.currentPortfolio params) in *.
  assert (Hlen : S j <= length ages) by (apply lookup_lt_Some in Hj; lia).
  assert (Hstep : forall n, n <= S j ->
            (0 <= portfolio_after params (take n ages) p0)%Q /\
            forall m, m <= n ->
              (portfolio_after params (take m ages) p0
               <= portfolio_after params (take n ages) p0)%Q).
  { induction n as [|n IH]; intros Hn.
    - split; [exact Hp0 |]. intros m Hm. replace m with 0 by lia. lra.
    - destruct (IH ltac:(lia)) as [H0 Hm].
      destruct (lookup_lt_is_Some_2 ages n ltac:(lia)) as [a Ea].
      rewrite (take_S_r _ _ _ Ea), portfolio_after_snoc.
      pose proof Ea as Ea'. apply lookup_seqZ in Ea as [Ea _].
      pose proof (accumulation_year_grows params a
                    (portfolio_after params (take n ages) p0) Hr Hs
                    ltac:(lia) H0) as Hg.
      split; [lra |]. intros m Hle.
      destruct (decide (m = S n)) as [-> | Hne].
      + rewrite (take_S_r _ _ _ Ea'), portfolio_after_snoc. lra.
      + specialize (Hm m ltac:(lia)). lra. }
  rewrite Epi, Epj. split; apply Math_round_mono.
  - destruct (Hstep (S i) ltac:(lia)) as [_ H]. apply (H 0). lia.
  - destruct (Hstep (S j) ltac:(lia)) as [_ H]. apply (H (S i)). lia.
Qed.

Lemma accumulation_never_falls_witness :
  (Fire.portfolio <$> Fire.calculateProjection SampleFire.saver) !! 0 = Some 560000%Z /\
  (Fire.portfolio <$> Fire.calculateProjection SampleFire.saver) !! 3 = Some 766397%Z /\
  (JS.Math_round (Fire.currentPortfolio SampleFire.saver) <= 560000)%Z /\
  (560000 <= 766397)%Z.
Proof.
  split; [vm_compute; reflexivity |]. split; [vm_compute; reflexivity |].
  apply (accumulation_never_falls SampleFire.saver 0 3 38 560000 766397).
  - vm_compute. discriminate.
  - vm_compute. discriminate.
  - vm_compute. discriminate.
  - vm_compute. reflexivity.
  - vm_compute. reflexivity.
  - vm_compute. reflexivity.
  - lia.
  - vm_compute. reflexivity.
Defined.

(** ** Ids of detections and uploads *)

(** X11: a detection call on loaded models returns one record per
    detection, in the order of the engine, not yet tied to an image; the
    record at position [k] carries the id built from the reading of the
    clock when that detection is mapped and from [k].  Such an id
    determines both the reading and the position, so the ids of one call
    are pairwise different whatever the clock reads.  Without loaded
    models the call throws whatever the engine would answer. *)
Theorem detectFaces_ids_distinct (engine : Canvas -> Result (list Detection.t))
    (now : nat -> Z) (c : Canvas) (detections : list Detection.t) :
  engine c = Ok detections ->
  (exists faces,
     detectFaces true engine now c = Ok faces /\
     length faces = length detections /\
     NoDup (Face.id <$> faces) /\
     forall k f, faces !! k = Some f ->
       Face.id f = "face-" +:+ pretty (now k) +:+ "-" +:+ pretty k /\
       Face.imageId f = None /\ Face.thumbnail f = None) /\
  (forall (t t' : Z) (k k' : nat),
     "face-" +:+ pretty t +:+ "-" +:+ pretty k
     = "face-" +:+ pretty t' +:+ "-" +:+ pretty k' ->
     t = t' /\ k = k') /\
  forall engine', detectFaces false engine' now c
                  = Throw "Models not loaded. Call loadModels() first.".
Proof.
  intros He. split; [| split; [intros t t' k k'; apply stamped_id_inj | reflexivity]].
  unfold detectFaces. cbn [negb]. rewrite He. cbn [mbind Result_bind].
  eexists. split; [reflexivity |].
  match goal with |- context [imap ?f detections] => set (F := f) end.
  assert (Hk : forall k f, imap F detections !! k = Some f ->
    Face.id f = "face-" +:+ pretty (now k) +:+ "-" +:+ pretty k /\
    Face.imageId f = None /\ Face.thumbnail f = None).
  { intros k f Hf. rewrite list_lookup_imap in Hf.
    destruct (detections !! k) as [d|]; [| discriminate]. injection Hf as <-.
    cbn. auto. }
  split; [apply length_imap |]. split; [| exact Hk].
  apply NoDup_alt. intros i j id Hi Hj. rewrite list_lookup_fmap in Hi, Hj.
  destruct (_ !! i) as [x|] eqn:Ex; [| discriminate].
  destruct (_ !! j) as [y|] eqn:Ey; [| discriminate].
  cbn in Hi, Hj. destruct (Hk _ _ Ex) as (Ei & _). destruct (Hk _ _ Ey) as (Ej & _).
  apply (stamped_id_inj "face-" (now i) (now j) i j). congruence.
Qed.

Lemma detectFaces_ids_distinct_witness :
  (exists faces,
     detectFaces true SampleDetection.engine (Sample.ticking 1730000000000)
       SampleDetection.blank
     = Ok faces /\
     length faces = 2 /\
     NoDup (Face.id <$> faces) /\
     forall k f, faces !! k = Some f ->
       Face.id f
       = "face-" +:+ pretty (Sample.ticking 1730000000000 k) +:+ "-" +:+ pretty k /\
       Face.imageId f = None /\ Face.thumbnail f = None) /\
  (forall (t t' : Z) (k k' : nat),
     "face-" +:+ pretty t +:+ "-" +:+ pretty k
     = "face-" +:+ pretty t' +:+ "-" +:+ pretty k' ->
     t = t' /\ k = k') /\
  forall engine', detectFaces false engine' (Sample.ticking 1730000000000)
                    SampleDetection.blank
                  = Throw "Models not loaded. Call loadModels() first.".
Proof.
  apply (detectFaces_ids_distinct SampleDetection.engine (Sample.ticking 1730000000000)
           SampleDetection.blank [SampleDetection.child; SampleDetection.adult]).
  reflexivity.
Defined.

(** With a clock that advances between the two detections. *)
Example detectFaces_ids_sample :
  match detectFaces true SampleDetection.engine (Sample.ticking 1730000000000)
          SampleDetection.blank with
  | Ok fs => Face.id <$> fs
  | Throw _ => []
  end
  = ["face-1730000000000-0"; "face-1730000000001-1"].
Proof. vm_compute. reflexivity. Qed.







(** The two photos of the album complete with two faces each; the clock
    advances by a millisecond from reading to reading and by ten from
    file to file. *)
Example album_ids :
  let entries := completed_entries SampleBatch.album true 0
                   [SampleBatch.first; SampleBatch.second] in
  Image.id <$> entries = ["img-1730000000002-0"; "img-1730000000012-1"] /\
  Face.id <$> allFaces entries
  = ["face-1730000000000-0"; "face-1730000000001-1";
     "face-1730000000010-0"; "face-1730000000011-1"].
Proof. vm_compute. split; reflexivity. Qed.

(** When the clock does not advance during the batch, the first faces
    of the two photos get the same id. *)
Example face_ids_collide :
  Face.id <$> allFaces (completed_entries SampleBatch.rushed true 0
                          [SampleBatch.first; SampleBatch.second])
  = ["face-1730000000000-0"; "face-1730000000000-1";
     "face-1730000000000-0"; "face-1730000000000-1"].
Proof. vm_compute. reflexivity. Qed.
